(** * A shallow embedding of the cat guessing game (src/App.tsx)

    The component is a single React function; its [useState] cells become the
    fields of one record, every event handler becomes a function on that
    record, and the timers it starts ([setInterval], [setTimeout]) become
    data in the record that a later event fires.  Platform builtins
    ([Array.prototype.splice], [String.prototype.trim], optional chaining on a
    parsed JSON value, ...) live in module [Js].

    What is left out: the DOM effects (scrolling, opacity), speech output,
    and the mirror of the item list to local storage; none of them feeds
    back into the state.  JavaScript numbers are doubles: the arithmetic of
    the compressor is modelled in doubles (module [Double]); the index drawn
    with [Math.random()] is computed in exact rationals, as is said there,
    and compared with the index in doubles ([floor_times_double]). *)

From Stdlib Require Import String Ascii List ZArith QArith Qround Qpower.
From Stdlib Require Import DecimalString Permutation Bool Arith Lia Lqa.
From Stdlib Require Import DecimalPos DecimalZ SpecFloat.
Import ListNotations.

Set Warnings "-register-all".

Local Close Scope Q_scope.
Local Open Scope string_scope.
Local Open Scope list_scope.

(* ================================================================= *)
(** ** JavaScript builtins used by the component *)

Module Js.

(** Strings are byte strings holding the UTF-8 form of the JavaScript
    string; the component only compares them, tests them for emptiness,
    splits them on a comma and trims them. *)

Definition truthy (s : string) : bool :=
  match s with EmptyString => false | String _ _ => true end.

(** The double quote, for literals that contain one. *)
Definition dq : ascii := "034"%char.

(** [with_dquotes s] is [s] with every apostrophe replaced by a double
    quote: the way this file writes a literal that holds double quotes. *)
Fixpoint with_dquotes (s : string) : string :=
  match s with
  | EmptyString => EmptyString
  | String c r =>
      String (if Ascii.eqb c "'"%char then dq else c) (with_dquotes r)
  end.

Section Arrays.
Context {A : Type}.

(** [arr[i]] for a number [i] that is an integer: [undefined] ([None]) when
    [i] is negative or past the end. *)
Definition index (arr : list A) (i : Z) : option A :=
  if (i <? 0)%Z then None else nth_error arr (Z.to_nat i).

(** [arr.splice(start, 1)] for an integer [start >= 0]: the removed
    elements (at most one) and the array that is left.  A [start] past the
    end removes nothing. *)
Definition splice_remove1 (arr : list A) (start : nat) : list A * list A :=
  (firstn 1 (skipn start arr), firstn start arr ++ skipn (S start) arr).

(** [arr.splice(start, 0, x)]: [x] inserted before position [start], at
    the end when [start] is past it. *)
Definition splice_insert (arr : list A) (start : nat) (x : A) : list A :=
  firstn start arr ++ x :: skipn start arr.

End Arrays.

(** [Math.floor(r * n)] for [r] the value of [Math.random()] and [n] an
    array length, in exact arithmetic.  The code multiplies doubles and
    floors the rounded product: for a draw within a rounding of a multiple
    of [1 / n] its index can be the next one (for the double below one
    third and three items the code reads index 1, this definition 0).  What
    is stated about a draw below does not depend on which of the two it is:
    the index is a position of the list, and every position is drawn by
    some value.  The index in doubles is [floor_times_double]: it is a
    position of every list, and every position of an array, whose length
    is below [2 ^ 32], is drawn.  The lists of the model are not bounded,
    and a double of [2 ^ 53] or more is an even number, so the statements
    about runs, which hold of lists of any length, are made with the exact
    index. *)
Definition floor_times (r : Q) (n : nat) : Z :=
  Qfloor (r * inject_Z (Z.of_nat n))%Q.

(** What [Math.random()] promises about its value: [0 <= r < 1]. *)
Definition is_random (r : Q) : bool := Qle_bool 0 r && negb (Qle_bool 1 r).

(** [n.toString()] for an integral number below 1e21. *)
Definition number_toString (n : Z) : string :=
  NilZero.string_of_int (Z.to_int n).

(** [s.split(',')] *)
Fixpoint split_comma (s : string) : list string :=
  match s with
  | EmptyString => [EmptyString]
  | String c r =>
      if Ascii.eqb c ","%char then EmptyString :: split_comma r
      else match split_comma r with
           | [] => [String c EmptyString]
           | p :: ps => String c p :: ps
           end
  end.

(** *** [String.prototype.trim] *)

Definition bytes (l : list nat) : string :=
  string_of_list_ascii (map ascii_of_nat l).

(** The code points [trim] removes (WhiteSpace and LineTerminator of
    ECMAScript: U+0009..U+000D, U+0020, U+00A0, U+1680, U+2000..U+200A,
    U+2028, U+2029, U+202F, U+205F, U+3000, U+FEFF), in UTF-8. *)
Definition whitespace : list (list nat) :=
  [ [9]; [10]; [11]; [12]; [13]; [32]; [194; 160]; [225; 154; 128];
    [226; 128; 128]; [226; 128; 129]; [226; 128; 130]; [226; 128; 131];
    [226; 128; 132]; [226; 128; 133]; [226; 128; 134]; [226; 128; 135];
    [226; 128; 136]; [226; 128; 137]; [226; 128; 138];
    [226; 128; 168]; [226; 128; 169]; [226; 128; 175];
    [226; 129; 159]; [227; 128; 128]; [239; 187; 191] ].

Fixpoint drop_prefix (p s : string) : option string :=
  match p, s with
  | EmptyString, _ => Some s
  | String a p', String b s' =>
      if Ascii.eqb a b then drop_prefix p' s' else None
  | String _ _, EmptyString => None
  end.

(** [s] without one leading occurrence of a pattern, if it starts with one. *)
Fixpoint drop_one (patterns : list string) (s : string) : option string :=
  match patterns with
  | [] => None
  | p :: ps =>
      match drop_prefix p s with
      | Some r => Some r
      | None => drop_one ps s
      end
  end.

Fixpoint drop_all (patterns : list string) (fuel : nat) (s : string)
  : string :=
  match fuel with
  | O => s
  | S fuel' =>
      match drop_one patterns s with
      | Some r => drop_all patterns fuel' r
      | None => s
      end
  end.

Definition reverse (s : string) : string :=
  string_of_list_ascii (rev (list_ascii_of_string s)).

Definition trimStart (s : string) : string :=
  drop_all (map bytes whitespace) (String.length s) s.

Definition trimEnd (s : string) : string :=
  reverse
    (drop_all (map (fun w => bytes (rev w)) whitespace)
       (String.length s) (reverse s)).

Definition trim (s : string) : string := trimEnd (trimStart s).

(** *** Values of [JSON.parse] and property access on them *)

Inductive Json :=
| JNull
| JBool (b : bool)
| JNumber (x : Q)
| JString (s : string)
| JArray (elements : list Json)
| JObject (fields : list (string * Json)).

(** A JavaScript value met while walking a parsed body: [None] is
    [undefined]. *)
Definition Value := option Json.

(** The own property [k] of a parsed object; of two fields with one name
    [JSON.parse] keeps the later. *)
Fixpoint own_property (k : string) (fields : list (string * Json)) : Value :=
  match fields with
  | [] => None
  | (k', v) :: rest =>
      match own_property k rest with
      | Some w => Some w
      | None => if String.eqb k k' then Some v else None
      end
  end.

(** The property names the component reads: a name that no builtin
    prototype defines ([candidates], [content], [parts], [text]), or the
    index [0]. *)
Inductive Key := Named (k : string) | Index0.

(** The first character of a string, as the string [s[0]] (for a character
    outside the basic plane JavaScript yields its leading surrogate alone;
    the component never looks inside this string). *)
Definition first_char (s : string) : Value :=
  match s with
  | EmptyString => None
  | String c r =>
      let n := nat_of_ascii c in
      let extra := if Nat.ltb n 192 then 0 else if Nat.ltb n 224 then 1
                   else if Nat.ltb n 240 then 2 else 3 in
      Some (JString (String c (substring 0 extra r)))
  end.

(** [v[k]] for a value [v] that is neither [null] nor [undefined]. *)
Definition get (v : Json) (k : Key) : Value :=
  match v, k with
  | JObject fields, Named n => own_property n fields
  | JObject fields, Index0 => own_property "0" fields
  | JArray l, Index0 => nth_error l 0
  | JString s, Index0 => first_char s
  | _, _ => None
  end.

(** One link [v?.[k]] of an optional chain.  Every link of the chain in
    [analyzeImage] after the first is optional, so skipping the rest of the
    chain on [null] or [undefined] is the same as passing [undefined] on. *)
Definition opt_get (k : Key) (v : Value) : Value :=
  match v with
  | None | Some JNull => None
  | Some j => get j k
  end.

End Js.

(* ================================================================= *)
(** ** Types and constants *)

Record Item := mkItem { id : string; name : string; image : string }.

Inductive GameState := idle | guessing | success | fail.
Inductive CatEmotion := neutral | thinking | happy | sad.

Definition DEFAULT_ITEMS : list Item :=
  [ {| id := "default_1";
       name := "纸巾";
       image := Js.with_dquotes
         "data:image/svg+xml;utf8,<svg xmlns='http://www.w3.org/2000/svg' viewBox='0 0 100 100'><rect x='20' y='40' width='60' height='40' fill='%23eee' stroke='%23ccc' stroke-width='2'/><path d='M30 40 Q50 10 70 40' fill='%23fff' stroke='%23ddd'/></svg>" |};
    {| id := "default_2";
       name := "萝卜";
       image := Js.with_dquotes
         "data:image/svg+xml;utf8,<svg xmlns='http://www.w3.org/2000/svg' viewBox='0 0 100 100'><path d='M50 90 Q20 40 50 40 Q80 40 50 90' fill='orange'/><path d='M50 40 L40 10 M50 40 L50 5 M50 40 L60 10' stroke='green' stroke-width='3'/></svg>" |} ].

(** 1024 * 1024 *)
Definition MAX_UPLOAD_SIZE : Z := 1024 * 1024.

(* ================================================================= *)
(** ** Doubles

    A JavaScript number is an IEEE 754 binary64 value.  A finite double
    is modelled by the rational it denotes, and an operation by the exact
    operation followed by the rounding to the nearest double, ties to the
    even significand, with gradual underflow below [2 ^ -1022].  Overflow
    is left out: no computation modelled with these operations reaches
    [2 ^ 1024]. *)

Module Double.
Local Open Scope Q_scope.

(** The exponent [e] with [2 ^ e <= x < 2 ^ (e + 1)], for [x] positive. *)
Definition ilog2 (x : Q) : Z :=
  let l := (Z.log2 (Qnum x) - Z.log2 (Zpos (Qden x)))%Z in
  if Qle_bool (2 ^ l) x then l else (l - 1)%Z.

(** The nearest whole number, the even one of two at the same distance. *)
Definition rne (x : Q) : Z :=
  let f := Qfloor x in
  match Qcompare (x - inject_Z f) (1 # 2) with
  | Lt => f
  | Gt => (f + 1)%Z
  | Eq => if Z.even f then f else (f + 1)%Z
  end.

(** The exponent of the unit in the last place of the doubles around
    [x]: 53 bits of significand, and no unit below [2 ^ -1074]. *)
Definition ulp_exp (x : Q) : Z := Z.max (ilog2 x - 52) (-1074).

(** The double nearest to a positive [x]. *)
Definition round_pos (x : Q) : Q :=
  Qred (inject_Z (rne (x / 2 ^ ulp_exp x)) * 2 ^ ulp_exp x).

(** The double nearest to [x]. *)
Definition round (x : Q) : Q :=
  match Qcompare x 0 with
  | Eq => 0
  | Gt => round_pos x
  | Lt => Qred (- round_pos (- x))
  end.

(** [x * y] and [x / y] on doubles. *)
Definition mul (x y : Q) : Q := round (x * y).
Definition div (x y : Q) : Q := round (x / y).

(** The largest relative error of a rounding to a double of [2 ^ -1022]
    or more. *)
Definition eps : Q := 2 ^ (-53).

End Double.

(* ================================================================= *)
(** ** Image compressor: the size computed by [compressImage] *)

Module Compressor.

(** [a > b] on numbers. *)
Definition gt (a b : Q) : bool := negb (Qle_bool a b).

(** The [width] and [height] with which the image is drawn (lines 42-47 of
    the source), computed in doubles as the code does:
    [height *= maxWidth / width] divides, rounds, multiplies and rounds. *)
Definition scaled (width height maxWidth maxHeight : Q) : Q * Q :=
  if gt width height then
    if gt width maxWidth
    then (maxWidth, Double.mul height (Double.div maxWidth width))
    else (width, height)
  else if gt height maxHeight
    then (Double.mul width (Double.div maxHeight height), maxHeight)
    else (width, height).

(** The default bound of both parameters. *)
Definition DEFAULT_MAX : Q := 400%Q.

(** The conversion of a number to an unsigned long: the fraction is
    dropped and the value wraps modulo 2^32. *)
Definition to_unsigned_long (x : Q) : Z :=
  ((if Qle_bool 0 x then Qfloor x else Qceiling x) mod 2 ^ 32)%Z.

(** Assigning a number to [canvas.width] or [canvas.height]: the
    attribute reflects the unsigned long when that is at most 2^31 - 1,
    and its default value otherwise. *)
Definition reflected (default : Z) (x : Q) : Z :=
  let n := to_unsigned_long x in
  if (n <=? 2147483647)%Z then n else default.

(** The pixel size of the canvas that is encoded, hence of the result;
    the defaults of a canvas are 300 by 150. *)
Definition canvas_size (width height maxWidth maxHeight : Q) : Z * Z :=
  let '(w, h) := scaled width height maxWidth maxHeight in
  (reflected 300 w, reflected 150 h).

End Compressor.

(* ================================================================= *)
(** ** Recognition client: [analyzeImage] *)

Module Recognition.
Import Js.

Inductive Exception :=
| Error (message : string)   (* [new Error(message)], thrown by the code *)
| TypeError                  (* thrown by the platform *)
| SyntaxError.

Inductive Outcome :=
| Returns (label : string)
| Throws (e : Exception).

Definition ENDPOINT : string :=
  "https://generativelanguage.googleapis.com/v1beta/models/gemini-2.5-flash-preview-09-2025:generateContent?key=".

Definition INSTRUCTION : string :=
  "请识别这张图片中的物品名称，只返回名称，不要超过4个字。".

(** The one POST request: its address and the two parts of its body
    ([JSON.stringify] leaves out [data] when it is [undefined]). *)
Record Request := mkRequest {
  url : string;
  text : string;
  mimeType : string;
  data : option string
}.

(** What the network answers: the promise of [fetch] rejects, or it
    resolves to a response with its [ok] flag and the value
    [response.json()] resolves to ([None] when the body is not JSON and
    [json()] rejects). *)
Inductive FetchResult :=
| Rejected
| Resolved (ok : bool) (body : option Json).

(** [data.candidates?.[0]?.content?.parts?.[0]?.text?.trim()]: the first
    access is not optional and throws on [null]; [trim] is called on
    whatever [text] is unless it is [null] or [undefined]. *)
Definition label_text (data : Json) : Exception + option string :=
  match data with
  | JNull => inl TypeError
  | _ =>
      let text :=
        opt_get (Named "text")
          (opt_get Index0
             (opt_get (Named "parts")
                (opt_get (Named "content")
                   (opt_get Index0 (get data (Named "candidates")))))) in
      match text with
      | None | Some JNull => inr None
      | Some (JString s) => inr (Some (trim s))
      | Some _ => inl TypeError
      end
  end.

(** [analyzeImage(base64Image, apiKey)] against a network [fetch]: the
    requests it issued and how it ends. *)
Definition analyzeImage (base64Image apiKey : string)
    (fetch : Request -> FetchResult) : list Request * Outcome :=
  if negb (truthy apiKey) then ([], Throws (Error "MISSING_KEY"))
  else
    let base64Data := nth_error (split_comma base64Image) 1 in
    let request :=
      {| url := ENDPOINT ++ apiKey;
         text := INSTRUCTION;
         mimeType := "image/jpeg";
         data := base64Data |} in
    ([request],
     match fetch request with
     | Rejected => Throws TypeError
     | Resolved ok body =>
         if negb ok then Throws (Error "API_ERROR")
         else
           match body with
           | None => Throws SyntaxError
           | Some data =>
               match label_text data with
               | inl e => Throws e
               | inr None => Throws (Error "EMPTY_RESPONSE")
               | inr (Some text) =>
                   if truthy text then Returns text
                   else Throws (Error "EMPTY_RESPONSE")
               end
           end
     end).

End Recognition.

(* ================================================================= *)
(** ** The component's state *)

(** A running [setInterval] of [startCatGuessing]: what its callback
    closes over.  [items] and [userTarget] are those of the render in which
    the guess started; [ticks] is the callback's counter.  The state holds
    at most one: a guess starts from [idle] or [fail] only, where none runs
    (see [reachable_invariant]). *)
Record Interval := mkInterval {
  iv_items : list Item;
  iv_target : Item;
  iv_ticks : nat
}.

(** The callbacks handed to [setTimeout], with their delay in
    milliseconds. *)
Inductive Callback :=
| ReturnToIdle     (* lines 204-209 *)
| ClearErrorMsg.   (* line 166 *)

Record Timeout := mkTimeout { delay : Z; callback : Callback }.

(** An upload that [handleFileChange] started and that has not finished:
    the file is being read, the image is being compressed, or the
    recognition request is out.  [up_key] is the [geminiKey] of the render
    in which the file was chosen. *)
Inductive Upload :=
| Reading (up_key : string)
| Compressing (up_key : string)
| Analyzing (up_key : string) (compressed : string).

Record State := mkState {
  items : list Item;
  geminiKey : string;
  score : Z;
  gameState : GameState;
  catEmotion : CatEmotion;
  targetItem : option Item;
  catChoice : option Item;
  catMessage : string;
  isAiAnalyzing : bool;
  isAiTalking : bool;
  errorMsg : string;
  isAddModalOpen : bool;
  isSettingsOpen : bool;
  newItemName : string;
  newItemImage : option string;
  draggedItemIndex : option nat;
  interval : option Interval;
  timeouts : list Timeout;
  uploads : list Upload
}.

Definition set_items (v : list Item) (s : State) : State :=
  mkState v (geminiKey s) (score s) (gameState s) (catEmotion s)
    (targetItem s) (catChoice s) (catMessage s) (isAiAnalyzing s)
    (isAiTalking s) (errorMsg s) (isAddModalOpen s) (isSettingsOpen s)
    (newItemName s) (newItemImage s) (draggedItemIndex s) (interval s)
    (timeouts s) (uploads s).

Definition set_geminiKey (v : string) (s : State) : State :=
  mkState (items s) v (score s) (gameState s) (catEmotion s) (targetItem s)
    (catChoice s) (catMessage s) (isAiAnalyzing s) (isAiTalking s)
    (errorMsg s) (isAddModalOpen s) (isSettingsOpen s) (newItemName s)
    (newItemImage s) (draggedItemIndex s) (interval s) (timeouts s)
    (uploads s).

Definition set_score (v : Z) (s : State) : State :=
  mkState (items s) (geminiKey s) v (gameState s) (catEmotion s)
    (targetItem s) (catChoice s) (catMessage s) (isAiAnalyzing s)
    (isAiTalking s) (errorMsg s) (isAddModalOpen s) (isSettingsOpen s)
    (newItemName s) (newItemImage s) (draggedItemIndex s) (interval s)
    (timeouts s) (uploads s).

Definition set_gameState (v : GameState) (s : State) : State :=
  mkState (items s) (geminiKey s) (score s) v (catEmotion s) (targetItem s)
    (catChoice s) (catMessage s) (isAiAnalyzing s) (isAiTalking s)
    (errorMsg s) (isAddModalOpen s) (isSettingsOpen s) (newItemName s)
    (newItemImage s) (draggedItemIndex s) (interval s) (timeouts s)
    (uploads s).

Definition set_catEmotion (v : CatEmotion) (s : State) : State :=
  mkState (items s) (geminiKey s) (score s) (gameState s) v (targetItem s)
    (catChoice s) (catMessage s) (isAiAnalyzing s) (isAiTalking s)
    (errorMsg s) (isAddModalOpen s) (isSettingsOpen s) (newItemName s)
    (newItemImage s) (draggedItemIndex s) (interval s) (timeouts s)
    (uploads s).

Definition set_targetItem (v : option Item) (s : State) : State :=
  mkState (items s) (geminiKey s) (score s) (gameState s) (catEmotion s) v
    (catChoice s) (catMessage s) (isAiAnalyzing s) (isAiTalking s)
    (errorMsg s) (isAddModalOpen s) (isSettingsOpen s) (newItemName s)
    (newItemImage s) (draggedItemIndex s) (interval s) (timeouts s)
    (uploads s).

Definition set_catChoice (v : option Item) (s : State) : State :=
  mkState (items s) (geminiKey s) (score s) (gameState s) (catEmotion s)
    (targetItem s) v (catMessage s) (isAiAnalyzing s) (isAiTalking s)
    (errorMsg s) (isAddModalOpen s) (isSettingsOpen s) (newItemName s)
    (newItemImage s) (draggedItemIndex s) (interval s) (timeouts s)
    (uploads s).

Definition set_catMessage (v : string) (s : State) : State :=
  mkState (items s) (geminiKey s) (score s) (gameState s) (catEmotion s)
    (targetItem s) (catChoice s) v (isAiAnalyzing s) (isAiTalking s)
    (errorMsg s) (isAddModalOpen s) (isSettingsOpen s) (newItemName s)
    (newItemImage s) (draggedItemIndex s) (interval s) (timeouts s)
    (uploads s).

Definition set_isAiAnalyzing (v : bool) (s : State) : State :=
  mkState (items s) (geminiKey s) (score s) (gameState s) (catEmotion s)
    (targetItem s) (catChoice s) (catMessage s) v (isAiTalking s)
    (errorMsg s) (isAddModalOpen s) (isSettingsOpen s) (newItemName s)
    (newItemImage s) (draggedItemIndex s) (interval s) (timeouts s)
    (uploads s).

Definition set_isAiTalking (v : bool) (s : State) : State :=
  mkState (items s) (geminiKey s) (score s) (gameState s) (catEmotion s)
    (targetItem s) (catChoice s) (catMessage s) (isAiAnalyzing s) v
    (errorMsg s) (isAddModalOpen s) (isSettingsOpen s) (newItemName s)
    (newItemImage s) (draggedItemIndex s) (interval s) (timeouts s)
    (uploads s).

Definition set_errorMsg (v : string) (s : State) : State :=
  mkState (items s) (geminiKey s) (score s) (gameState s) (catEmotion s)
    (targetItem s) (catChoice s) (catMessage s) (isAiAnalyzing s)
    (isAiTalking s) v (isAddModalOpen s) (isSettingsOpen s) (newItemName s)
    (newItemImage s) (draggedItemIndex s) (interval s) (timeouts s)
    (uploads s).

Definition set_isAddModalOpen (v : bool) (s : State) : State :=
  mkState (items s) (geminiKey s) (score s) (gameState s) (catEmotion s)
    (targetItem s) (catChoice s) (catMessage s) (isAiAnalyzing s)
    (isAiTalking s) (errorMsg s) v (isSettingsOpen s) (newItemName s)
    (newItemImage s) (draggedItemIndex s) (interval s) (timeouts s)
    (uploads s).

Definition set_isSettingsOpen (v : bool) (s : State) : State :=
  mkState (items s) (geminiKey s) (score s) (gameState s) (catEmotion s)
    (targetItem s) (catChoice s) (catMessage s) (isAiAnalyzing s)
    (isAiTalking s) (errorMsg s) (isAddModalOpen s) v (newItemName s)
    (newItemImage s) (draggedItemIndex s) (interval s) (timeouts s)
    (uploads s).

Definition set_newItemName (v : string) (s : State) : State :=
  mkState (items s) (geminiKey s) (score s) (gameState s) (catEmotion s)
    (targetItem s) (catChoice s) (catMessage s) (isAiAnalyzing s)
    (isAiTalking s) (errorMsg s) (isAddModalOpen s) (isSettingsOpen s) v
    (newItemImage s) (draggedItemIndex s) (interval s) (timeouts s)
    (uploads s).

Definition set_newItemImage (v : option string) (s : State) : State :=
  mkState (items s) (geminiKey s) (score s) (gameState s) (catEmotion s)
    (targetItem s) (catChoice s) (catMessage s) (isAiAnalyzing s)
    (isAiTalking s) (errorMsg s) (isAddModalOpen s) (isSettingsOpen s)
    (newItemName s) v (draggedItemIndex s) (interval s) (timeouts s)
    (uploads s).

Definition set_draggedItemIndex (v : option nat) (s : State) : State :=
  mkState (items s) (geminiKey s) (score s) (gameState s) (catEmotion s)
    (targetItem s) (catChoice s) (catMessage s) (isAiAnalyzing s)
    (isAiTalking s) (errorMsg s) (isAddModalOpen s) (isSettingsOpen s)
    (newItemName s) (newItemImage s) v (interval s) (timeouts s) (uploads s).

Definition set_interval (v : option Interval) (s : State) : State :=
  mkState (items s) (geminiKey s) (score s) (gameState s) (catEmotion s)
    (targetItem s) (catChoice s) (catMessage s) (isAiAnalyzing s)
    (isAiTalking s) (errorMsg s) (isAddModalOpen s) (isSettingsOpen s)
    (newItemName s) (newItemImage s) (draggedItemIndex s) v (timeouts s)
    (uploads s).

Definition set_timeouts (v : list Timeout) (s : State) : State :=
  mkState (items s) (geminiKey s) (score s) (gameState s) (catEmotion s)
    (targetItem s) (catChoice s) (catMessage s) (isAiAnalyzing s)
    (isAiTalking s) (errorMsg s) (isAddModalOpen s) (isSettingsOpen s)
    (newItemName s) (newItemImage s) (draggedItemIndex s) (interval s) v
    (uploads s).

Definition set_uploads (v : list Upload) (s : State) : State :=
  mkState (items s) (geminiKey s) (score s) (gameState s) (catEmotion s)
    (targetItem s) (catChoice s) (catMessage s) (isAiAnalyzing s)
    (isAiTalking s) (errorMsg s) (isAddModalOpen s) (isSettingsOpen s)
    (newItemName s) (newItemImage s) (draggedItemIndex s) (interval s)
    (timeouts s) v.

(* ================================================================= *)
(** ** Loading the state at startup *)

Definition MSG_IDLE : string := "人类，快选一个东西让我猜！".
Definition MSG_THINKING : string := "喵呜...让我想想...".
Definition MSG_SUCCESS : string := "猜对了喵！".
Definition MSG_FAIL : string := "没猜中喵...".
Definition MSG_LAST_ITEM : string := "仓库里至少要留一个东西喵！".
Definition MSG_TOO_BIG : string := "图片太大啦！请选择 1MB 以内的图片喵~".
Definition MSG_AI_FAILED : string :=
  "AI 识别失败。请点击右上角设置图标检查 Gemini API Key 喵！".
Definition MSG_UNKNOWN_ERROR : string := "发生了未知错误喵...".
Definition UNKNOWN_ITEM : string := "未知物品".

(** What [localStorage.getItem(key)] does: it throws, or it returns the
    stored string, [null] when there is none. *)
Inductive StorageRead :=
| GetItemThrows
| GetItem (saved : option string).

(** The value the [items] cell starts with: the parsed record, whatever
    it holds, or the built-in list. *)
Inductive InitialItems :=
| FromStorage (parsed : Js.Json)
| BuiltIn (items : list Item).

Section Load.

(** [JSON.parse]: [None] when it throws a [SyntaxError]. *)
Variable JSON_parse : string -> option Js.Json.

(** The initializer of the [items] cell (lines 86-94). *)
Definition items_initializer (read : StorageRead) : InitialItems :=
  match read with
  | GetItemThrows => BuiltIn DEFAULT_ITEMS
  | GetItem saved =>
      match saved with
      | Some text =>
          if Js.truthy text then
            match JSON_parse text with
            | Some parsed => FromStorage parsed
            | None => BuiltIn DEFAULT_ITEMS
            end
          else BuiltIn DEFAULT_ITEMS
      | None => BuiltIn DEFAULT_ITEMS
      end
  end.

End Load.

(** The state after the first render, for an item list and a key read
    from storage. *)
Definition initialState (items : list Item) (geminiKey : string) : State :=
  mkState items geminiKey 0%Z idle neutral None None MSG_IDLE false false
    EmptyString false false EmptyString None None None [] [].

(* ================================================================= *)
(** ** Event handlers *)

Definition is_idle (g : GameState) : bool :=
  match g with idle => true | _ => false end.

Definition is_fail (g : GameState) : bool :=
  match g with fail => true | _ => false end.

Definition handleDragStart (index : nat) (s : State) : State :=
  if negb (is_idle (gameState s)) then s
  else set_draggedItemIndex (Some index) s.

(** Lines 147-149: the dragged item is cut out and put back before
    position [index].  When [draggedItemIndex] is past the end nothing is
    cut out, [draggedItem] is [undefined] and goes into the array: the
    result is no list of items ([None]), and the next render throws at
    [item.id]. *)
Definition reorder (items : list Item) (draggedItemIndex index : nat)
  : option (list Item) :=
  let '(removed, newItems) := Js.splice_remove1 items draggedItemIndex in
  match removed with
  | draggedItem :: _ => Some (Js.splice_insert newItems index draggedItem)
  | [] => None
  end.

Definition handleDragOver (index : nat) (s : State) : option State :=
  match draggedItemIndex s with
  | None => Some s
  | Some dragged =>
      if Nat.eqb dragged index then Some s
      else
        match reorder (items s) dragged index with
        | Some newItems =>
            Some (set_draggedItemIndex (Some index) (set_items newItems s))
        | None => None
        end
  end.

Definition handleDragEnd (s : State) : State :=
  set_draggedItemIndex None s.

Definition handleDeleteItem (itemId : string) (s : State) : State :=
  if negb (is_idle (gameState s)) then s
  else if Nat.leb (length (items s)) 1 then
    set_timeouts (timeouts s ++ [mkTimeout 3000 ClearErrorMsg])
      (set_errorMsg MSG_LAST_ITEM s)
  else
    set_items
      (filter (fun item => negb (String.eqb (id item) itemId)) (items s)) s.

Definition startCatGuessing (userTarget : Item) (s : State) : State :=
  set_interval (Some (mkInterval (items s) userTarget 0))
    (set_isAiTalking true
       (set_catMessage MSG_THINKING
          (set_catChoice None
             (set_catEmotion thinking (set_gameState guessing s))))).

Definition handleItemClick (item : Item) (s : State) : State :=
  if negb (is_idle (gameState s)) then s
  else startCatGuessing item (set_targetItem (Some item) s).

(** [finalizeGuess(userTarget)] with [items] the list its closure holds
    and [r] the value of its [Math.random()].  With no item at the drawn
    index [finalPick.id] throws, after [setCatChoice]. *)
Definition finalizeGuess (items : list Item) (userTarget : Item) (r : Q)
    (s : State) : State :=
  let finalPick := Js.index items (Js.floor_times r (length items)) in
  let s1 := set_catChoice finalPick s in
  match finalPick with
  | None => s1
  | Some pick =>
      if String.eqb (id pick) (id userTarget) then
        set_timeouts (timeouts s1 ++ [mkTimeout 3000 ReturnToIdle])
          (set_catMessage MSG_SUCCESS
             (set_score (score s1 + 1)%Z
                (set_catEmotion happy (set_gameState success s1))))
      else
        set_catMessage MSG_FAIL
          (set_catEmotion sad (set_gameState fail s1))
  end.

(** One run of the interval callback (lines 182-189): [r] is the value of
    its [Math.random()], [rFinal] the one [finalizeGuess] draws if this is
    the twelfth run.  With no item at the drawn index [chosen.id] throws
    before the counter moves. *)
Definition tick (r rFinal : Q) (s : State) : State :=
  match interval s with
  | None => s
  | Some iv =>
      let chosen :=
        Js.index (iv_items iv)
          (Js.floor_times r (length (iv_items iv))) in
      let s1 := set_catChoice chosen s in
      match chosen with
      | None => s1
      | Some _ =>
          let ticks := S (iv_ticks iv) in
          if Nat.leb 12 ticks then
            finalizeGuess (iv_items iv) (iv_target iv) rFinal
              (set_interval None s1)
          else
            set_interval
              (Some (mkInterval (iv_items iv) (iv_target iv) ticks)) s1
      end
  end.

Definition run_callback (cb : Callback) (s : State) : State :=
  match cb with
  | ReturnToIdle =>
      set_isAiTalking false
        (set_catMessage MSG_IDLE
           (set_catEmotion neutral (set_gameState idle s)))
  | ClearErrorMsg => set_errorMsg EmptyString s
  end.

(** The two buttons of the [fail] state (lines 328 and 331). *)
Definition retry (s : State) : State :=
  match targetItem s with
  | Some target => startCatGuessing target s
  | None => s
  end.

Definition chooseAnother (s : State) : State :=
  set_isAiTalking false (set_catEmotion neutral (set_gameState idle s)).

(** [saveNewItem()], with [now] the value of [Date.now()]. *)
Definition saveNewItem (now : Z) (s : State) : State :=
  match newItemImage s with
  | Some newImage =>
      if Js.truthy (newItemName s) && Js.truthy newImage then
        set_newItemImage None
          (set_newItemName EmptyString
             (set_isAddModalOpen false
                (set_items
                   (items s ++
                    [mkItem (Js.number_toString now) (newItemName s)
                       newImage]) s)))
      else s
  | None => s
  end.

(** [handleFileChange] and what follows it.  [file] is the size in bytes
    of the chosen file, [None] when no file was chosen. *)
Definition handleFileChange (file : option Z) (s : State) : State :=
  match file with
  | None => s
  | Some size =>
      if (size >? MAX_UPLOAD_SIZE)%Z then set_errorMsg MSG_TOO_BIG s
      else
        set_uploads (uploads s ++ [Reading (geminiKey s)])
          (set_errorMsg EmptyString s)
  end.

(** [reader.onloadend] up to the first [await]. *)
Definition reader_onloadend (s : State) : State :=
  set_isAiAnalyzing true s.

(** After [await compressImage(result)]. *)
Definition after_compress (compressed : string) (s : State) : State :=
  set_newItemImage (Some compressed) s.

(** After [await analyzeImage(compressed, geminiKey)]: the rest of the
    [try], the [catch] and the [finally] (lines 233-244).  A platform error
    carries a message of its own, none of the two compared with. *)
Definition after_analyze (result : Recognition.Outcome) (s : State) : State :=
  set_isAiAnalyzing false
    match result with
    | Recognition.Returns name => set_newItemName name s
    | Recognition.Throws err =>
        set_newItemName UNKNOWN_ITEM
          match err with
          | Recognition.Error message =>
              if String.eqb message "MISSING_KEY"
                 || String.eqb message "API_ERROR"
              then set_isSettingsOpen true (set_errorMsg MSG_AI_FAILED s)
              else set_errorMsg MSG_UNKNOWN_ERROR s
          | _ => set_errorMsg MSG_UNKNOWN_ERROR s
          end
    end.

(* ================================================================= *)
(** ** The component as a transition system *)

(** What can happen to the mounted component: the user acts on an element
    the render offers, or something the component started comes back.
    Indices are positions in the rendered item list; [now], [r], [rFinal],
    [compressed] and [fetch] are what the platform hands in.  An open
    dialog covers the page; the model does not take the elements under it
    away, and pending timeouts may fire in any order. *)
Inductive Event :=
| ItemClick (index : nat)
| DeleteClick (index : nat)
| DragStart (index : nat)
| DragOver (index : nat)
| DragEnd
| RetryClick
| ChooseAnotherClick
| OpenAddModal
| CloseAddModal
| OpenSettings
| CloseSettings
| KeyInput (value : string)
| NameInput (value : string)
| FileChange (file : option Z)
| SaveClick (now : Z)
| IntervalFires (r rFinal : Q)
| TimeoutFires (k : nat)
| ReaderLoaded (k : nat)
| ImageCompressed (k : nat) (compressed : string)
| AnalysisSettled (k : nat)
    (fetch : Recognition.Request -> Recognition.FetchResult).

Definition remove_nth {A : Type} (k : nat) (l : list A) : list A :=
  firstn k l ++ skipn (S k) l.

Definition replace_nth {A : Type} (k : nat) (x : A) (l : list A) : list A :=
  firstn k l ++ x :: skipn (S k) l.

(** The submit button of the add dialog is disabled (line 468). *)
Definition save_disabled (s : State) : bool :=
  negb (Js.truthy (newItemName s))
  || match newItemImage s with
     | Some image => negb (Js.truthy image)
     | None => true
     end
  || isAiAnalyzing s.

(** One event.  [None]: the render does not offer the element (the delete
    button and dragging exist only in [idle], the two buttons of the fail
    state only in [fail], the dialogs' controls only while the dialog is
    open), nothing of that kind is pending, or the next render throws. *)
Definition step (s : State) (e : Event) : option State :=
  match e with
  | ItemClick i =>
      match nth_error (items s) i with
      | Some item => Some (handleItemClick item s)
      | None => None
      end
  | DeleteClick i =>
      if is_idle (gameState s) then
        match nth_error (items s) i with
        | Some item => Some (handleDeleteItem (id item) s)
        | None => None
        end
      else None
  | DragStart i =>
      if is_idle (gameState s) && Nat.ltb i (length (items s))
      then Some (handleDragStart i s) else None
  | DragOver i =>
      if Nat.ltb i (length (items s)) then handleDragOver i s else None
  | DragEnd => Some (handleDragEnd s)
  | RetryClick =>
      if is_fail (gameState s) then Some (retry s) else None
  | ChooseAnotherClick =>
      if is_fail (gameState s) then Some (chooseAnother s) else None
  | OpenAddModal => Some (set_isAddModalOpen true s)
  | CloseAddModal =>
      if isAddModalOpen s
      then Some (set_errorMsg EmptyString (set_isAddModalOpen false s))
      else None
  | OpenSettings => Some (set_isSettingsOpen true s)
  | CloseSettings =>
      if isSettingsOpen s then Some (set_isSettingsOpen false s) else None
  | KeyInput value =>
      if isSettingsOpen s then Some (set_geminiKey value s) else None
  | NameInput value =>
      if isAddModalOpen s then Some (set_newItemName value s) else None
  | FileChange file =>
      if isAddModalOpen s && negb (isAiAnalyzing s)
      then Some (handleFileChange file s) else None
  | SaveClick now =>
      if isAddModalOpen s && negb (save_disabled s)
      then Some (saveNewItem now s) else None
  | IntervalFires r rFinal =>
      match interval s with
      | Some _ =>
          if Js.is_random r && Js.is_random rFinal
          then Some (tick r rFinal s) else None
      | None => None
      end
  | TimeoutFires k =>
      match nth_error (timeouts s) k with
      | Some t =>
          Some (run_callback (callback t)
                  (set_timeouts (remove_nth k (timeouts s)) s))
      | None => None
      end
  | ReaderLoaded k =>
      match nth_error (uploads s) k with
      | Some (Reading key) =>
          Some (reader_onloadend
                  (set_uploads (replace_nth k (Compressing key) (uploads s))
                     s))
      | _ => None
      end
  | ImageCompressed k compressed =>
      match nth_error (uploads s) k with
      | Some (Compressing key) =>
          Some (after_compress compressed
                  (set_uploads
                     (replace_nth k (Analyzing key compressed) (uploads s))
                     s))
      | _ => None
      end
  | AnalysisSettled k fetch =>
      match nth_error (uploads s) k with
      | Some (Analyzing key compressed) =>
          Some (after_analyze
                  (snd (Recognition.analyzeImage compressed key fetch))
                  (set_uploads (remove_nth k (uploads s)) s))
      | _ => None
      end
  end.

Fixpoint run (s : State) (events : list Event) : option State :=
  match events with
  | [] => Some s
  | e :: rest =>
      match step s e with
      | Some s' => run s' rest
      | None => None
      end
  end.

(** The states the mounted component can be in. *)
Definition reachable (s : State) : Prop :=
  exists items key events, run (initialState items key) events = Some s.

(* ================================================================= *)
(** ** Vocabulary of the properties *)

Definition ids (l : list Item) : list string := map id l.

(** [k / n] as a rational. *)
Definition frac (k n : nat) : Q := Qmake (Z.of_nat k) (Pos.of_nat n).

(** [l1] is [l2] with some elements left out, the others in their order. *)
Inductive Subsequence {A : Type} : list A -> list A -> Prop :=
| sub_nil : Subsequence [] []
| sub_skip : forall x l1 l2, Subsequence l1 l2 -> Subsequence l1 (x :: l2)
| sub_keep : forall x l1 l2,
    Subsequence l1 l2 -> Subsequence (x :: l1) (x :: l2).

Definition Item_eq_dec (a b : Item) : {a = b} + {a <> b}.
Proof. decide equality; apply string_dec. Defined.

(** Along the trace, every [Date.now()] read by [saveNewItem] has a
    decimal form that is not the id of an item held at that moment. *)
Fixpoint fresh_clock (s : State) (events : list Event) : Prop :=
  match events with
  | [] => True
  | e :: rest =>
      match e with
      | SaveClick now => ~ In (Js.number_toString now) (ids (items s))
      | _ => True
      end
      /\ match step s e with
         | Some s' => fresh_clock s' rest
         | None => True
         end
  end.

(** The interval callback run once per draw of [draws]. *)
Fixpoint ticks (draws : list Q) (rFinal : Q) (s : State) : State :=
  match draws with
  | [] => s
  | r :: rest => ticks rest rFinal (tick r rFinal s)
  end.


(** A drag gesture: it starts on the item at [from], passes over the
    items at the positions [overs], and ends. *)
Definition gesture (move : nat * list nat) : list Event :=
  DragStart (fst move) :: map DragOver (snd move) ++ [DragEnd].

(** The positions of a gesture are positions of a list of [n] items. *)
Definition gesture_in_range (n : nat) (move : nat * list nat) : Prop :=
  fst move < n /\ Forall (fun i => i < n) (snd move).

(** The number of pending timeouts that return the game to [idle]. *)
Definition pending_returns (l : list Timeout) : nat :=
  length
    (filter (fun t => match callback t with
                      | ReturnToIdle => true
                      | ClearErrorMsg => false
                      end) l).

(** What holds of the game cells in every state the component reaches. *)
Definition game_invariant (s : State) : Prop :=
  (interval s <> None -> gameState s = guessing)
  /\ pending_returns (timeouts s)
     = (match gameState s with success => 1 | _ => 0 end)
  /\ (gameState s <> idle -> targetItem s <> None).

(** Where the response body holds the label. *)
Definition LABEL_PATH : list Js.Key :=
  [Js.Named "candidates"; Js.Index0; Js.Named "content"; Js.Named "parts";
   Js.Index0; Js.Named "text"].

(** The value found by following [path] from [v], [undefined] as soon as
    a step has nothing to read from. *)
Fixpoint follow (path : list Js.Key) (v : Js.Value) : Js.Value :=
  match path with
  | [] => v
  | k :: rest =>
      match v with
      | Some j => follow rest (Js.get j k)
      | None => None
      end
  end.

(** The index of the dragged item, when there is one, is a position of
    the list. *)
Definition dragged_ok (s : State) : Prop :=
  match draggedItemIndex s with
  | Some d => d < length (items s)
  | None => True
  end.


(** The cells the game and the repository live in. *)
Definition frame (s : State)
  : list Item * GameState * option Item * option Interval * list Timeout * Z :=
  (items s, gameState s, targetItem s, interval s, timeouts s, score s).

(** The events that touch none of them. *)
Definition quiet (e : Event) : bool :=
  match e with
  | ItemClick _ | DeleteClick _ | DragOver _ | RetryClick
  | ChooseAnotherClick | SaveClick _ | IntervalFires _ _
  | TimeoutFires _ => false
  | _ => true
  end.

(** The repository holds an item and no id twice. *)
Definition store_ok (s : State) : Prop :=
  items s <> [] /\ NoDup (ids (items s)).

(** The body holds no label: nothing, [null], or a string of whitespace
    only at [LABEL_PATH]. *)
Definition no_label (body : Js.Json) : Prop :=
  match follow LABEL_PATH (Some body) with
  | None | Some Js.JNull => True
  | Some (Js.JString s) => Js.trim s = EmptyString
  | Some _ => False
  end.

(** A body of the shape the service answers with:
    [{candidates: [{content: {parts: [{text: t}]}}]}]. *)
Definition body_with_text (t : Js.Json) : Js.Json :=
  Js.JObject
    [("candidates",
      Js.JArray
        [Js.JObject
           [("content",
             Js.JObject
               [("parts", Js.JArray [Js.JObject [("text", t)]])])]])].

(* ================================================================= *)
(** ** Concrete inputs *)

Definition item_a : Item := mkItem "a" "A" "data:,a".
Definition item_b : Item := mkItem "b" "B" "data:,b".

(** A fresh install, and a repository of two items [A] and [B]. *)
Definition fresh_install : State := initialState DEFAULT_ITEMS EmptyString.
Definition two_items : State := initialState [item_a; item_b] EmptyString.

Definition half : Q := (1 # 2)%Q.
Definition quarter : Q := (1 # 4)%Q.

(** The item at [index] is clicked and the interval fires twelve times,
    every draw being [r]. *)
Definition guess_events (index : nat) (r : Q) : list Event :=
  ItemClick index :: repeat (IntervalFires r r) 12.

Definition jpeg : string := "data:image/jpeg;base64,AAAA".

(** An image is uploaded in the add dialog with no key configured: the
    recognition fails, the name falls back, the settings dialog opens and
    is closed again. *)
Definition upload_events : list Event :=
  [OpenAddModal; FileChange (Some 2048%Z); ReaderLoaded 0;
   ImageCompressed 0 jpeg;
   AnalysisSettled 0 (fun _ => Recognition.Rejected); CloseSettings].

(** Two items are added at one clock value, then the first three items
    are deleted one by one. *)
Definition colliding_adds : list Event :=
  upload_events ++ [SaveClick 1700000000000%Z] ++ upload_events
  ++ [SaveClick 1700000000000%Z]
  ++ [DeleteClick 0; DeleteClick 0; DeleteClick 0].

(** The same with two clock values. *)
Definition distinct_adds : list Event :=
  upload_events ++ [SaveClick 1700000000000%Z] ++ upload_events
  ++ [SaveClick 1700000000001%Z]
  ++ [DeleteClick 0; DeleteClick 0; DeleteClick 0].

(** Two items are added at one clock value. *)
Definition colliding_saves : list Event :=
  upload_events ++ [SaveClick 1700000000000%Z] ++ upload_events
  ++ [SaveClick 1700000000000%Z].




(** A parser that knows one text. *)
Definition parse_only_empty_array (text : string) : option Js.Json :=
  if String.eqb text "[]" then Some (Js.JArray []) else None.

(* ================================================================= *)
(** ** Vocabulary of the further properties *)

(** What holds of a guess in every state the component reaches: outside
    [idle] the selected target is an item of the repository; a running
    interval guesses for the selected target, over a list that holds it,
    whose items are all in the repository, and has run fewer than twelve
    times. *)
Definition guess_invariant (s : State) : Prop :=
  (gameState s <> idle ->
   exists target, targetItem s = Some target /\ In target (items s))
  /\ (forall iv,
         interval s = Some iv ->
         targetItem s = Some (iv_target iv)
         /\ In (iv_target iv) (iv_items iv)
         /\ incl (iv_items iv) (items s)
         /\ iv_ticks iv < 12).

(** The moves of the game state that the component makes. *)
Definition transition (a b : GameState) : bool :=
  match a, b with
  | idle, guessing | guessing, success | guessing, fail
  | success, idle | fail, guessing | fail, idle => true
  | _, _ => false
  end.

(** The clock values read by the adds of a trace. *)
Fixpoint clock_values (events : list Event) : list Z :=
  match events with
  | [] => []
  | SaveClick now :: rest => now :: clock_values rest
  | _ :: rest => clock_values rest
  end.

(** An upload that is past the reading of its file. *)
Definition past_reading (u : Upload) : bool :=
  match u with
  | Reading _ => false
  | Compressing _ | Analyzing _ _ => true
  end.

(** The string holds no comma. *)
Fixpoint no_comma (s : string) : bool :=
  match s with
  | EmptyString => true
  | String c r => negb (Ascii.eqb c ","%char) && no_comma r
  end.

(** The request [analyzeImage] sends for an image and a key. *)
Definition request_for (base64Image apiKey : string) : Recognition.Request :=
  Recognition.mkRequest (Recognition.ENDPOINT ++ apiKey)
    Recognition.INSTRUCTION "image/jpeg"
    (nth_error (Js.split_comma base64Image) 1).

(** The add dialog after a recognition that failed for the key or the
    service: the settings dialog is open, with the message that points to
    it. *)
Definition points_to_settings (s s' : State) : Prop :=
  newItemName s' = UNKNOWN_ITEM /\ errorMsg s' = MSG_AI_FAILED
  /\ isSettingsOpen s' = true.

(** ... and after any other failure. *)
Definition reports_unknown_error (s s' : State) : Prop :=
  newItemName s' = UNKNOWN_ITEM /\ errorMsg s' = MSG_UNKNOWN_ERROR
  /\ isSettingsOpen s' = isSettingsOpen s.

(* ================================================================= *)
(** ** Vocabulary of the arithmetic *)

(** The value is a whole number of units of its own exponent: it is a
    double. *)
Definition on_grid (b : Q) : Prop :=
  exists m : Z, (b == inject_Z m * 2 ^ Double.ulp_exp b)%Q.

(** The two values are within two roundings of each other. *)
Definition within_two_roundings (a b : Q) : Prop :=
  (a * ((1 - Double.eps) * (1 - Double.eps))
   <= b * ((1 + Double.eps) * (1 + Double.eps))
   /\ b * ((1 - Double.eps) * (1 - Double.eps))
      <= a * ((1 + Double.eps) * (1 + Double.eps)))%Q.

(** The value of a finite binary64 number of the Standard Library. *)
Definition binary64_value (f : spec_float) : option Q :=
  match f with
  | S754_zero _ => Some 0%Q
  | S754_finite s m e =>
      Some (Qred ((if s then -1 else 1) * inject_Z (Zpos m) * 2 ^ e)%Q)
  | _ => None
  end.

(** A whole number, a quotient and a product as binary64 numbers of the
    Standard Library. *)
Definition binary64_of_Z (n : Z) : spec_float :=
  binary_normalize 53 1024 n 0 false.
Definition binary64_div (x y : spec_float) : spec_float := SFdiv 53 1024 x y.
Definition binary64_mul (x y : spec_float) : spec_float := SFmul 53 1024 x y.

(** The side [x * (m / d)] of a scaled image, in binary64 and in the
    doubles of this file. *)
Definition binary64_side (x m d : Z) : spec_float :=
  binary64_mul (binary64_of_Z x)
    (binary64_div (binary64_of_Z m) (binary64_of_Z d)).

Definition double_side (x m d : Z) : Q :=
  Double.mul (inject_Z x) (Double.div (inject_Z m) (inject_Z d)).

(** The double below one third, [0x1.5555555555555p-2]. *)
Definition third_below : Q := (6004799503160661 # 18014398509481984)%Q.

(** [Math.floor(r * n)] as the code computes it (lines 182, 195): the
    product is rounded to a double before the floor. *)
Definition floor_times_double (r : Q) (n : nat) : Z :=
  Qfloor (Double.mul r (inject_Z (Z.of_nat n))).

(* ================================================================= *)
(** * Properties *)

(** ** Drawing an index *)

Section Draws.

Local Open Scope Z_scope.

Lemma is_random_spec (r : Q) :
  Js.is_random r = true <-> (0 <= r /\ r < 1)%Q.
Proof.
  unfold Js.is_random. rewrite andb_true_iff, negb_true_iff.
  rewrite Qle_bool_iff. split.
  - intros [H0 H1]. split; [exact H0|].
    apply Qnot_le_lt. intro H. apply Qle_bool_iff in H. congruence.
  - intros [H0 H1]. split; [exact H0|].
    destruct (Qle_bool 1 r) eqn:E; [|reflexivity].
    apply Qle_bool_iff in E. exfalso. exact (Qlt_not_le _ _ H1 E).
Qed.

Lemma Zpos_of_nat (n : nat) : (0 < n)%nat -> Zpos (Pos.of_nat n) = Z.of_nat n.
Proof.
  intros H. destruct n as [|m]; [lia|].
  rewrite <- Pos.of_nat_succ. lia.
Qed.

(** [Math.floor(r * n)] is [k] exactly for [k/n <= r < (k+1)/n]. *)
Lemma floor_times_spec (r : Q) (n k : nat) :
  (0 < n)%nat ->
  Js.floor_times r n = Z.of_nat k
  <-> (frac k n <= r /\ r < frac (S k) n)%Q.
Proof.
  intros Hn. unfold Js.floor_times, frac, Qle, Qlt.
  destruct r as [a b]. cbn [Qmult Qfloor Qnum Qden inject_Z].
  rewrite (Zpos_of_nat n Hn).
  replace (Zpos (b * 1)) with (Zpos b) by lia.
  set (N := Z.of_nat n). set (B := Zpos b).
  assert (HB : 0 < B) by (unfold B; lia).
  assert (HN : 0 < N) by (unfold N; lia).
  replace (Z.of_nat (S k)) with (Z.of_nat k + 1) by lia.
  set (K := Z.of_nat k).
  pose proof (Z.div_mod (a * N) B ltac:(lia)) as Hdm.
  pose proof (Z.mod_pos_bound (a * N) B HB) as Hmod.
  split.
  - intros H. rewrite H in Hdm. nia.
  - intros [H1 H2]. symmetry. apply (Z.div_unique_pos _ _ _ (a * N - B * K)); nia.
Qed.

(** For a value of [Math.random()] the drawn index is one of the array. *)
Lemma floor_times_range (r : Q) (n : nat) :
  Js.is_random r = true -> (0 < n)%nat ->
  0 <= Js.floor_times r n < Z.of_nat n.
Proof.
  intros Hr Hn. apply is_random_spec in Hr. destruct Hr as [H0 H1].
  unfold Js.floor_times, Qle, Qlt in *.
  destruct r as [a b]. cbn [Qmult Qfloor Qnum Qden inject_Z] in *.
  replace (Zpos (b * 1)) with (Zpos b) by lia.
  assert (Ha : 0 <= a) by lia.
  assert (Hb : a < Zpos b) by lia.
  split.
  - apply Z.div_pos; nia.
  - apply Z.div_lt_upper_bound; nia.
Qed.

Lemma index_draw {A : Type} (l : list A) (r : Q) :
  Js.is_random r = true -> l <> [] ->
  exists k x,
    (k < length l)%nat /\ nth_error l k = Some x
    /\ Js.floor_times r (length l) = Z.of_nat k
    /\ Js.index l (Js.floor_times r (length l)) = Some x.
Proof.
  intros Hr Hl.
  assert (Hn : (0 < length l)%nat) by (destruct l; [congruence | simpl; lia]).
  pose proof (floor_times_range r (length l) Hr Hn) as [H0 H1].
  set (z := Js.floor_times r (length l)) in *.
  assert (Hk : (Z.to_nat z < length l)%nat) by lia.
  destruct (nth_error l (Z.to_nat z)) as [x|] eqn:E.
  - exists (Z.to_nat z), x. repeat split; try assumption; try lia.
    unfold Js.index. destruct (z <? 0) eqn:Ez; [lia | exact E].
  - apply nth_error_None in E. lia.
Qed.

End Draws.

(* ================================================================= *)
(** ** Reordering *)

Section Reorder.

Context {A : Type}.

Lemma nth_error_cut (l : list A) (n : nat) (x : A) :
  nth_error l n = Some x ->
  firstn n l ++ x :: skipn (S n) l = l /\ skipn n l = x :: skipn (S n) l.
Proof.
  revert l. induction n as [|n IH]; intros [|y l] H; simpl in *;
    try discriminate.
  - injection H as ->. split; reflexivity.
  - destruct (IH l H) as [E1 E2]. split; [now rewrite E1 | exact E2].
Qed.

Lemma remove_nth_length (l : list A) (n : nat) :
  n < length l -> S (length (remove_nth n l)) = length l.
Proof.
  intros H. unfold remove_nth.
  rewrite length_app, firstn_length_le, length_skipn by lia. lia.
Qed.

Lemma splice_insert_perm (l : list A) (n : nat) (x : A) :
  Permutation (x :: l) (Js.splice_insert l n x).
Proof.
  unfold Js.splice_insert.
  rewrite <- (firstn_skipn n l) at 1. apply Permutation_middle.
Qed.

Lemma splice_insert_nth (l : list A) (n : nat) (x : A) :
  n <= length l -> nth_error (Js.splice_insert l n x) n = Some x.
Proof.
  intros H. unfold Js.splice_insert.
  rewrite nth_error_app2; rewrite firstn_length_le by lia; [|lia].
  now rewrite Nat.sub_diag.
Qed.

Lemma splice_insert_remove (l : list A) (n : nat) (x : A) :
  n <= length l -> remove_nth n (Js.splice_insert l n x) = l.
Proof.
  intros H. unfold remove_nth, Js.splice_insert.
  assert (L : length (firstn n l) = n) by (apply firstn_length_le; lia).
  rewrite firstn_app, L, Nat.sub_diag, firstn_O, app_nil_r.
  rewrite firstn_all2 by lia.
  rewrite skipn_app, L.
  replace (S n - n) with 1 by lia.
  rewrite skipn_all2 by lia. simpl. apply firstn_skipn.
Qed.

Lemma splice_remove1_spec (l : list A) (n : nat) (x : A) :
  nth_error l n = Some x ->
  Js.splice_remove1 l n = ([x], remove_nth n l).
Proof.
  intros H. unfold Js.splice_remove1, remove_nth.
  destruct (nth_error_cut l n x H) as [_ ->]. reflexivity.
Qed.

Lemma remove_nth_perm (l : list A) (n : nat) (x : A) :
  nth_error l n = Some x -> Permutation l (x :: remove_nth n l).
Proof.
  intros H. destruct (nth_error_cut l n x H) as [E _].
  rewrite <- E at 1. symmetry. apply Permutation_middle.
Qed.

End Reorder.

(** What one call of lines 147-149 does to an item list when both
    positions are positions of the list. *)
Lemma reorder_spec (l : list Item) (from to : nat) :
  from < length l -> to < length l ->
  exists l',
    reorder l from to = Some l'
    /\ Permutation l l'
    /\ nth_error l' to = nth_error l from
    /\ remove_nth to l' = remove_nth from l.
Proof.
  intros Hf Ht.
  destruct (nth_error l from) as [x|] eqn:E;
    [|apply nth_error_None in E; lia].
  pose proof (remove_nth_length l from Hf) as HL.
  exists (Js.splice_insert (remove_nth from l) to x).
  unfold reorder. rewrite (splice_remove1_spec l from x E).
  repeat split.
  - etransitivity; [apply (remove_nth_perm l from x E)|].
    apply splice_insert_perm.
  - apply splice_insert_nth. lia.
  - apply splice_insert_remove. lia.
Qed.

Lemma dragOver_perm (s : State) (i : nat) :
  dragged_ok s -> i < length (items s) ->
  exists s',
    handleDragOver i s = Some s'
    /\ Permutation (items s) (items s')
    /\ dragged_ok s'
    /\ gameState s' = gameState s.
Proof.
  intros Hd Hi. unfold handleDragOver, dragged_ok in *.
  destruct (draggedItemIndex s) as [d|] eqn:Ed.
  - destruct (Nat.eqb d i) eqn:Edi.
    + exists s. rewrite Ed. auto.
    + destruct (reorder_spec (items s) d i Hd Hi) as (l' & -> & HP & _).
      eexists. split; [reflexivity|]. simpl. repeat split; auto.
      rewrite <- (Permutation_length HP). exact Hi.
  - exists s. rewrite Ed. auto.
Qed.

Lemma drag_overs_perm (overs : list nat) :
  forall s,
    dragged_ok s -> Forall (fun i => i < length (items s)) overs ->
    exists s',
      run s (map DragOver overs ++ [DragEnd]) = Some s'
      /\ Permutation (items s) (items s')
      /\ gameState s' = gameState s.
Proof.
  induction overs as [|i overs IH]; intros s Hd Hf.
  - simpl. eexists. split; [reflexivity|]. simpl. auto.
  - inversion Hf as [|? ? Hi Hf']; subst.
    destruct (dragOver_perm s i Hd Hi) as (s1 & E1 & P1 & D1 & G1).
    destruct (IH s1 D1) as (s2 & E2 & P2 & G2).
    { rewrite <- (Permutation_length P1). exact Hf'. }
    exists s2. simpl.
    apply Nat.ltb_lt in Hi. rewrite Hi, E1.
    repeat split; [exact E2 | etransitivity; eassumption | congruence].
Qed.

Lemma gesture_perm (s : State) (move : nat * list nat) :
  gameState s = idle -> gesture_in_range (length (items s)) move ->
  exists s',
    run s (gesture move) = Some s'
    /\ Permutation (items s) (items s')
    /\ gameState s' = idle.
Proof.
  intros Hidle [Hfrom Hovers]. unfold gesture.
  cbn [run step]. rewrite Hidle. cbn [is_idle andb].
  apply Nat.ltb_lt in Hfrom. rewrite Hfrom.
  unfold handleDragStart. rewrite Hidle. cbn [is_idle negb].
  destruct (drag_overs_perm (snd move)
              (set_draggedItemIndex (Some (fst move)) s))
    as (s' & E & P & G).
  - unfold dragged_ok. simpl. apply Nat.ltb_lt. exact Hfrom.
  - exact Hovers.
  - exists s'. repeat split; [exact E | exact P | ].
    rewrite G. exact Hidle.
Qed.

Lemma run_app (s : State) (e1 e2 : list Event) :
  run s (e1 ++ e2)
  = match run s e1 with Some s' => run s' e2 | None => None end.
Proof.
  revert s. induction e1 as [|e e1 IH]; intros s; simpl; [reflexivity|].
  destruct (step s e); [apply IH | reflexivity].
Qed.

Lemma gestures_perm (moves : list (nat * list nat)) :
  forall s,
    gameState s = idle ->
    Forall (gesture_in_range (length (items s))) moves ->
    exists s',
      run s (flat_map gesture moves) = Some s'
      /\ Permutation (items s) (items s').
Proof.
  induction moves as [|m moves IH]; intros s Hidle Hf.
  - exists s. simpl. auto.
  - inversion Hf as [|? ? Hm Hf']; subst.
    destruct (gesture_perm s m Hidle Hm) as (s1 & E1 & P1 & G1).
    destruct (IH s1 G1) as (s2 & E2 & P2).
    { rewrite <- (Permutation_length P1). exact Hf'. }
    exists s2. cbn [flat_map]. rewrite run_app, E1.
    split; [exact E2 | etransitivity; eassumption].
Qed.

(** C7: one reorder on positions of the list, and any sequence of drag
    gestures on such positions, permutes the item list: the ids are the
    same multiset, the moved item stands at the destination, and the list
    of the other items is unchanged. *)
Theorem reorder_is_permutation :
  (forall (l : list Item) (from to : nat),
      from < length l -> to < length l ->
      exists l',
        reorder l from to = Some l'
        /\ Permutation l l'
        /\ Permutation (ids l) (ids l')
        /\ nth_error l' to = nth_error l from
        /\ remove_nth to l' = remove_nth from l)
  /\ (forall (s : State) (from to : nat),
         draggedItemIndex s = Some from ->
         from < length (items s) -> to < length (items s) ->
         exists s',
           handleDragOver to s = Some s'
           /\ Permutation (ids (items s)) (ids (items s'))
           /\ nth_error (items s') to = nth_error (items s) from
           /\ remove_nth to (items s') = remove_nth from (items s))
  /\ (forall (s : State) (moves : list (nat * list nat)),
         gameState s = idle ->
         Forall (gesture_in_range (length (items s))) moves ->
         exists s',
           run s (flat_map gesture moves) = Some s'
           /\ Permutation (items s) (items s')
           /\ Permutation (ids (items s)) (ids (items s'))).
Proof.
  split; [|split].
  - intros l from to Hf Ht.
    destruct (reorder_spec l from to Hf Ht) as (l' & E & P & N & R).
    exists l'. repeat split; auto. apply Permutation_map. exact P.
  - intros s from to Hd Hf Ht. unfold handleDragOver. rewrite Hd.
    destruct (Nat.eqb from to) eqn:E.
    + apply Nat.eqb_eq in E. subst to. exists s. auto.
    + destruct (reorder_spec (items s) from to Hf Ht)
        as (l' & -> & P & N & R).
      eexists. split; [reflexivity|]. simpl.
      repeat split; auto. apply Permutation_map. exact P.
  - intros s moves Hidle Hf.
    destruct (gestures_perm moves s Hidle Hf) as (s' & E & P).
    exists s'. repeat split; auto. apply Permutation_map. exact P.
Qed.

(* ================================================================= *)
(** ** Deleting *)

Lemma filter_subsequence {A : Type} (p : A -> bool) (l : list A) :
  Subsequence (filter p l) l.
Proof.
  induction l as [|x l IH]; simpl; [constructor|].
  destruct (p x); constructor; exact IH.
Qed.

Lemma filter_count_occ (p : Item -> bool) (l : list Item) (x : Item) :
  p x = true ->
  count_occ Item_eq_dec (filter p l) x = count_occ Item_eq_dec l x.
Proof.
  intros Hx. induction l as [|y l IH]; simpl; [reflexivity|].
  destruct (p y) eqn:Ey; simpl; destruct (Item_eq_dec y x) as [->|Hne];
    try congruence.
Qed.

(** C10: a delete that goes through (idle, at least two items) removes
    exactly the items with the given id; the others stay as they are and
    in their order, and no other cell of the state changes. *)
Theorem delete_removes_only_that_id :
  forall (s : State) (itemId : string),
    gameState s = idle -> 2 <= length (items s) ->
    let s' := handleDeleteItem itemId s in
    (forall item,
        In item (items s') <-> In item (items s) /\ id item <> itemId)
    /\ Subsequence (items s') (items s)
    /\ (forall item,
           id item <> itemId ->
           count_occ Item_eq_dec (items s') item
           = count_occ Item_eq_dec (items s) item)
    /\ s' = set_items (items s') s
    /\ score s' = score s
    /\ gameState s' = gameState s
    /\ targetItem s' = targetItem s.
Proof.
  intros s itemId Hidle Hlen. unfold handleDeleteItem.
  rewrite Hidle. cbn [is_idle negb].
  destruct (Nat.leb (length (items s)) 1) eqn:E;
    [apply Nat.leb_le in E; lia|].
  cbn zeta. cbn [items set_items score gameState targetItem].
  split; [|split; [|split; [|repeat split; exact Hidle]]].
  - intros item. rewrite filter_In, negb_true_iff, String.eqb_neq.
    reflexivity.
  - apply filter_subsequence.
  - intros item Hne. apply filter_count_occ.
    apply negb_true_iff, String.eqb_neq. exact Hne.
Qed.

(* ================================================================= *)
(** ** Loading *)

(** C9: the item list starts as the built-in two items when the stored
    record is absent (or cannot be read) or does not parse, and as the
    parsed record otherwise. *)
Theorem items_initializer_fallback :
  forall (JSON_parse : string -> option Js.Json),
    JSON_parse EmptyString = None ->
    forall read : StorageRead,
      match read with
      | GetItemThrows | GetItem None =>
          items_initializer JSON_parse read = BuiltIn DEFAULT_ITEMS
      | GetItem (Some text) =>
          match JSON_parse text with
          | None => items_initializer JSON_parse read = BuiltIn DEFAULT_ITEMS
          | Some parsed =>
              items_initializer JSON_parse read = FromStorage parsed
          end
      end
      /\ length DEFAULT_ITEMS = 2
      /\ ids DEFAULT_ITEMS = ["default_1"; "default_2"].
Proof.
  intros parse Hempty read. split; [|split; reflexivity].
  destruct read as [|[text|]]; try reflexivity.
  unfold items_initializer.
  destruct text as [|c text]; cbn [Js.truthy].
  - rewrite Hempty. reflexivity.
  - destruct (parse (String c text)); reflexivity.
Qed.

(* ================================================================= *)
(** ** Rounding to a double *)

Section Rounding.

Import Double.
Local Open Scope Q_scope.

Lemma pow2_pos (k : Z) : 0 < 2 ^ k.
Proof. apply Qpower_0_lt. reflexivity. Qed.

Lemma pow2_add (a b : Z) : 2 ^ (a + b) == 2 ^ a * 2 ^ b.
Proof. apply Qpower_plus. discriminate. Qed.

Lemma pow2_le (a b : Z) : (a <= b)%Z -> 2 ^ a <= 2 ^ b.
Proof. intros H. apply Qpower_le_compat_l; [exact H | discriminate]. Qed.

Lemma pow2_lt (a b : Z) : (a < b)%Z -> 2 ^ a < 2 ^ b.
Proof. intros H. apply Qpower_lt_compat_l; [exact H | reflexivity]. Qed.

Lemma pow2_lt_inv (a b : Z) : 2 ^ a < 2 ^ b -> (a < b)%Z.
Proof. intros H. apply (Qpower_lt_compat_l_inv 2); [exact H | reflexivity]. Qed.

Lemma pow2_Z (n : Z) : (0 <= n)%Z -> inject_Z (2 ^ n) == 2 ^ n.
Proof. intros H. apply (Zpower_Qpower 2 n H). Qed.

(** [2 ^ b] is [2 ^ (b - a)] units of [2 ^ a]. *)
Lemma pow2_split (a b : Z) :
  (a <= b)%Z -> 2 ^ b == inject_Z (2 ^ (b - a)) * 2 ^ a.
Proof.
  intros H. rewrite pow2_Z by lia. rewrite <- pow2_add.
  replace (b - a + a)%Z with b by ring. reflexivity.
Qed.

Lemma log2_bounds (a : Z) :
  (0 < a)%Z -> 2 ^ Z.log2 a <= inject_Z a /\ inject_Z a < 2 ^ (Z.log2 a + 1).
Proof.
  intros H. destruct (Z.log2_spec a H) as [L U].
  pose proof (Z.log2_nonneg a) as N.
  rewrite <- !pow2_Z by lia. rewrite <- Zle_Qle, <- Zlt_Qlt.
  split; [exact L | exact U].
Qed.

Lemma ilog2_spec (x : Q) :
  0 < x -> 2 ^ ilog2 x <= x /\ x < 2 ^ (ilog2 x + 1).
Proof.
  destruct x as [a b]. intros Hx.
  assert (Ha : (0 < a)%Z).
  { unfold Qlt in Hx. cbn in Hx. lia. }
  destruct (log2_bounds a Ha) as [La Ua].
  destruct (log2_bounds (Zpos b) eq_refl) as [Lb Ub].
  pose proof (pow2_pos (Z.log2 (Zpos b))) as Pb.
  unfold ilog2. cbn [Qnum Qden].
  set (la := Z.log2 a) in *. set (lb := Z.log2 (Zpos b)) in *.
  assert (B0 : 0 < inject_Z (Zpos b)) by reflexivity.
  destruct (Qle_bool (2 ^ (la - lb)) (a # b)) eqn:E.
  - apply Qle_bool_iff in E. split; [exact E|].
    rewrite (Qmake_Qdiv a b). apply Qlt_shift_div_r; [exact B0|].
    apply Qlt_le_trans with (2 ^ (la + 1)); [exact Ua|].
    replace (la + 1)%Z with (la - lb + 1 + lb)%Z by ring.
    rewrite pow2_add. apply Qmult_le_l; [apply pow2_pos | exact Lb].
  - assert (E' : a # b < 2 ^ (la - lb)).
    { apply Qnot_le_lt. intros C. apply Qle_bool_iff in C. congruence. }
    replace (la - lb - 1 + 1)%Z with (la - lb)%Z by ring.
    split; [|exact E'].
    rewrite (Qmake_Qdiv a b). apply Qle_shift_div_l; [exact B0|].
    apply Qle_trans with (2 ^ la); [|exact La].
    replace la with (la - lb - 1 + (lb + 1))%Z at 2 by ring.
    rewrite pow2_add. apply Qmult_le_l; [apply pow2_pos|].
    apply Qlt_le_weak. exact Ub.
Qed.

Lemma ilog2_unique (k : Z) (x : Q) :
  2 ^ k <= x -> x < 2 ^ (k + 1) -> ilog2 x = k.
Proof.
  intros L U.
  assert (Hx : 0 < x) by (apply Qlt_le_trans with (2 ^ k); [apply pow2_pos | exact L]).
  destruct (ilog2_spec x Hx) as [L' U'].
  assert (ilog2 x < k + 1)%Z
    by (apply pow2_lt_inv; apply Qle_lt_trans with x; assumption).
  assert (k < ilog2 x + 1)%Z
    by (apply pow2_lt_inv; apply Qle_lt_trans with x; assumption).
  lia.
Qed.

Lemma ilog2_mono (x y : Q) : 0 < x -> x <= y -> (ilog2 x <= ilog2 y)%Z.
Proof.
  intros Hx Hxy.
  assert (Hy : 0 < y) by (apply Qlt_le_trans with x; assumption).
  destruct (ilog2_spec x Hx) as [L _]. destruct (ilog2_spec y Hy) as [_ U].
  assert (ilog2 x < ilog2 y + 1)%Z; [|lia].
  apply pow2_lt_inv. apply Qle_lt_trans with x; [exact L|].
  apply Qle_lt_trans with y; assumption.
Qed.

Lemma ulp_exp_mono (x y : Q) : 0 < x -> x <= y -> (ulp_exp x <= ulp_exp y)%Z.
Proof.
  intros Hx Hxy. pose proof (ilog2_mono x y Hx Hxy). unfold ulp_exp. lia.
Qed.

(** *** Rounding to the nearest whole number, ties to even *)

Lemma rne_floor (x : Q) : rne x = Qfloor x \/ rne x = (Qfloor x + 1)%Z.
Proof.
  unfold rne. destruct (Qcompare _ _); auto. destruct (Z.even _); auto.
Qed.

Lemma rne_bounds (x : Q) :
  inject_Z (rne x) - x <= 1 # 2 /\ x - inject_Z (rne x) <= 1 # 2.
Proof.
  pose proof (Qfloor_le x) as L. pose proof (Qlt_floor x) as U.
  rewrite inject_Z_plus in U. unfold rne.
  destruct (Qcompare_spec (x - inject_Z (Qfloor x)) (1 # 2)) as [E|E|E];
    [destruct (Z.even (Qfloor x))| |];
    rewrite ?inject_Z_plus; change (inject_Z 1) with 1 in *; lra.
Qed.

Lemma rne_Z (x : Q) (z : Z) : x == inject_Z z -> rne x = z.
Proof.
  intros E. unfold rne.
  assert (F : Qfloor x = z) by (rewrite E; apply Qfloor_Z).
  rewrite F.
  destruct (Qcompare_spec (x - inject_Z z) (1 # 2)) as [C|C|C];
    [exfalso; lra | reflexivity | exfalso; lra].
Qed.

Lemma rne_mono (x y : Q) : x <= y -> (rne x <= rne y)%Z.
Proof.
  intros H. pose proof (Qfloor_resp_le x y H) as F.
  destruct (Z.eq_dec (Qfloor x) (Qfloor y)) as [E|N].
  - unfold rne. rewrite E.
    destruct (Qcompare_spec (x - inject_Z (Qfloor y)) (1 # 2)) as [Cx|Cx|Cx];
      destruct (Qcompare_spec (y - inject_Z (Qfloor y)) (1 # 2)) as [Cy|Cy|Cy];
      try (destruct (Z.even (Qfloor y))); try lia; exfalso; lra.
  - destruct (rne_floor x) as [-> | ->], (rne_floor y) as [-> | ->]; lia.
Qed.

(** *** Rounding to the nearest double *)

Lemma round_pos_eq (x : Q) :
  round_pos x == inject_Z (rne (x / 2 ^ ulp_exp x)) * 2 ^ ulp_exp x.
Proof. unfold round_pos. apply Qred_correct. Qed.

Lemma round_positive (x : Q) : 0 < x -> round x = round_pos x.
Proof.
  intros H. unfold round. apply Qgt_alt in H. rewrite H. reflexivity.
Qed.

Lemma is_double_on_grid (b : Q) : 0 < b -> round b == b -> on_grid b.
Proof.
  intros H E. rewrite (round_positive b H), round_pos_eq in E.
  eexists. symmetry. exact E.
Qed.

Lemma div_unit (x : Q) (q : Z) : x / 2 ^ q * 2 ^ q == x.
Proof. field. pose proof (pow2_pos q). lra. Qed.

Lemma on_grid_round (b : Q) : 0 < b -> on_grid b -> round b == b.
Proof.
  intros H [m E]. rewrite (round_positive b H), round_pos_eq.
  rewrite (rne_Z _ m); [symmetry; exact E|].
  apply Qmult_inj_r with (2 ^ ulp_exp b).
  - pose proof (pow2_pos (ulp_exp b)). lra.
  - rewrite div_unit. exact E.
Qed.

(** Rounding does not pass a double: from below ... *)
Lemma round_le (x b : Q) : 0 < x -> x <= b -> on_grid b -> round x <= b.
Proof.
  intros Hx Hxb [m E].
  rewrite (round_positive x Hx), round_pos_eq.
  pose proof (ulp_exp_mono x b Hx Hxb) as Q.
  set (q := ulp_exp x) in *. set (qb := ulp_exp b) in *.
  pose proof (pow2_pos q) as P.
  assert (Eb : b == inject_Z (m * 2 ^ (qb - q)) * 2 ^ q).
  { rewrite E, inject_Z_mult, <- Qmult_assoc, <- (pow2_split q qb Q).
    reflexivity. }
  assert (R : (rne (x / 2 ^ q) <= m * 2 ^ (qb - q))%Z).
  { rewrite <- (rne_Z (b / 2 ^ q) (m * 2 ^ (qb - q))).
    - apply rne_mono. apply Qmult_le_compat_r; [exact Hxb|].
      apply Qlt_le_weak, Qinv_lt_0_compat, P.
    - apply Qmult_inj_r with (2 ^ q); [lra|]. rewrite div_unit. exact Eb. }
  rewrite Eb. apply Qmult_le_compat_r; [|lra].
  rewrite <- Zle_Qle. exact R.
Qed.

(** ... and from above. *)
Lemma round_ge (x b : Q) : 0 < b -> b <= x -> on_grid b -> b <= round x.
Proof.
  intros Hb Hbx [m E].
  assert (Hx : 0 < x) by lra.
  rewrite (round_positive x Hx), round_pos_eq.
  pose proof (ulp_exp_mono b x Hb Hbx) as Q.
  pose proof (pow2_pos (ulp_exp x)) as P.
  destruct (Z.eq_dec (ulp_exp b) (ulp_exp x)) as [Same|Diff].
  - rewrite Same in E. rewrite E at 1.
    apply Qmult_le_compat_r; [|lra]. rewrite <- Zle_Qle.
    rewrite <- (rne_Z (b / 2 ^ ulp_exp x) m).
    + apply rne_mono. apply Qmult_le_compat_r; [exact Hbx|].
      apply Qlt_le_weak, Qinv_lt_0_compat, P.
    + apply Qmult_inj_r with (2 ^ ulp_exp x); [lra|].
      rewrite div_unit. exact E.
  - destruct (ilog2_spec x Hx) as [Lx _].
    destruct (ilog2_spec b Hb) as [_ Ub].
    assert (Hq : ulp_exp x = (ilog2 x - 52)%Z /\ (ilog2 b < ilog2 x)%Z)
      by (unfold ulp_exp in *; lia).
    destruct Hq as [Hq Hlt]. rewrite Hq.
    apply Qle_trans with (2 ^ ilog2 x).
    + apply Qlt_le_weak. apply Qlt_le_trans with (2 ^ (ilog2 b + 1));
        [exact Ub | apply pow2_le; lia].
    + assert (S52 : 2 ^ ilog2 x == inject_Z (2 ^ 52) * 2 ^ (ilog2 x - 52)).
      { rewrite (pow2_split (ilog2 x - 52) (ilog2 x)) by lia.
        replace (ilog2 x - (ilog2 x - 52))%Z with 52%Z by ring.
        reflexivity. }
      rewrite S52 at 1.
      apply Qmult_le_compat_r; [|apply Qlt_le_weak, pow2_pos].
      rewrite <- Zle_Qle.
      rewrite <- (rne_Z (inject_Z (2 ^ 52)) (2 ^ 52)) at 1 by reflexivity.
      apply rne_mono.
      apply Qmult_le_r with (2 ^ (ilog2 x - 52)); [apply pow2_pos|].
      rewrite div_unit, <- S52. exact Lx.
Qed.

(** The error of a rounding is at most half a unit ... *)
Lemma round_error (x : Q) :
  0 < x ->
  round x - x <= 2 ^ ulp_exp x * (1 # 2)
  /\ x - round x <= 2 ^ ulp_exp x * (1 # 2).
Proof.
  intros Hx. rewrite (round_positive x Hx), round_pos_eq.
  pose proof (pow2_pos (ulp_exp x)) as P.
  destruct (rne_bounds (x / 2 ^ ulp_exp x)) as [A B].
  pose proof (div_unit x (ulp_exp x)) as D.
  set (t := x / 2 ^ ulp_exp x) in *. set (p := 2 ^ ulp_exp x) in *.
  set (n := inject_Z (rne t)) in *.
  split; nra.
Qed.

(** ... which for a value of [2 ^ -1022] or more is at most [2 ^ -53]
    of the value. *)
Lemma round_relative (x : Q) :
  2 ^ (-1022) <= x ->
  x * (1 - eps) <= round x /\ round x <= x * (1 + eps).
Proof.
  intros Hn.
  assert (Hx : 0 < x)
    by (apply Qlt_le_trans with (2 ^ (-1022)); [apply pow2_pos | exact Hn]).
  destruct (round_error x Hx) as [A B].
  destruct (ilog2_spec x Hx) as [L U].
  assert (He : (-1022 <= ilog2 x)%Z).
  { assert (-1022 < ilog2 x + 1)%Z; [|lia]. apply pow2_lt_inv.
    apply Qle_lt_trans with x; assumption. }
  assert (Hq : ulp_exp x = (ilog2 x + (-52))%Z) by (unfold ulp_exp; lia).
  assert (Hu : 2 ^ ulp_exp x * (1 # 2) == 2 ^ ilog2 x * eps).
  { rewrite Hq, pow2_add. unfold eps.
    change (-53)%Z with (-52 + -1)%Z. rewrite (pow2_add (-52) (-1)).
    change (2 ^ (-1)) with (/ 2). field. }
  rewrite Hu in A, B.
  assert (E0 : 0 < eps) by apply pow2_pos.
  pose proof (pow2_pos (ilog2 x)) as P.
  set (p := 2 ^ ilog2 x) in *. split; nra.
Qed.

(** Whole numbers below [2 ^ 53] and powers of two are doubles. *)
Lemma on_grid_Z (z : Z) : (0 < z < 2 ^ 53)%Z -> on_grid (inject_Z z).
Proof.
  intros [H0 H1].
  assert (Hx : 0 < inject_Z z)
    by (change 0 with (inject_Z 0); rewrite <- Zlt_Qlt; exact H0).
  destruct (ilog2_spec _ Hx) as [L U].
  assert (He : (0 <= ilog2 (inject_Z z) < 53)%Z).
  { split.
    - assert (0 < ilog2 (inject_Z z) + 1)%Z; [|lia]. apply pow2_lt_inv.
      apply Qle_lt_trans with (inject_Z z); [|exact U].
      change (2 ^ 0) with (inject_Z 1). rewrite <- Zle_Qle. lia.
    - apply pow2_lt_inv. apply Qle_lt_trans with (inject_Z z); [exact L|].
      rewrite <- (pow2_Z 53) by lia. rewrite <- Zlt_Qlt. exact H1. }
  assert (Hq : ulp_exp (inject_Z z) = (ilog2 (inject_Z z) - 52)%Z)
    by (unfold ulp_exp; lia).
  exists (z * 2 ^ (52 - ilog2 (inject_Z z)))%Z. rewrite Hq.
  rewrite inject_Z_mult, pow2_Z, <- Qmult_assoc, <- pow2_add by lia.
  replace (52 - ilog2 (inject_Z z) + (ilog2 (inject_Z z) - 52))%Z
    with 0%Z by ring.
  change (2 ^ 0) with 1. ring.
Qed.

Lemma on_grid_pow2 (k : Z) : (-1074 <= k)%Z -> on_grid (2 ^ k).
Proof.
  intros H.
  assert (E : ilog2 (2 ^ k) = k).
  { apply ilog2_unique; [apply Qle_refl | apply pow2_lt; lia]. }
  unfold on_grid, ulp_exp. rewrite E.
  exists (2 ^ (k - Z.max (k - 52) (-1074)))%Z.
  apply pow2_split. lia.
Qed.

End Rounding.

(** The rounding of this file against the binary64 operations of the
    Standard Library, on the sides of four images under the bound 400 and
    on three times the double below one third. *)
Lemma rounding_agrees_with_binary64 :
  binary64_value (binary64_side 530 400 530) = Some (double_side 530 400 530)
  /\ binary64_value (binary64_side 333 400 1000)
     = Some (double_side 333 400 1000)
  /\ binary64_value (binary64_side 49 400 19600)
     = Some (double_side 49 400 19600)
  /\ binary64_value (binary64_side 539 400 539)
     = Some (double_side 539 400 539)
  /\ binary64_value
       (binary64_mul (S754_finite false 6004799503160661 (-54))
          (binary64_of_Z 3))
     = Some (Double.mul third_below 3)
  /\ Double.mul third_below 3 = 1%Q.
Proof.
  vm_compute. repeat split.
Qed.

(* ================================================================= *)
(** ** Compressing *)

Section Compress.

Import Double Compressor.
Local Open Scope Q_scope.

Lemma gt_spec (a b : Q) : gt a b = true <-> b < a.
Proof.
  unfold gt. rewrite Bool.negb_true_iff. split.
  - intros H. apply Qnot_le_lt. intro C. apply Qle_bool_iff in C. congruence.
  - intros H. destruct (Qle_bool a b) eqn:E; [|reflexivity].
    apply Qle_bool_iff in E. lra.
Qed.

Lemma gt_false (a b : Q) : gt a b = false <-> a <= b.
Proof.
  unfold gt. rewrite Bool.negb_false_iff. apply Qle_bool_iff.
Qed.

Lemma mul_ge (x r a : Q) : 1 <= x -> 0 <= a -> a <= r -> a <= x * r.
Proof. intros. nra. Qed.

Lemma mul_le (x r : Q) : 0 <= x -> r <= 1 -> x * r <= x.
Proof. intros. nra. Qed.

Lemma two_roundings (x q r p e : Q) :
  0 <= x -> 0 <= q -> 0 <= e -> e <= 1 ->
  q * (1 - e) <= r -> r <= q * (1 + e) ->
  x * r * (1 - e) <= p -> p <= x * r * (1 + e) ->
  x * q * ((1 - e) * (1 - e)) <= p /\ p <= x * q * ((1 + e) * (1 + e)).
Proof.
  intros X Q0 E0 E1 Ra Rb Sa Sb.
  assert (A : x * (q * (1 - e)) <= x * r) by nra.
  assert (B : x * r <= x * (q * (1 + e))) by nra.
  split.
  - apply Qle_trans with (x * r * (1 - e)); [|exact Sa].
    setoid_replace (x * q * ((1 - e) * (1 - e)))
      with (x * (q * (1 - e)) * (1 - e)) by ring.
    apply Qmult_le_compat_r; [exact A | lra].
  - apply Qle_trans with (x * r * (1 + e)); [exact Sb|].
    setoid_replace (x * q * ((1 + e) * (1 + e)))
      with (x * (q * (1 + e)) * (1 + e)) by ring.
    apply Qmult_le_compat_r; [exact B | lra].
Qed.

(** The side [x * (m / d)] of a scaled image in doubles, for a bound [m]
    of one pixel or more below the longer side [d] of the image, both
    sides whole numbers below [2 ^ 32]: it is positive, at most [x], and
    within two roundings of the exact product. *)
Lemma scale_down (x d : Z) (m : Q) :
  (0 < x <= d)%Z -> (d < 2 ^ 32)%Z -> 1 <= m -> m < inject_Z d ->
  let side := mul (inject_Z x) (div m (inject_Z d)) in
  let exact := inject_Z x * m / inject_Z d in
  (0 < side /\ side <= inject_Z x)
  /\ exact * ((1 - eps) * (1 - eps)) <= side
  /\ side <= exact * ((1 + eps) * (1 + eps)).
Proof.
  intros [Hx Hxd] Hd Hm Hmd. cbn zeta. unfold mul, div.
  assert (X0 : 1 <= inject_Z x)
    by (change 1 with (inject_Z 1); rewrite <- Zle_Qle; lia).
  assert (XD : inject_Z x <= inject_Z d) by (rewrite <- Zle_Qle; lia).
  assert (D32 : inject_Z d < 2 ^ 32).
  { rewrite <- (pow2_Z 32) by lia. rewrite <- Zlt_Qlt. exact Hd. }
  set (X := inject_Z x) in *. set (D := inject_Z d) in *.
  assert (E0 : 0 < eps) by apply pow2_pos.
  assert (E1 : eps <= 1 # 2).
  { unfold eps. change (1 # 2) with (2 ^ (-1)). apply pow2_le. lia. }
  (* the quotient *)
  assert (Q0 : 2 ^ (-32) <= m / D).
  { apply Qle_shift_div_l; [lra|].
    assert (2 ^ (-32) * 2 ^ 32 == 1) by (rewrite <- pow2_add; reflexivity).
    pose proof (pow2_pos (-32)). set (a := 2 ^ (-32)) in *.
    set (b := 2 ^ 32) in *. nra. }
  assert (Q1 : m / D <= 1) by (apply Qle_shift_div_r; lra).
  assert (Qn : 2 ^ (-1022) <= m / D).
  { apply Qle_trans with (2 ^ (-32)); [apply pow2_le; lia | exact Q0]. }
  destruct (round_relative (m / D) Qn) as [Ra Rb].
  assert (G32 : on_grid (2 ^ (-32))) by (apply on_grid_pow2; lia).
  assert (G1 : on_grid 1) by (apply (on_grid_Z 1); lia).
  assert (R0 : 2 ^ (-32) <= round (m / D))
    by (apply round_ge; [apply pow2_pos | exact Q0 | exact G32]).
  assert (R1 : round (m / D) <= 1).
  { apply round_le; [|exact Q1 | exact G1].
    apply Qlt_le_trans with (2 ^ (-32)); [apply pow2_pos | exact Q0]. }
  set (q := m / D) in *. set (r := round q) in *.
  pose proof (pow2_pos (-32)) as P32.
  assert (L32 : 2 ^ (-1022) <= 2 ^ (-32)) by (apply pow2_le; lia).
  set (a := 2 ^ (-32)) in *.
  (* the product *)
  assert (Pa : a <= X * r) by (apply mul_ge; lra).
  assert (Pb : X * r <= X) by (apply mul_le; lra).
  assert (Pn : 2 ^ (-1022) <= X * r) by lra.
  destruct (round_relative (X * r) Pn) as [Sa Sb].
  assert (GX : on_grid X).
  { apply on_grid_Z. split; [lia|].
    apply Z.le_lt_trans with d; [lia|]. lia. }
  assert (S1 : round (X * r) <= X) by (apply round_le; [lra | lra | exact GX]).
  assert (S0 : a <= round (X * r))
    by (apply round_ge; [exact P32 | lra | exact G32]).
  assert (Ex : X * m / D == X * q) by (unfold q; field; lra).
  rewrite Ex. set (p := round (X * r)) in *.
  split; [split; lra|].
  apply (two_roundings X q r p eps); try lra.
Qed.


(** A size within the bounds is drawn as it is. *)
Lemma scaled_within (w h maxWidth maxHeight : Q) :
  (h < w -> w <= maxWidth) -> (w <= h -> h <= maxHeight) ->
  scaled w h maxWidth maxHeight = (w, h).
Proof.
  intros Hw Hh. unfold scaled.
  destruct (gt w h) eqn:Ewh; [apply gt_spec in Ewh | apply gt_false in Ewh].
  - destruct (gt w maxWidth) eqn:E; [|reflexivity].
    apply gt_spec in E. specialize (Hw Ewh). lra.
  - destruct (gt h maxHeight) eqn:E; [|reflexivity].
    apply gt_spec in E. specialize (Hh Ewh). lra.
Qed.

Lemma eps_value : eps == 1 # 9007199254740992.
Proof. reflexivity. Qed.

(** Two roundings move a side of at most [2 ^ 31] by less than a pixel. *)
Lemma roundings_below_a_pixel (x m : Q) :
  0 <= x -> x <= m -> m <= 2147483648 ->
  x * ((1 + eps) * (1 + eps)) < m + 1.
Proof.
  intros H0 H1 H2. rewrite eps_value. lra.
Qed.

(** What the canvas makes of a side. *)
Lemma reflected_floor (default m : Z) (x : Q) :
  0 <= x -> x < inject_Z m + 1 -> (m < 2 ^ 31)%Z ->
  reflected default x = Qfloor x /\ (0 <= Qfloor x <= m)%Z.
Proof.
  intros H0 H1 Hm.
  assert (F0 : (0 <= Qfloor x)%Z).
  { change 0%Z with (Qfloor 0). apply Qfloor_resp_le. exact H0. }
  assert (F1 : (Qfloor x < m + 1)%Z).
  { rewrite Zlt_Qlt, inject_Z_plus. change (inject_Z 1) with 1.
    apply Qle_lt_trans with x; [apply Qfloor_le | exact H1]. }
  unfold reflected, to_unsigned_long.
  destruct (Qle_bool 0 x) eqn:E;
    [|apply Qle_bool_iff in H0; congruence].
  rewrite Z.mod_small by lia.
  destruct (Z.leb_spec (Qfloor x) 2147483647); [split; lia | lia].
Qed.

Lemma reflected_Z (default z : Z) :
  (0 <= z < 2 ^ 31)%Z -> reflected default (inject_Z z) = z.
Proof.
  intros H.
  destruct (reflected_floor default z (inject_Z z)) as [E _].
  - change 0 with (inject_Z 0). rewrite <- Zle_Qle. lia.
  - change (inject_Z z + 1) with (inject_Z z + inject_Z 1).
    rewrite <- inject_Z_plus, <- Zlt_Qlt. lia.
  - lia.
  - rewrite E. apply Qfloor_Z.
Qed.

Lemma inject_Z_pos (z : Z) : (0 < z)%Z -> 0 < inject_Z z.
Proof. intros H. change 0 with (inject_Z 0). rewrite <- Zlt_Qlt. exact H. Qed.

Lemma within_two_roundings_refl (a : Q) : 0 <= a -> within_two_roundings a a.
Proof.
  intros H. unfold within_two_roundings. rewrite eps_value. split; nra.
Qed.

Lemma within_two_roundings_of (a b : Q) :
  0 <= a ->
  a * ((1 - eps) * (1 - eps)) <= b -> b <= a * ((1 + eps) * (1 + eps)) ->
  within_two_roundings a b /\ within_two_roundings b a.
Proof.
  intros H A B. unfold within_two_roundings. revert A B.
  rewrite eps_value. intros A B.
  assert (0 <= b) by nra. repeat split; nra.
Qed.

(** The cases of [scaled] on an image of whole sides. *)
Lemma scaled_cases (w h : Z) (maxWidth maxHeight : Q) :
  (0 < w < 2 ^ 32)%Z -> (0 < h < 2 ^ 32)%Z ->
  1 <= maxWidth -> 1 <= maxHeight ->
  let W := inject_Z w in
  let H := inject_Z h in
  let side x m d := mul (inject_Z x) (div m (inject_Z d)) in
  ((h < w)%Z /\ maxWidth < W
   /\ scaled W H maxWidth maxHeight = (maxWidth, side h maxWidth w))
  \/ ((w <= h)%Z /\ maxHeight < H
      /\ scaled W H maxWidth maxHeight = (side w maxHeight h, maxHeight))
  \/ (((h < w)%Z -> W <= maxWidth) /\ ((w <= h)%Z -> H <= maxHeight)
      /\ scaled W H maxWidth maxHeight = (W, H)).
Proof.
  intros Hw Hh Hmw Hmh. cbn zeta. unfold scaled.
  destruct (gt (inject_Z w) (inject_Z h)) eqn:Ewh;
    [apply gt_spec in Ewh; rewrite <- Zlt_Qlt in Ewh
    | apply gt_false in Ewh; rewrite <- Zle_Qle in Ewh].
  - destruct (gt (inject_Z w) maxWidth) eqn:E;
      [apply gt_spec in E | apply gt_false in E].
    + left. auto.
    + right. right. split; [auto|]. split; [lia | reflexivity].
  - destruct (gt (inject_Z h) maxHeight) eqn:E;
      [apply gt_spec in E | apply gt_false in E].
    + right. left. auto.
    + right. right. split; [lia|]. split; [auto | reflexivity].
Qed.


(** The scaled side against the bound set for the other side: the
    proportions are kept within two roundings, and under a whole bound
    the side is less than a pixel above it, the canvas side within it. *)
Lemma scaled_side (x d : Z) (m : Q) :
  (0 < x <= d)%Z -> (d < 2 ^ 32)%Z -> 1 <= m -> m < inject_Z d ->
  let side := mul (inject_Z x) (div m (inject_Z d)) in
  (0 < side /\ side <= inject_Z x)
  /\ (within_two_roundings (m * inject_Z x) (inject_Z d * side)
      /\ within_two_roundings (inject_Z d * side) (m * inject_Z x))
  /\ (forall (mz default : Z),
         m = inject_Z mz -> (mz < 2 ^ 31)%Z ->
         side < inject_Z mz + 1
         /\ (0 <= reflected default side <= mz)%Z).
Proof.
  intros Hx Hd Hm Hmd. cbn zeta.
  destruct (scale_down x d m Hx Hd Hm Hmd) as ((S0 & S1) & Sa & Sb).
  set (side := mul (inject_Z x) (div m (inject_Z d))) in *.
  assert (X0 : 0 < inject_Z x) by (apply inject_Z_pos; lia).
  assert (D0 : 0 < inject_Z d) by (apply inject_Z_pos; lia).
  assert (XD : inject_Z x <= inject_Z d) by (rewrite <- Zle_Qle; lia).
  set (X := inject_Z x) in *. set (D := inject_Z d) in *.
  set (E := X * m / D) in *.
  assert (DE : D * E == m * X) by (unfold E; field; lra).
  assert (EM : E <= m).
  { unfold E. apply Qle_shift_div_r; [exact D0|]. nra. }
  assert (E0 : 0 <= E).
  { unfold E. apply Qle_shift_div_l; [exact D0|]. nra. }
  split; [split; assumption|]. split.
  - apply within_two_roundings_of.
    + nra.
    + rewrite <- DE, <- Qmult_assoc. apply Qmult_le_l; assumption.
    + rewrite <- DE, <- Qmult_assoc. apply Qmult_le_l; assumption.
  - intros mz default -> Hmz.
    assert (M31 : inject_Z mz <= 2147483648).
    { change 2147483648 with (inject_Z (2 ^ 31)). rewrite <- Zle_Qle. lia. }
    assert (Lt : side < inject_Z mz + 1).
    { apply Qle_lt_trans with (E * ((1 + eps) * (1 + eps))); [exact Sb|].
      apply roundings_below_a_pixel; assumption. }
    split; [exact Lt|].
    destruct (reflected_floor default mz side) as [R F];
      [lra | exact Lt | exact Hmz |].
    rewrite R. exact F.
Qed.

(** C8: the size [compressImage] draws at, for an image of whole sides
    below 2^32 and bounds of a pixel or more, computed in doubles as the
    code does.  It keeps the proportions of the image within two
    roundings, is never larger than the image and is the image's own size
    when that is within the bounds; the longer side is within its bound.
    Under one whole bound for both sides (400 in the only call) each side
    drawn is less than a pixel above the bound and each side of the
    canvas, hence of the encoded image, is within it. *)
Theorem scaled_keeps_ratio_within_equal_bounds :
  forall (w h : Z) (maxWidth maxHeight : Q),
    (0 < w < 2 ^ 32)%Z -> (0 < h < 2 ^ 32)%Z ->
    1 <= maxWidth -> 1 <= maxHeight ->
    let W := inject_Z w in
    let H := inject_Z h in
    let w' := fst (scaled W H maxWidth maxHeight) in
    let h' := snd (scaled W H maxWidth maxHeight) in
    within_two_roundings (w' * H) (W * h')
    /\ (0 < w' /\ w' <= W) /\ (0 < h' /\ h' <= H)
    /\ (W <= maxWidth -> H <= maxHeight ->
        scaled W H maxWidth maxHeight = (W, H))
    /\ ((h < w)%Z -> w' <= maxWidth)
    /\ ((w <= h)%Z -> h' <= maxHeight)
    /\ (forall m : Z,
           maxWidth = inject_Z m -> maxHeight = inject_Z m ->
           (m < 2 ^ 31)%Z ->
           w' < inject_Z m + 1 /\ h' < inject_Z m + 1
           /\ (fst (canvas_size W H maxWidth maxHeight) <= m)%Z
           /\ (snd (canvas_size W H maxWidth maxHeight) <= m)%Z).
Proof.
  intros w h mw mh Hw Hh Hmw Hmh. cbn zeta.
  assert (W0 : 0 < inject_Z w) by (apply inject_Z_pos; lia).
  assert (H0 : 0 < inject_Z h) by (apply inject_Z_pos; lia).
  assert (Whole : forall m : Z, 1 <= inject_Z m -> (0 <= m)%Z).
  { intros m H. change 1 with (inject_Z 1) in H. rewrite <- Zle_Qle in H.
    lia. }
  unfold canvas_size.
  destruct (scaled_cases w h mw mh Hw Hh Hmw Hmh)
    as [(Lwh & Big & ->) | [(Lwh & Big & ->) | (In1 & In2 & ->)]];
    cbn [fst snd].
  - destruct (scaled_side h w mw) as ((S0 & S1) & (Ra & _) & Cv);
      [lia | lia | exact Hmw | exact Big |].
    split; [exact Ra|].
    split; [split; lra|].
    split; [split; assumption|].
    split; [intros A B; exfalso; lra|].
    split; [intros _; apply Qle_refl|].
    split; [intros C; lia|].
    intros m Em _ Hm. destruct (Cv m 150%Z Em Hm) as [Lt C].
    split; [rewrite Em; lra|]. split; [exact Lt|].
    split; [|lia].
    rewrite Em in *. rewrite reflected_Z; [lia|].
    split; [apply Whole; exact Hmw | exact Hm].
  - destruct (scaled_side w h mh) as ((S0 & S1) & (_ & Rb) & Cv);
      [lia | lia | exact Hmh | exact Big |].
    split.
    { unfold within_two_roundings in *. destruct Rb as [R1 R2].
      split; lra. }
    split; [split; assumption|].
    split; [split; lra|].
    split; [intros A B; exfalso; lra|].
    split; [intros C; lia|].
    split; [intros _; apply Qle_refl|].
    intros m _ Em Hm. destruct (Cv m 300%Z Em Hm) as [Lt C].
    split; [exact Lt|]. split; [rewrite Em; lra|].
    split; [lia|].
    rewrite Em in *. rewrite reflected_Z; [lia|].
    split; [apply Whole; exact Hmh | exact Hm].
  - split; [apply within_two_roundings_refl; nra|].
    split; [split; lra|].
    split; [split; lra|].
    split; [reflexivity|].
    split; [exact In1|].
    split; [exact In2|].
    intros m Ew Eh Hm. rewrite Ew in In1. rewrite Eh in In2.
    assert (Bd : (w <= m /\ h <= m)%Z).
    { destruct (Z_lt_le_dec h w) as [L|L].
      - specialize (In1 L). rewrite <- Zle_Qle in In1. lia.
      - specialize (In2 L). rewrite <- Zle_Qle in In2. lia. }
    destruct Bd as [Bw Bh].
    pose proof Bw as Qw. pose proof Bh as Qh.
    rewrite Zle_Qle in Qw, Qh.
    split; [lra|]. split; [lra|].
    rewrite !reflected_Z by lia. split; assumption.
Qed.


(** Under one whole bound both sides of the canvas are within it. *)
Lemma canvas_within (w h m : Z) :
  (0 < w < 2 ^ 32)%Z -> (0 < h < 2 ^ 32)%Z -> (1 <= m < 2 ^ 31)%Z ->
  let canvas := canvas_size (inject_Z w) (inject_Z h)
                  (inject_Z m) (inject_Z m) in
  (0 <= fst canvas <= m)%Z /\ (0 <= snd canvas <= m)%Z.
Proof.
  intros Hw Hh Hm. cbn zeta.
  assert (M1 : 1 <= inject_Z m)
    by (change 1 with (inject_Z 1); rewrite <- Zle_Qle; lia).
  unfold canvas_size.
  destruct (scaled_cases w h (inject_Z m) (inject_Z m) Hw Hh M1 M1)
    as [(Lwh & Big & ->) | [(Lwh & Big & ->) | (In1 & In2 & ->)]];
    cbn [fst snd].
  - destruct (scaled_side h w (inject_Z m)) as (_ & _ & Cv);
      [lia | lia | exact M1 | exact Big |].
    destruct (Cv m 150%Z eq_refl) as [_ C]; [lia|].
    rewrite reflected_Z by lia. split; [lia | exact C].
  - destruct (scaled_side w h (inject_Z m)) as (_ & _ & Cv);
      [lia | lia | exact M1 | exact Big |].
    destruct (Cv m 300%Z eq_refl) as [_ C]; [lia|].
    rewrite reflected_Z by lia. split; [exact C | lia].
  - assert (Bd : (w <= m /\ h <= m)%Z).
    { destruct (Z_lt_le_dec h w) as [L|L].
      - specialize (In1 L). rewrite <- Zle_Qle in In1. lia.
      - specialize (In2 L). rewrite <- Zle_Qle in In2. lia. }
    rewrite !reflected_Z by lia. lia.
Qed.

(** X17: compressing a compressed image again keeps its size: under one
    whole bound for both sides (400 in the only call) the pixel size of
    the canvas, taken as the size of a new image, gives a canvas of that
    same pixel size.  (The size drawn at, with its fractions, is not kept
    in general: a second pass rounds again.) *)
Theorem compressing_again_keeps_the_size :
  forall w h m : Z,
    (0 < w < 2 ^ 32)%Z -> (0 < h < 2 ^ 32)%Z -> (1 <= m < 2 ^ 31)%Z ->
    let canvas := canvas_size (inject_Z w) (inject_Z h)
                    (inject_Z m) (inject_Z m) in
    canvas_size (inject_Z (fst canvas)) (inject_Z (snd canvas))
      (inject_Z m) (inject_Z m)
    = canvas.
Proof.
  intros w h m Hw Hh Hm. cbn zeta.
  destruct (canvas_within w h m Hw Hh Hm) as [[A0 A1] [B0 B1]].
  destruct (canvas_size (inject_Z w) (inject_Z h) (inject_Z m) (inject_Z m))
    as [cw ch]. cbn [fst snd] in *.
  unfold canvas_size. rewrite scaled_within.
  - rewrite !reflected_Z by lia. reflexivity.
  - intros _. rewrite <- Zle_Qle. exact A1.
  - intros _. rewrite <- Zle_Qle. exact B1.
Qed.

Lemma below_one (side d p : Q) :
  0 < d -> d <= 4294967296 ->
  side * d <= p * ((1 + eps) * (1 + eps)) ->
  p <= d - 1 -> 0 <= p -> side * d < 1 * d.
Proof.
  intros D0 D32 U. revert U. rewrite eps_value. intros U P P0. lra.
Qed.

Lemma above_one (side d p : Q) :
  0 < d -> d <= 4294967296 ->
  p * ((1 - eps) * (1 - eps)) <= side * d ->
  d + 1 <= p -> 1 * d <= side * d.
Proof.
  intros D0 D32 U. revert U. rewrite eps_value. intros U P. lra.
Qed.

(** The whole part of a scaled side, of an image whose sides and bound
    are whole numbers. *)
Lemma thin_side (x d m : Z) :
  (0 < x <= d)%Z -> (d < 2 ^ 32)%Z -> (1 <= m < d)%Z ->
  let side := mul (inject_Z x) (div (inject_Z m) (inject_Z d)) in
  0 < side /\ side <= inject_Z x
  /\ ((x * m < d)%Z -> side < 1)
  /\ ((d < x * m)%Z -> 1 <= side).
Proof.
  intros Hx Hd Hm. cbn zeta.
  assert (M1 : 1 <= inject_Z m)
    by (change 1 with (inject_Z 1); rewrite <- Zle_Qle; lia).
  assert (MD : inject_Z m < inject_Z d) by (rewrite <- Zlt_Qlt; lia).
  destruct (scale_down x d (inject_Z m) Hx Hd M1 MD) as ((S0 & S1) & Sa & Sb).
  set (side := mul (inject_Z x) (div (inject_Z m) (inject_Z d))) in *.
  assert (D0 : 0 < inject_Z d) by (apply inject_Z_pos; lia).
  assert (D32 : inject_Z d <= 4294967296).
  { change 4294967296 with (inject_Z (2 ^ 32)). rewrite <- Zle_Qle. lia. }
  assert (DE : inject_Z x * inject_Z m / inject_Z d * inject_Z d
               == inject_Z (x * m)).
  { rewrite inject_Z_mult. field. lra. }
  set (E := inject_Z x * inject_Z m / inject_Z d) in *.
  assert (Ua : E * ((1 - eps) * (1 - eps)) * inject_Z d
               <= side * inject_Z d)
    by (apply Qmult_le_compat_r; [exact Sa | lra]).
  assert (Ub : side * inject_Z d
               <= E * ((1 + eps) * (1 + eps)) * inject_Z d)
    by (apply Qmult_le_compat_r; [exact Sb | lra]).
  setoid_replace (E * ((1 - eps) * (1 - eps)) * inject_Z d)
    with (inject_Z (x * m) * ((1 - eps) * (1 - eps))) in Ua
    by (rewrite <- DE; ring).
  setoid_replace (E * ((1 + eps) * (1 + eps)) * inject_Z d)
    with (inject_Z (x * m) * ((1 + eps) * (1 + eps))) in Ub
    by (rewrite <- DE; ring).
  split; [exact S0|]. split; [exact S1|]. split; intros C.
  - assert (P : inject_Z (x * m) <= inject_Z d - 1).
    { change 1 with (inject_Z 1). unfold Qminus.
      rewrite <- inject_Z_opp, <- inject_Z_plus, <- Zle_Qle. lia. }
    assert (P0 : 0 <= inject_Z (x * m)).
    { change 0 with (inject_Z 0). rewrite <- Zle_Qle. nia. }
    apply Qmult_lt_r with (inject_Z d); [exact D0|].
    exact (below_one side _ _ D0 D32 Ub P P0).
  - assert (P : inject_Z d + 1 <= inject_Z (x * m)).
    { change 1 with (inject_Z 1).
      rewrite <- inject_Z_plus, <- Zle_Qle. lia. }
    apply Qmult_le_r with (inject_Z d); [exact D0|].
    exact (above_one side _ _ D0 D32 Ua P).
Qed.

Lemma reflected_empty (default : Z) (x : Q) :
  0 <= x -> x < 1 -> reflected default x = 0%Z.
Proof.
  intros H0 H1.
  destruct (reflected_floor default 0 x) as [R F];
    [exact H0 | change (inject_Z 0) with 0; lra | lia |].
  rewrite R. lia.
Qed.

Lemma reflected_row (default : Z) (x : Q) :
  (1 <= default)%Z -> 1 <= x -> x < 4294967296 -> (1 <= reflected default x)%Z.
Proof.
  intros Hd H1 H2.
  assert (F1 : (1 <= Qfloor x)%Z).
  { change 1%Z with (Qfloor 1). apply Qfloor_resp_le. exact H1. }
  assert (F2 : (Qfloor x < 2 ^ 32)%Z).
  { rewrite Zlt_Qlt. apply Qle_lt_trans with x; [apply Qfloor_le|].
    exact H2. }
  unfold reflected, to_unsigned_long.
  destruct (Qle_bool 0 x) eqn:E;
    [|assert (C : 0 <= x) by lra; apply Qle_bool_iff in C; congruence].
  rewrite Z.mod_small by lia.
  destruct (Qfloor x <=? 2147483647)%Z; lia.
Qed.

(** X16: an image too thin for the bound gets a canvas without pixels.
    For an image of whole sides below 2^32 whose longer side is above a
    whole bound of a pixel or more, the longer side is drawn at the bound
    and the canvas has no pixel along the shorter side when the shorter
    side times the bound is below the longer side, and at least one when
    it is above; this holds of a landscape image (bound on the width) and
    of a portrait image (bound on the height).  When the product equals
    the longer side the rounding of the doubles decides. *)
Theorem thin_image_gets_an_empty_canvas :
  forall (long short m : Z) (other : Q),
    (0 < short < long)%Z -> (long < 2 ^ 32)%Z -> (1 <= m < long)%Z ->
    let L := inject_Z long in
    let S := inject_Z short in
    let M := inject_Z m in
    (fst (scaled L S M other) = M /\ snd (scaled S L other M) = M)
    /\ ((short * m < long)%Z ->
        snd (canvas_size L S M other) = 0%Z
        /\ fst (canvas_size S L other M) = 0%Z)
    /\ ((long < short * m)%Z ->
        (1 <= snd (canvas_size L S M other))%Z
        /\ (1 <= fst (canvas_size S L other M))%Z).
Proof.
  intros long short m other Hs Hl Hm. cbn zeta.
  assert (E1 : gt (inject_Z long) (inject_Z short) = true)
    by (apply gt_spec; rewrite <- Zlt_Qlt; lia).
  assert (E2 : gt (inject_Z long) (inject_Z m) = true)
    by (apply gt_spec; rewrite <- Zlt_Qlt; lia).
  assert (E3 : gt (inject_Z short) (inject_Z long) = false)
    by (apply gt_false; rewrite <- Zle_Qle; lia).
  destruct (thin_side short long m) as (S0 & S1 & Thin & Row);
    [lia | lia | lia |].
  assert (S32 : inject_Z short < 4294967296).
  { change 4294967296 with (inject_Z (2 ^ 32)). rewrite <- Zlt_Qlt. lia. }
  unfold canvas_size, scaled. rewrite E1, E2, E3. cbn [fst snd].
  split; [split; reflexivity|]. split; intros C.
  - specialize (Thin C). split; apply reflected_empty; lra.
  - specialize (Row C). split; apply reflected_row; try lra; lia.
Qed.

End Compress.

(* ================================================================= *)
(** ** The index in doubles (lines 182, 195) *)

Section DoubleIndex.

Import Double.
Local Open Scope Q_scope.

Lemma round_zero (x : Q) : x == 0 -> round x = 0.
Proof.
  intros H. unfold round. apply Qeq_alt in H. rewrite H. reflexivity.
Qed.

Lemma rne_nonneg (x : Q) : 0 <= x -> (0 <= rne x)%Z.
Proof.
  intros H. rewrite <- (rne_Z 0 0) by reflexivity. apply rne_mono. exact H.
Qed.

Lemma round_nonneg (x : Q) : 0 <= x -> 0 <= round x.
Proof.
  intros H. destruct (Qlt_le_dec 0 x) as [P|Z].
  - rewrite (round_positive x P), round_pos_eq.
    pose proof (pow2_pos (ulp_exp x)) as U.
    assert (0 <= x / 2 ^ ulp_exp x).
    { apply Qle_shift_div_l; [exact U|]. lra. }
    pose proof (rne_nonneg _ H0) as N. rewrite Zle_Qle in N.
    change (inject_Z 0) with 0 in N.
    set (m := inject_Z (rne (x / 2 ^ ulp_exp x))) in *.
    set (u := 2 ^ ulp_exp x) in *. nra.
  - rewrite round_zero; [apply Qle_refl | lra].
Qed.

(** A rounding does not pass a whole number. *)
Lemma round_between (x : Q) (a : Z) :
  (0 <= a)%Z -> (a + 1 < 2 ^ 53)%Z ->
  inject_Z a <= x -> x <= inject_Z (a + 1) ->
  inject_Z a <= round x /\ round x <= inject_Z (a + 1).
Proof.
  intros A0 A1 L U.
  assert (X0 : 0 <= x).
  { apply Qle_trans with (inject_Z a); [|exact L].
    change 0 with (inject_Z 0). rewrite <- Zle_Qle. exact A0. }
  destruct (Qlt_le_dec 0 x) as [P|Z].
  - split.
    + destruct (Z.eq_dec a 0) as [->|N]; [apply round_nonneg; exact X0|].
      apply round_ge; [apply inject_Z_pos; lia | exact L|].
      apply on_grid_Z. lia.
    + apply round_le; [exact P | exact U|]. apply on_grid_Z. lia.
  - assert (E : x == 0) by lra. rewrite (round_zero x E).
    split; [lra|]. change 0 with (inject_Z 0). rewrite <- Zle_Qle. lia.
Qed.

(** The whole part of a rounded value is the whole part of the value, or
    one more when the value is rounded up to a whole number. *)
Lemma floor_round (x : Q) :
  0 <= x -> x < 2 ^ 52 ->
  (Qfloor x <= Qfloor (round x) <= Qfloor x + 1)%Z
  /\ (Qfloor (round x) = (Qfloor x + 1)%Z ->
      round x == inject_Z (Qfloor x + 1)).
Proof.
  intros H0 H1.
  pose proof (Qfloor_le x) as L. pose proof (Qlt_floor x) as U.
  assert (F0 : (0 <= Qfloor x)%Z).
  { change 0%Z with (Qfloor 0). apply Qfloor_resp_le. exact H0. }
  assert (F1 : (Qfloor x < 2 ^ 52)%Z).
  { rewrite Zlt_Qlt. rewrite (pow2_Z 52) by lia.
    apply Qle_lt_trans with x; assumption. }
  destruct (round_between x (Qfloor x) F0) as [A B];
    [lia | exact L | apply Qlt_le_weak; exact U |].
  assert (G1 : (Qfloor x <= Qfloor (round x))%Z).
  { rewrite <- (Qfloor_Z (Qfloor x)) at 1. apply Qfloor_resp_le. exact A. }
  assert (G2 : (Qfloor (round x) <= Qfloor x + 1)%Z).
  { rewrite <- (Qfloor_Z (Qfloor x + 1)). apply Qfloor_resp_le. exact B. }
  split; [split; assumption|]. intros E.
  apply Qle_antisym; [exact B|]. rewrite <- E. apply Qfloor_le.
Qed.

(** A double below 1 is at most [1 - 2 ^ -53]. *)
Lemma double_below_one (r : Q) :
  on_grid r -> 0 < r -> r < 1 -> r <= 1 - eps.
Proof.
  intros [m E] R0 R1.
  destruct (ilog2_spec r R0) as [L U].
  assert (He : (ilog2 r < 0)%Z).
  { apply pow2_lt_inv. apply Qle_lt_trans with r; [exact L | exact R1]. }
  destruct (Z.eq_dec (ilog2 r) (-1)) as [E1|N1].
  - assert (Hq : ulp_exp r = (-53)%Z) by (unfold ulp_exp; lia).
    rewrite Hq in E. fold eps in E.
    assert (M : (m < 2 ^ 53)%Z).
    { rewrite Zlt_Qlt. apply Qmult_lt_r with eps; [apply pow2_pos|].
      rewrite <- E. apply Qlt_le_trans with 1; [exact R1|].
      vm_compute. discriminate. }
    assert (M' : inject_Z m <= inject_Z (2 ^ 53) - 1).
    { change 1 with (inject_Z 1). unfold Qminus.
      rewrite <- inject_Z_opp, <- inject_Z_plus, <- Zle_Qle. lia. }
    rewrite E. revert M'. rewrite eps_value.
    generalize (inject_Z m). intros q M'.
    change (inject_Z (2 ^ 53)) with 9007199254740992 in M'. lra.
  - apply Qle_trans with (2 ^ (-1)).
    + apply Qlt_le_weak. apply Qlt_le_trans with (2 ^ (ilog2 r + 1));
        [exact U | apply pow2_le; lia].
    + vm_compute. discriminate.
Qed.

(** The rounded value is a double. *)
Lemma round_on_grid (x : Q) : 0 < x -> on_grid (round x).
Proof.
  intros Hx.
  pose proof (round_positive x Hx) as R. pose proof (round_pos_eq x) as V.
  rewrite <- R in V.
  destruct (ilog2_spec x Hx) as [L U].
  pose proof (pow2_pos (ulp_exp x)) as P.
  assert (Hq : (ilog2 x - 52 <= ulp_exp x)%Z /\ (-1074 <= ulp_exp x)%Z)
    by (unfold ulp_exp; lia).
  assert (T0 : 0 <= x / 2 ^ ulp_exp x).
  { apply Qle_shift_div_l; [exact P | lra]. }
  pose proof (rne_nonneg _ T0) as N0.
  assert (N1 : (rne (x / 2 ^ ulp_exp x) <= 2 ^ 53)%Z).
  { rewrite <- (rne_Z (inject_Z (2 ^ 53)) (2 ^ 53)) by reflexivity.
    apply rne_mono. apply Qle_shift_div_r; [exact P|].
    rewrite (pow2_Z 53), <- pow2_add by lia. apply Qlt_le_weak.
    apply Qlt_le_trans with (2 ^ (ilog2 x + 1)); [exact U|].
    apply pow2_le. lia. }
  set (n := rne (x / 2 ^ ulp_exp x)) in *.
  destruct (Z.eq_dec n 0) as [Z0|NZ].
  { exists 0%Z. rewrite Z0 in V.
    transitivity (inject_Z 0 * 2 ^ ulp_exp x); [exact V | ring]. }
  assert (Vpos : 0 < round x).
  { rewrite V. apply Qmult_lt_0_compat; [apply inject_Z_pos; lia | exact P]. }
  destruct (ilog2_spec (round x) Vpos) as [L' U'].
  destruct (Z.eq_dec n (2 ^ 53)) as [E53|N53].
  - assert (Ev : round x == 2 ^ (53 + ulp_exp x)).
    { rewrite V, E53, (pow2_Z 53), <- pow2_add by lia. reflexivity. }
    assert (Ei : ilog2 (round x) = (53 + ulp_exp x)%Z).
    { apply ilog2_unique; [rewrite Ev; apply Qle_refl|].
      rewrite Ev. apply pow2_lt. lia. }
    assert (Eu : ulp_exp (round x) = (1 + ulp_exp x)%Z).
    { unfold ulp_exp at 1. rewrite Ei. lia. }
    exists (2 ^ 52)%Z. rewrite Eu. transitivity (2 ^ (53 + ulp_exp x));
      [exact Ev|].
    rewrite (pow2_Z 52), <- pow2_add by lia.
    replace (52 + (1 + ulp_exp x))%Z with (53 + ulp_exp x)%Z by ring.
    reflexivity.
  - assert (Hup : (ilog2 (round x) < 53 + ulp_exp x)%Z).
    { apply pow2_lt_inv. apply Qle_lt_trans with (round x); [exact L'|].
      rewrite V, pow2_add, <- (pow2_Z 53) by lia.
      apply Qmult_lt_r; [exact P|]. rewrite <- Zlt_Qlt. lia. }
    assert (Eq : ulp_exp (round x) = ulp_exp x).
    { destruct (Z.eq_dec (ulp_exp x) (-1074)) as [S|S].
      - unfold ulp_exp at 1. lia.
      - assert (He : (-1074 <= ilog2 x)%Z) by (unfold ulp_exp in S; lia).
        assert (G : 2 ^ ilog2 x <= round x).
        { apply round_ge; [apply pow2_pos | exact L|].
          apply on_grid_pow2. exact He. }
        assert (Hlo : (ilog2 x < ilog2 (round x) + 1)%Z).
        { apply pow2_lt_inv. apply Qle_lt_trans with (round x); assumption. }
        unfold ulp_exp in *. lia. }
    exists n. rewrite Eq. exact V.
Qed.

Lemma floor_unique (y : Q) (k : Z) :
  inject_Z k <= y -> y < inject_Z k + 1 -> Qfloor y = k.
Proof.
  intros L U. apply Z.le_antisymm.
  - assert (Qfloor y < k + 1)%Z; [|lia]. rewrite Zlt_Qlt, inject_Z_plus.
    apply Qle_lt_trans with y; [apply Qfloor_le | exact U].
  - rewrite <- (Qfloor_Z k) at 1. apply Qfloor_resp_le. exact L.
Qed.

Lemma floor_below (y : Q) (n : Z) : y < inject_Z n -> (Qfloor y < n)%Z.
Proof.
  intros H. rewrite Zlt_Qlt. apply Qle_lt_trans with y;
    [apply Qfloor_le | exact H].
Qed.

Lemma rounded_product_below (p rp n : Q) :
  0 < n -> p <= n * (1 - eps) -> rp <= p * (1 + eps) -> rp < n.
Proof.
  rewrite eps_value. intros. lra.
Qed.

(** The product of a double below 1 and a length rounds below the
    length. *)
Lemma mul_below_length (r n : Q) :
  on_grid r -> 0 <= r -> r < 1 -> 1 <= n -> mul r n < n.
Proof.
  intros G R0 R1 N1. unfold mul.
  destruct (Qlt_le_dec 0 r) as [P|Z].
  - pose proof (double_below_one r G P R1) as B.
    assert (Pp : 0 < r * n) by nra.
    destruct (Qlt_le_dec (r * n) (2 ^ (-1022))) as [S|S].
    + apply Qle_lt_trans with (2 ^ (-1022)).
      * apply round_le; [exact Pp | lra | apply on_grid_pow2; lia].
      * apply Qlt_le_trans with 1; [reflexivity | exact N1].
    + destruct (round_relative _ S) as [_ U].
      apply (rounded_product_below (r * n)); [lra | | exact U].
      revert B. rewrite eps_value. intros B. nra.
  - rewrite round_zero; [lra | nra].
Qed.

Lemma half_bounds (K p rp : Q) :
  0 <= K -> K <= 4294967296 ->
  (K + (1 # 2)) * (1 - eps) <= p -> p <= (K + (1 # 2)) * (1 + eps) ->
  p * (1 - eps) <= rp -> rp <= p * (1 + eps) ->
  (K <= p /\ p < K + 1) /\ (K <= rp /\ rp < K + 1).
Proof.
  rewrite eps_value. intros. repeat split; lra.
Qed.

Lemma half_quotient (k n : Z) :
  (0 < n)%Z ->
  inject_Z (2 * k + 1) / inject_Z (2 * n) * inject_Z n
  == inject_Z k + (1 # 2).
Proof.
  intros H. rewrite inject_Z_plus, !inject_Z_mult.
  change (inject_Z 2) with 2. change (inject_Z 1) with 1.
  pose proof (inject_Z_pos n H). field. lra.
Qed.

Lemma quotient_normal (a b : Q) :
  1 <= a -> 0 < b -> b <= 8589934592 -> 2 ^ (-1022) <= a / b.
Proof.
  intros A B0 B1. apply Qle_trans with (2 ^ (-33)); [apply pow2_le; lia|].
  apply Qle_shift_div_l; [exact B0|].
  change (2 ^ (-33)) with (1 # 8589934592). lra.
Qed.

(** The index the code computes is a position of the array. *)
Lemma floor_times_double_range (r : Q) (n : nat) :
  on_grid r -> Js.is_random r = true -> (0 < n)%nat ->
  (0 <= floor_times_double r n < Z.of_nat n)%Z.
Proof.
  intros G Hr Hn. apply is_random_spec in Hr. destruct Hr as [R0 R1].
  assert (N1 : 1 <= inject_Z (Z.of_nat n)).
  { change 1 with (inject_Z 1). rewrite <- Zle_Qle. lia. }
  unfold floor_times_double. split.
  - change 0%Z with (Qfloor 0). apply Qfloor_resp_le. apply round_nonneg. nra.
  - apply floor_below. apply mul_below_length; assumption.
Qed.

(** It is the index of the exact product, or the next one when the
    product is rounded up to a whole number. *)
Lemma floor_times_double_near (r : Q) (n : nat) :
  Js.is_random r = true -> (Z.of_nat n < 2 ^ 52)%Z ->
  (Js.floor_times r n <= floor_times_double r n <= Js.floor_times r n + 1)%Z
  /\ (floor_times_double r n = (Js.floor_times r n + 1)%Z ->
      mul r (inject_Z (Z.of_nat n)) == inject_Z (floor_times_double r n)).
Proof.
  intros Hr Hn. apply is_random_spec in Hr. destruct Hr as [R0 R1].
  assert (N0 : 0 <= inject_Z (Z.of_nat n)).
  { change 0 with (inject_Z 0). rewrite <- Zle_Qle. lia. }
  assert (N1 : inject_Z (Z.of_nat n) < 2 ^ 52).
  { rewrite <- (pow2_Z 52), <- Zlt_Qlt by lia. exact Hn. }
  unfold floor_times_double, Js.floor_times, mul.
  destruct (floor_round (r * inject_Z (Z.of_nat n))) as [A B]; [nra | nra |].
  split; [exact A|]. intros E. rewrite E. apply B. exact E.
Qed.

(** Every position is the index of a double, the same in doubles and in
    exact arithmetic. *)
Lemma floor_times_double_onto (k n : nat) :
  (k < n)%nat -> (Z.of_nat n < 2 ^ 32)%Z ->
  exists r,
    on_grid r /\ Js.is_random r = true
    /\ floor_times_double r n = Z.of_nat k
    /\ Js.floor_times r n = Z.of_nat k.
Proof.
  intros Hk Hn.
  set (K := Z.of_nat k). set (N := Z.of_nat n).
  assert (HK : (0 <= K < N)%Z) by (unfold K, N; lia).
  set (e := inject_Z (2 * K + 1) / inject_Z (2 * N)).
  assert (Q1 : 1 <= inject_Z (2 * K + 1)).
  { change 1 with (inject_Z 1). rewrite <- Zle_Qle. lia. }
  assert (Q2 : 0 < inject_Z (2 * N)) by (apply inject_Z_pos; lia).
  assert (Q3 : inject_Z (2 * N) <= 8589934592).
  { change 8589934592 with (inject_Z 8589934592). rewrite <- Zle_Qle.
    unfold N. lia. }
  pose proof (quotient_normal _ _ Q1 Q2 Q3) as Hnormal. fold e in Hnormal.
  assert (E0 : 0 < e).
  { apply Qlt_le_trans with (2 ^ (-1022)); [apply pow2_pos | exact Hnormal]. }
  destruct (round_relative e Hnormal) as [RL RU].
  pose proof (half_quotient K N ltac:(lia)) as HQ. fold e in HQ.
  assert (N0 : 0 < inject_Z N) by (apply inject_Z_pos; lia).
  assert (K0 : 0 <= inject_Z K).
  { change 0 with (inject_Z 0). rewrite <- Zle_Qle. lia. }
  assert (K1 : inject_Z K <= 4294967296).
  { change 4294967296 with (inject_Z 4294967296). rewrite <- Zle_Qle.
    unfold K, N in *. lia. }
  assert (K2 : inject_Z K + 1 <= inject_Z N).
  { change 1 with (inject_Z 1). rewrite <- inject_Z_plus, <- Zle_Qle. lia. }
  set (r := round e) in *.
  assert (PL : (inject_Z K + (1 # 2)) * (1 - eps) <= r * inject_Z N).
  { rewrite <- HQ. revert RL. rewrite eps_value. intros RL. nra. }
  assert (PU : r * inject_Z N <= (inject_Z K + (1 # 2)) * (1 + eps)).
  { rewrite <- HQ. revert RU. rewrite eps_value. intros RU. nra. }
  assert (Pn : 2 ^ (-1022) <= r * inject_Z N).
  { apply Qle_trans with (1 # 4); [vm_compute; discriminate|].
    revert PL. rewrite eps_value. intros PL. lra. }
  destruct (round_relative _ Pn) as [SL SU].
  destruct (half_bounds _ _ _ K0 K1 PL PU SL SU) as [[A1 A2] [B1 B2]].
  exists r. split; [apply round_on_grid; exact E0|]. split.
  - apply is_random_spec. split; [apply round_nonneg; lra|]. nra.
  - split; [apply floor_unique; assumption|].
    apply floor_unique; assumption.
Qed.

(** X20: for a double [r] that [Math.random()] can return and an array of
    [n] items, [0 < n < 2 ^ 32], the index [Math.floor(r * n)] that the
    code computes in doubles is a position of the array; it is the index
    of the exact product ([Js.floor_times]) or the next one, the next one
    only when the product is rounded up to a whole number; and every
    position of the array is the index of some double, in doubles and in
    exact arithmetic alike. *)
Theorem double_index_is_a_position (r : Q) (n : nat) :
  on_grid r -> Js.is_random r = true -> (0 < n)%nat ->
  (Z.of_nat n < 2 ^ 32)%Z ->
  (0 <= floor_times_double r n < Z.of_nat n)%Z
  /\ (Js.floor_times r n <= floor_times_double r n
      <= Js.floor_times r n + 1)%Z
  /\ (floor_times_double r n = (Js.floor_times r n + 1)%Z ->
      mul r (inject_Z (Z.of_nat n)) == inject_Z (floor_times_double r n))
  /\ (forall k : nat,
        (k < n)%nat ->
        exists r',
          on_grid r' /\ Js.is_random r' = true
          /\ floor_times_double r' n = Z.of_nat k
          /\ Js.floor_times r' n = Z.of_nat k).
Proof.
  intros G Hr Hn Hlen.
  split; [apply floor_times_double_range; assumption|].
  destruct (floor_times_double_near r n Hr ltac:(lia)) as [Near Up].
  split; [exact Near|]. split; [exact Up|].
  intros k Hk. apply floor_times_double_onto; assumption.
Qed.

(** X20 on the double below one third and three items: the code reads
    index 1 where the exact product gives 0, the product being rounded up
    to 1; and the last position is the index of some double. *)
Lemma double_index_is_a_position_witness :
  floor_times_double third_below 3 = 1%Z
  /\ Js.floor_times third_below 3 = 0%Z
  /\ mul third_below 3 == 1
  /\ exists r,
       on_grid r /\ Js.is_random r = true
       /\ floor_times_double r 3 = 2%Z /\ Js.floor_times r 3 = 2%Z.
Proof.
  assert (G : on_grid third_below).
  { exists 6004799503160661%Z. vm_compute. reflexivity. }
  destruct (double_index_is_a_position third_below 3 G eq_refl
              ltac:(lia) ltac:(lia)) as (_ & _ & Up & Onto).
  split; [reflexivity|]. split; [reflexivity|].
  split; [exact (Up eq_refl) | exact (Onto 2%nat ltac:(lia))].
Defined.

End DoubleIndex.

(* ================================================================= *)
(** ** Trimming *)

Section Trimming.

Import Js.

Lemma drop_prefix_length (p s r : string) :
  drop_prefix p s = Some r ->
  String.length s = String.length p + String.length r.
Proof.
  revert s. induction p as [|a p IH]; intros s H; simpl in H.
  - injection H as ->. reflexivity.
  - destruct s as [|b s]; [discriminate|].
    destruct (Ascii.eqb a b); [|discriminate].
    simpl. rewrite (IH s H). reflexivity.
Qed.

Lemma drop_one_shorter (patterns : list string) (s r : string) :
  Forall (fun p => p <> EmptyString) patterns ->
  drop_one patterns s = Some r -> String.length r < String.length s.
Proof.
  intros Hne. induction Hne as [|p ps Hp _ IH]; simpl; [discriminate|].
  destruct (drop_prefix p s) as [r'|] eqn:E; [|exact IH].
  intros H. injection H as ->. apply drop_prefix_length in E.
  destruct p; [congruence | simpl in E; lia].
Qed.

(** With as much fuel as the string is long nothing is left to drop. *)
Lemma drop_all_done (patterns : list string) (fuel : nat) :
  Forall (fun p => p <> EmptyString) patterns ->
  forall s,
    String.length s <= fuel ->
    drop_one patterns (drop_all patterns fuel s) = None
    \/ drop_all patterns fuel s = EmptyString.
Proof.
  intros Hne. induction fuel as [|fuel IH]; intros s Hlen; simpl.
  - right. destruct s; [reflexivity | simpl in Hlen; lia].
  - destruct (drop_one patterns s) as [r|] eqn:E; [|left; exact E].
    apply IH. apply (drop_one_shorter patterns s r Hne) in E. lia.
Qed.

Lemma whitespace_nonempty :
  Forall (fun p => p <> EmptyString) (map bytes whitespace)
  /\ Forall (fun p => p <> EmptyString)
       (map (fun w => bytes (rev w)) whitespace).
Proof. split; repeat constructor; discriminate. Qed.

(** What [trimStart] returns starts with none of the patterns. *)
Lemma trimStart_done (s : string) :
  drop_one (map bytes whitespace) (trimStart s) = None.
Proof.
  unfold trimStart.
  destruct (drop_all_done _ (String.length s) (proj1 whitespace_nonempty) s
              (le_n _)) as [H| ->]; [exact H | reflexivity].
Qed.

Lemma reverse_involutive (s : string) : reverse (reverse s) = s.
Proof.
  unfold reverse.
  rewrite list_ascii_of_string_of_list_ascii, rev_involutive.
  apply string_of_list_ascii_of_string.
Qed.

Lemma length_list_ascii (s : string) :
  length (list_ascii_of_string s) = String.length s.
Proof. induction s; simpl; congruence. Qed.

Lemma reverse_length (s : string) :
  String.length (reverse s) = String.length s.
Proof.
  unfold reverse. rewrite <- length_list_ascii.
  rewrite list_ascii_of_string_of_list_ascii, length_rev.
  apply length_list_ascii.
Qed.

(** What [trimEnd] returns ends with none of the patterns. *)
Lemma trimEnd_done (s : string) :
  drop_one (map (fun w => bytes (rev w)) whitespace) (reverse (trimEnd s))
  = None.
Proof.
  unfold trimEnd. rewrite reverse_involutive.
  destruct (drop_all_done _ (String.length s) (proj2 whitespace_nonempty)
              (reverse s)) as [H| ->];
    [rewrite reverse_length; apply le_n | exact H | reflexivity].
Qed.

End Trimming.

(* ================================================================= *)
(** ** Recognizing *)

Section Recognize.

Import Js Recognition.

Lemma follow_undefined (path : list Key) : follow path None = None.
Proof. destruct path; reflexivity. Qed.

Lemma follow_opt_get (k : Key) (rest : list Key) (v : Value) :
  follow (k :: rest) v = follow rest (opt_get k v).
Proof.
  destruct v as [j|]; cbn [follow opt_get];
    [|symmetry; apply follow_undefined].
  destruct j; reflexivity.
Qed.

(** The optional chain of [analyzeImage] reads the value at
    [LABEL_PATH]. *)
Lemma label_text_follow (body : Json) :
  body <> JNull ->
  label_text body
  = match follow LABEL_PATH (Some body) with
    | None | Some JNull => inr None
    | Some (JString s) => inr (Some (trim s))
    | Some _ => inl TypeError
    end.
Proof.
  intros Hbody. unfold LABEL_PATH.
  change (follow (Named "candidates" :: ?rest) (Some body))
    with (follow rest (get body (Named "candidates"))).
  rewrite !follow_opt_get. cbn [follow].
  unfold label_text. destruct body; try reflexivity. congruence.
Qed.

Lemma Json_is_null (j : Json) : {j = JNull} + {j <> JNull}.
Proof. destruct j; (left; reflexivity) || (right; discriminate). Qed.

Lemma truthy_empty (s : string) : truthy s = false <-> s = EmptyString.
Proof. destruct s; simpl; split; congruence. Qed.

(** The cases of a request that was issued, read the other way round. *)
Lemma outcome_cases (fetch : Request -> FetchResult) (request : Request)
    (outcome : Outcome) :
  outcome
             = match fetch request with
               | Rejected => Throws TypeError
               | Resolved false _ => Throws (Error "API_ERROR")
               | Resolved true None => Throws SyntaxError
               | Resolved true (Some JNull) => Throws TypeError
               | Resolved true (Some body) =>
                   match follow LABEL_PATH (Some body) with
                   | None | Some JNull => Throws (Error "EMPTY_RESPONSE")
                   | Some (JString s) =>
                       if truthy (trim s) then Returns (trim s)
                       else Throws (Error "EMPTY_RESPONSE")
                   | Some _ => Throws TypeError
                   end
               end ->
  (outcome = Throws (Error "API_ERROR")
   <-> exists body, fetch request = Resolved false body)
  /\ (outcome = Throws (Error "EMPTY_RESPONSE")
      <-> exists body,
            fetch request = Resolved true (Some body)
            /\ body <> JNull /\ no_label body)
  /\ (forall label,
         outcome = Returns label
         <-> exists body s,
               fetch request = Resolved true (Some body)
               /\ body <> JNull
               /\ follow LABEL_PATH (Some body) = Some (JString s)
               /\ label = trim s /\ label <> EmptyString).
Proof.
  intros ->. unfold no_label.
  destruct (fetch request) as [|[|] [body|]].
  - split; [|split; [|intros label]]; (split; [discriminate|]).
    + intros (b & H). discriminate H.
    + intros (b & H & _). discriminate H.
    + intros (b & s & H & _). discriminate H.
  - split; [|split; [|intros label]]; split.
    + intros H. exfalso.
      destruct body; try discriminate H;
        destruct (follow LABEL_PATH _) as [[| | |t| |]|]; try discriminate H;
          destruct (truthy (trim t)); discriminate H.
    + intros (b & H). discriminate H.
    + intros H. exists body. split; [reflexivity|].
      destruct body; try discriminate H;
        (split; [discriminate|]);
        destruct (follow LABEL_PATH _) as [[| | |t| |]|]; try discriminate H;
          try exact I;
          (destruct (trim t); [reflexivity | discriminate H]).
    + intros (b & E & Hb & Hn). injection E as <-.
      destruct body; try congruence;
        destruct (follow LABEL_PATH _) as [[| | |t| |]|]; try contradiction;
          try reflexivity; rewrite Hn; reflexivity.
    + intros H. exists body.
      destruct body; try discriminate H;
        destruct (follow LABEL_PATH _) as [[| | |t| |]|]; try discriminate H;
          exists t; (split; [reflexivity|]); (split; [discriminate|]);
          (split; [reflexivity|]);
          (destruct (trim t); [discriminate H|]);
          injection H as <-; (split; [reflexivity | discriminate]).
    + intros (b & s & E & Hb & F & -> & Hne). injection E as <-.
      destruct body; try congruence; rewrite F;
        (destruct (trim s); [congruence | reflexivity]).
  - split; [|split; [|intros label]]; (split; [discriminate|]).
    + intros (b & H). discriminate H.
    + intros (b & H & _). discriminate H.
    + intros (b & s & H & _). discriminate H.
  - split; [split; [intros _; eexists; reflexivity | reflexivity]|].
    split; [|intros label];
      (split; [discriminate|]).
    + intros (b & H & _); discriminate H.
    + intros (b & s & H & _); discriminate H.
  - split; [split; [intros _; eexists; reflexivity | reflexivity]|].
    split; [|intros label];
      (split; [discriminate|]).
    + intros (b & H & _); discriminate H.
    + intros (b & s & H & _); discriminate H.
Qed.

(** C6: [analyzeImage] throws [MISSING_KEY] exactly when the key is
    empty, and then issues no request.  With a key it issues one request;
    it throws [API_ERROR] exactly when the response is not ok, and for an
    ok response with a JSON body other than [null] it throws
    [EMPTY_RESPONSE] exactly when the body holds no label and returns the
    trimmed text exactly when the text is a string with more than
    whitespace.  No response, a body that is not JSON or is [null], and a
    text that is no string end in the platform's error. *)
Theorem analyzeImage_outcomes :
  forall (base64Image apiKey : string) (fetch : Request -> FetchResult),
    let requests := fst (analyzeImage base64Image apiKey fetch) in
    let outcome := snd (analyzeImage base64Image apiKey fetch) in
    (outcome = Throws (Error "MISSING_KEY") <-> apiKey = EmptyString)
    /\ (apiKey = EmptyString -> requests = [])
    /\ (apiKey <> EmptyString ->
        exists request,
          requests = [request]
          /\ url request = (ENDPOINT ++ apiKey)%string
          /\ data request = nth_error (split_comma base64Image) 1
          /\ outcome
             = match fetch request with
               | Rejected => Throws TypeError
               | Resolved false _ => Throws (Error "API_ERROR")
               | Resolved true None => Throws SyntaxError
               | Resolved true (Some JNull) => Throws TypeError
               | Resolved true (Some body) =>
                   match follow LABEL_PATH (Some body) with
                   | None | Some JNull => Throws (Error "EMPTY_RESPONSE")
                   | Some (JString s) =>
                       if truthy (trim s) then Returns (trim s)
                       else Throws (Error "EMPTY_RESPONSE")
                   | Some _ => Throws TypeError
                   end
               end
          /\ (outcome = Throws (Error "API_ERROR")
              <-> exists body, fetch request = Resolved false body)
          /\ (outcome = Throws (Error "EMPTY_RESPONSE")
              <-> exists body,
                    fetch request = Resolved true (Some body)
                    /\ body <> JNull /\ no_label body)
          /\ (forall label,
                 outcome = Returns label
                 <-> exists body s,
                       fetch request = Resolved true (Some body)
                       /\ body <> JNull
                       /\ follow LABEL_PATH (Some body) = Some (JString s)
                       /\ label = trim s /\ label <> EmptyString)).
Proof.
  intros base64Image apiKey fetch. cbn zeta. unfold analyzeImage.
  destruct apiKey as [|c key]; cbn [truthy negb fst snd].
  - split; [tauto|]. split; [reflexivity | congruence].
  - split; [|split; [discriminate|]].
    + split; [|discriminate].
      destruct (fetch _) as [|[|] [body|]]; cbn [negb]; try discriminate.
      destruct (label_text body) as [e|[t|]] eqn:E; try discriminate.
      * destruct body; cbn in E;
          repeat match type of E with
                 | match ?x with _ => _ end = _ => destruct x
                 end; try discriminate; injection E as <-; discriminate.
      * destruct (truthy t); discriminate.
    + intros _. eexists. split; [reflexivity|].
      cbn [url data]. split; [reflexivity|]. split; [reflexivity|].
      match goal with
      | |- ?o = ?m /\ _ => assert (Hcase : o = m)
      end.
      { destruct (fetch _) as [|[|] [body|]]; cbn [negb]; try reflexivity.
        destruct (Json_is_null body) as [->|Hbody]; [reflexivity|].
        rewrite (label_text_follow body Hbody).
        destruct body; try congruence;
          destruct (follow LABEL_PATH _) as [[]|]; reflexivity. }
      split; [exact Hcase|]. apply outcome_cases. exact Hcase.
Qed.

End Recognize.

(* ================================================================= *)
(** ** Guessing *)

Section Guess.

(** [finalizeGuess] overwrites the cat's choice and reads neither it nor
    the interval. *)
Lemma finalizeGuess_overwrites (its : list Item) (t : Item) (r : Q)
    (s : State) (c : option Item) (iv : option Interval) :
  finalizeGuess its t r (set_interval None (set_interval iv (set_catChoice c s)))
  = finalizeGuess its t r (set_interval None s).
Proof.
  unfold finalizeGuess. cbn zeta.
  destruct (Js.index its _) as [pick|]; [|reflexivity].
  destruct (String.eqb (id pick) (id t)); reflexivity.
Qed.

(** A tick before the twelfth only moves the cat's choice and the
    counter. *)
Lemma tick_early (r rFinal : Q) (s : State) (iv : Interval) :
  interval s = Some iv -> iv_items iv <> [] -> Js.is_random r = true ->
  S (iv_ticks iv) < 12 ->
  exists chosen,
    In chosen (iv_items iv)
    /\ tick r rFinal s
       = set_interval
           (Some (mkInterval (iv_items iv) (iv_target iv) (S (iv_ticks iv))))
           (set_catChoice (Some chosen) s).
Proof.
  intros Hiv Hne Hr Hlt. unfold tick. rewrite Hiv. cbn zeta.
  destruct (index_draw (iv_items iv) r Hr Hne) as (k & x & _ & Hk & _ & ->).
  exists x. split; [eapply nth_error_In; eassumption|].
  destruct (Nat.leb 12 (S (iv_ticks iv))) eqn:E;
    [apply Nat.leb_le in E; lia | reflexivity].
Qed.

(** The twelfth tick stops the interval and resolves the guess. *)
Lemma tick_twelfth (r rFinal : Q) (s : State) (iv : Interval) :
  interval s = Some iv -> iv_items iv <> [] -> Js.is_random r = true ->
  S (iv_ticks iv) = 12 ->
  tick r rFinal s
  = finalizeGuess (iv_items iv) (iv_target iv) rFinal (set_interval None s).
Proof.
  intros Hiv Hne Hr Hlt. unfold tick. rewrite Hiv. cbn zeta.
  destruct (index_draw (iv_items iv) r Hr Hne) as (k & x & _ & Hk & _ & ->).
  rewrite Hlt. cbn [Nat.leb].
  apply (finalizeGuess_overwrites _ _ _ s (Some x) (interval s)).
Qed.


(** What [finalizeGuess] does with a list that has an item. *)
Lemma finalizeGuess_spec (its : list Item) (userTarget : Item) (r : Q)
    (s : State) :
  Js.is_random r = true -> its <> [] ->
  exists k pick,
    k < length its /\ nth_error its k = Some pick
    /\ (frac k (length its) <= r /\ r < frac (S k) (length its))%Q
    /\ finalizeGuess its userTarget r s
       = if String.eqb (id pick) (id userTarget) then
           set_timeouts (timeouts s ++ [mkTimeout 3000 ReturnToIdle])
             (set_catMessage MSG_SUCCESS
                (set_score (score s + 1)%Z
                   (set_catEmotion happy
                      (set_gameState success
                         (set_catChoice (Some pick) s)))))
         else
           set_catMessage MSG_FAIL
             (set_catEmotion sad
                (set_gameState fail (set_catChoice (Some pick) s))).
Proof.
  intros Hr Hne.
  destruct (index_draw its r Hr Hne) as (k & x & Hk & Hx & Hf & Hi).
  exists k, x. split; [exact Hk|]. split; [exact Hx|].
  split; [apply floor_times_spec; [lia | exact Hf]|].
  unfold finalizeGuess. rewrite Hi. reflexivity.
Qed.

Lemma frac_step (k n : nat) : (frac (S k) n - frac k n == frac 1 n)%Q.
Proof.
  unfold frac, Qeq, Qminus, Qplus, Qopp. cbn [Qnum Qden].
  change (Z.of_nat 1) with 1%Z. rewrite Nat2Z.inj_succ. nia.
Qed.


End Guess.

(* ================================================================= *)
(** ** The game and the repository along a run *)

Section Machine.

Lemma after_analyze_frame (r : Recognition.Outcome) (s : State) :
  frame (after_analyze r s) = frame s.
Proof.
  unfold after_analyze.
  destruct r as [label|[message| |]]; try reflexivity.
  destruct (_ || _); reflexivity.
Qed.

Lemma quiet_frame (s s' : State) (e : Event) :
  quiet e = true -> step s e = Some s' -> frame s' = frame s.
Proof.
  intros Hq H. destruct e; try discriminate Hq; cbn [step] in H.
  - destruct (_ && _); [|discriminate]. injection H as <-.
    unfold handleDragStart. destruct (negb _); reflexivity.
  - injection H as <-. reflexivity.
  - injection H as <-. reflexivity.
  - destruct (isAddModalOpen s); [|discriminate]. injection H as <-.
    reflexivity.
  - injection H as <-. reflexivity.
  - destruct (isSettingsOpen s); [|discriminate]. injection H as <-.
    reflexivity.
  - destruct (isSettingsOpen s); [|discriminate]. injection H as <-.
    reflexivity.
  - destruct (isAddModalOpen s); [|discriminate]. injection H as <-.
    reflexivity.
  - destruct (_ && _); [|discriminate]. injection H as <-.
    unfold handleFileChange. destruct file as [size|]; [|reflexivity].
    destruct (_ >? _)%Z; reflexivity.
  - destruct (nth_error _ _) as [[]|]; try discriminate.
    injection H as <-. reflexivity.
  - destruct (nth_error _ _) as [[]|]; try discriminate.
    injection H as <-. reflexivity.
  - destruct (nth_error _ _) as [[]|]; try discriminate.
    injection H as <-. rewrite after_analyze_frame. reflexivity.
Qed.

Lemma pending_returns_app (l1 l2 : list Timeout) :
  pending_returns (l1 ++ l2) = pending_returns l1 + pending_returns l2.
Proof.
  unfold pending_returns. rewrite filter_app, length_app. reflexivity.
Qed.

Lemma pending_returns_remove (l : list Timeout) (k : nat) (t : Timeout) :
  nth_error l k = Some t ->
  pending_returns l
  = pending_returns (remove_nth k l)
    + match callback t with ReturnToIdle => 1 | ClearErrorMsg => 0 end.
Proof.
  intros H. destruct (nth_error_cut l k t H) as [E _].
  rewrite <- E at 1. unfold remove_nth.
  rewrite !pending_returns_app.
  change (t :: skipn (S k) l) with ([t] ++ skipn (S k) l).
  rewrite pending_returns_app. unfold pending_returns at 2. simpl.
  destruct (callback t); simpl; lia.
Qed.

Lemma invariant_frame (s s' : State) :
  frame s' = frame s -> game_invariant s -> game_invariant s'.
Proof.
  unfold frame, game_invariant. intros E Inv.
  injection E as _ Eg Et Ei Eo _. rewrite Eg, Et, Ei, Eo. exact Inv.
Qed.

Lemma finalizeGuess_invariant (its : list Item) (t : Item) (r : Q)
    (s : State) :
  interval s = None -> gameState s = guessing -> game_invariant s ->
  game_invariant (finalizeGuess its t r s).
Proof.
  intros Hiv Hg (I1 & I2 & I3). unfold finalizeGuess. cbn zeta.
  rewrite Hg in *.
  assert (Ht : targetItem s <> None) by (apply I3; discriminate).
  destruct (Js.index its _) as [pick|].
  - destruct (String.eqb _ _); unfold game_invariant; simpl;
      repeat split; intros; try congruence.
    rewrite pending_returns_app, I2. reflexivity.
  - unfold game_invariant; simpl. rewrite Hg. repeat split; intros; congruence.
Qed.

Lemma step_invariant (s s' : State) (e : Event) :
  game_invariant s -> step s e = Some s' -> game_invariant s'.
Proof.
  intros Inv H.
  destruct (quiet e) eqn:Hq.
  { apply (invariant_frame s s'); [eapply quiet_frame; eassumption | exact Inv]. }
  destruct Inv as (I1 & I2 & I3).
  destruct e; try discriminate Hq; cbn [step] in H.
  - (* ItemClick *)
    destruct (nth_error _ _) as [item|]; [|discriminate]. injection H as <-.
    unfold handleItemClick. destruct (gameState s) eqn:Hg; cbn [is_idle negb];
      try (unfold game_invariant; rewrite Hg; auto; fail).
    unfold game_invariant. simpl.
    repeat split; intros; congruence.
  - (* DeleteClick *)
    destruct (is_idle (gameState s)) eqn:Hg; [|discriminate].
    destruct (nth_error _ _) as [item|]; [|discriminate]. injection H as <-.
    unfold handleDeleteItem. rewrite Hg. cbn [negb].
    destruct (Nat.leb _ _); unfold game_invariant; simpl; auto.
    rewrite pending_returns_app. unfold pending_returns at 2. simpl.
    rewrite Nat.add_0_r. auto.
  - (* DragOver *)
    destruct (Nat.ltb _ _); [|discriminate]. unfold handleDragOver in H.
    destruct (draggedItemIndex s); [|injection H as <-; unfold game_invariant; auto].
    destruct (Nat.eqb _ _); [injection H as <-; unfold game_invariant; auto|].
    destruct (reorder _ _ _); [|discriminate]. injection H as <-.
    unfold game_invariant. simpl. auto.
  - (* RetryClick *)
    destruct (gameState s) eqn:Hg; try discriminate. injection H as <-.
    unfold retry. destruct (targetItem s) eqn:Ht.
    + unfold game_invariant. simpl. repeat split; intros; congruence.
    + unfold game_invariant. rewrite Hg, Ht. auto.
  - (* ChooseAnotherClick *)
    destruct (gameState s) eqn:Hg; try discriminate. injection H as <-.
    unfold game_invariant. simpl. repeat split; intros; try congruence.
    destruct (interval s); [|congruence].
    assert (fail = guessing) by (apply I1; discriminate). discriminate.
  - (* SaveClick *)
    destruct (_ && _); [|discriminate]. injection H as <-.
    unfold saveNewItem. destruct (newItemImage s); [|unfold game_invariant; auto].
    destruct (_ && _); unfold game_invariant; simpl; auto.
  - (* IntervalFires *)
    destruct (interval s) as [iv|] eqn:Hiv; [|discriminate].
    destruct (_ && _); [|discriminate]. injection H as <-.
    assert (Hg : gameState s = guessing) by (apply I1; discriminate).
    unfold tick. rewrite Hiv. cbn zeta.
    destruct (Js.index _ _).
    + destruct (Nat.leb _ _).
      * apply finalizeGuess_invariant; try reflexivity; try exact Hg.
        unfold game_invariant. simpl. repeat split; auto; congruence.
      * unfold game_invariant. simpl. auto.
    + unfold game_invariant. simpl. rewrite Hiv. auto.
  - (* TimeoutFires *)
    destruct (nth_error _ _) as [t|] eqn:Ht; [|discriminate].
    injection H as <-.
    pose proof (pending_returns_remove _ _ _ Ht) as Hp.
    destruct (callback t) eqn:Hc; unfold game_invariant; simpl.
    + destruct (gameState s) eqn:Hg; try lia.
      repeat split; intros; try congruence; try lia.
      destruct (interval s); [|congruence].
      assert (success = guessing) by (apply I1; discriminate). discriminate.
    + rewrite Nat.add_0_r in Hp. rewrite <- Hp. auto.
Qed.

Lemma run_invariant (events : list Event) :
  forall s s', game_invariant s -> run s events = Some s' -> game_invariant s'.
Proof.
  induction events as [|e events IH]; intros s s' Inv H; simpl in H.
  - injection H as <-. exact Inv.
  - destruct (step s e) as [s1|] eqn:E; [|discriminate].
    apply (IH s1); [eapply step_invariant; eassumption | exact H].
Qed.

Lemma reachable_invariant (s : State) : reachable s -> game_invariant s.
Proof.
  intros (its & key & events & H).
  apply (run_invariant events (initialState its key)); [|exact H].
  unfold game_invariant. simpl. repeat split; intros; congruence.
Qed.

Lemma nth_pending (l : list Timeout) (k : nat) (t : Timeout) :
  nth_error l k = Some t -> callback t = ReturnToIdle ->
  0 < pending_returns l.
Proof.
  intros H Hc. rewrite (pending_returns_remove l k t H), Hc. lia.
Qed.

(** C4: out of [fail] only the two buttons lead: no other event changes
    the game state.  Retry starts a guess for the target that is still
    selected; the other button returns to [idle] and leaves the target
    selected. *)
Theorem fail_exits_by_user_only :
  forall s : State,
    reachable s -> gameState s = fail ->
    (forall (e : Event) (s' : State),
        step s e = Some s' -> gameState s' <> fail ->
        e = RetryClick \/ e = ChooseAnotherClick)
    /\ (exists target,
           targetItem s = Some target
           /\ step s RetryClick = Some (startCatGuessing target s)
           /\ gameState (startCatGuessing target s) = guessing
           /\ targetItem (startCatGuessing target s) = Some target
           /\ interval (startCatGuessing target s)
              = Some (mkInterval (items s) target 0))
    /\ (step s ChooseAnotherClick = Some (chooseAnother s)
        /\ gameState (chooseAnother s) = idle
        /\ targetItem (chooseAnother s) = targetItem s
        /\ targetItem (chooseAnother s) <> None).
Proof.
  intros s Hreach Hfail.
  destruct (reachable_invariant s Hreach) as (I1 & I2 & I3).
  rewrite Hfail in *.
  assert (Hiv : interval s = None).
  { destruct (interval s); [|reflexivity].
    assert (fail = guessing) by (apply I1; discriminate). discriminate. }
  assert (Ht : targetItem s <> None) by (apply I3; discriminate).
  split; [|split].
  - intros e s' H Hexit.
    destruct (quiet e) eqn:Hq.
    { exfalso. apply Hexit. apply quiet_frame in H; [|exact Hq].
      unfold frame in H. injection H as _ -> _ _ _ _. exact Hfail. }
    destruct e; try discriminate Hq; cbn [step] in H; auto;
      exfalso; apply Hexit.
    + destruct (nth_error _ _); [|discriminate]. injection H as <-.
      unfold handleItemClick. rewrite Hfail. exact Hfail.
    + rewrite Hfail in H. discriminate.
    + destruct (Nat.ltb _ _); [|discriminate]. unfold handleDragOver in H.
      destruct (draggedItemIndex s); [|injection H as <-; exact Hfail].
      destruct (Nat.eqb _ _); [injection H as <-; exact Hfail|].
      destruct (reorder _ _ _); [|discriminate]. injection H as <-.
      exact Hfail.
    + destruct (_ && _); [|discriminate]. injection H as <-.
      unfold saveNewItem. destruct (newItemImage s); [|exact Hfail].
      destruct (_ && _); exact Hfail.
    + rewrite Hiv in H. discriminate.
    + destruct (nth_error _ _) as [t|] eqn:Et; [|discriminate].
      injection H as <-.
      destruct (callback t) eqn:Hc; [|exact Hfail].
      pose proof (nth_pending _ _ _ Et Hc). lia.
  - destruct (targetItem s) as [target|] eqn:Et; [|congruence].
    exists target. cbn [step]. rewrite Hfail. unfold retry. rewrite Et.
    repeat split. exact Et.
  - cbn [step]. rewrite Hfail. repeat split. exact Ht.
Qed.

Lemma filter_other_ids (l : list Item) (x : string) :
  ~ In x (ids l) ->
  filter (fun item => negb (String.eqb (id item) x)) l = l.
Proof.
  induction l as [|a l IH]; intros H; simpl; [reflexivity|].
  simpl in H. destruct (String.eqb (id a) x) eqn:E.
  - apply String.eqb_eq in E. tauto.
  - simpl. rewrite IH; tauto.
Qed.

Lemma filter_drops_one (l : list Item) (x : string) :
  NoDup (ids l) ->
  length l <= S (length (filter (fun item => negb (String.eqb (id item) x)) l)).
Proof.
  induction l as [|a l IH]; intros H; simpl; [lia|].
  inversion H as [|? ? Hnotin Hnd]; subst.
  destruct (String.eqb (id a) x) eqn:E; simpl.
  - apply String.eqb_eq in E. subst x.
    rewrite (filter_other_ids l (id a) Hnotin). lia.
  - specialize (IH Hnd). lia.
Qed.

Lemma NoDup_ids_filter (p : Item -> bool) (l : list Item) :
  NoDup (ids l) -> NoDup (ids (filter p l)).
Proof.
  induction l as [|a l IH]; intros H; simpl; [constructor|].
  inversion H as [|? ? Hnotin Hnd]; subst.
  destruct (p a); simpl; [|auto].
  constructor; [|auto]. intros Hin. apply Hnotin.
  unfold ids in *. apply in_map_iff in Hin. destruct Hin as (b & Eb & Hb).
  apply filter_In in Hb. apply in_map_iff. exists b. tauto.
Qed.

Lemma delete_store (s : State) (itemId : string) :
  store_ok s -> store_ok (handleDeleteItem itemId s).
Proof.
  intros [Hne Hnd]. unfold handleDeleteItem.
  destruct (negb _); [split; assumption|].
  destruct (Nat.leb _ _) eqn:E; [split; assumption|].
  apply Nat.leb_gt in E. unfold store_ok. cbn [items set_items].
  split; [|apply NoDup_ids_filter; exact Hnd].
  pose proof (filter_drops_one (items s) itemId Hnd) as H.
  intros E0. rewrite E0 in H. simpl in H. lia.
Qed.

Lemma finalizeGuess_items (its : list Item) (t : Item) (r : Q) (s : State) :
  items (finalizeGuess its t r s) = items s.
Proof.
  unfold finalizeGuess. cbn zeta. destruct (Js.index _ _); [|reflexivity].
  destruct (String.eqb _ _); reflexivity.
Qed.

Lemma tick_items (r rFinal : Q) (s : State) :
  items (tick r rFinal s) = items s.
Proof.
  unfold tick. destruct (interval s); [|reflexivity]. cbn zeta.
  destruct (Js.index _ _); [|reflexivity].
  destruct (Nat.leb _ _); [|reflexivity].
  rewrite finalizeGuess_items. reflexivity.
Qed.

Lemma perm_store (s s' : State) :
  Permutation (items s) (items s') -> store_ok s -> store_ok s'.
Proof.
  intros P [Hne Hnd]. split.
  - intros E. rewrite E in P. apply Permutation_sym, Permutation_nil in P.
    contradiction.
  - apply (Permutation_NoDup (l := ids (items s))); [|exact Hnd].
    apply Permutation_map. exact P.
Qed.

Lemma step_store (s s' : State) (e : Event) :
  store_ok s ->
  match e with
  | SaveClick now => ~ In (Js.number_toString now) (ids (items s))
  | _ => True
  end ->
  step s e = Some s' -> store_ok s'.
Proof.
  intros Ok Hfresh H.
  assert (Same : items s' = items s -> store_ok s').
  { intros E. unfold store_ok. rewrite E. exact Ok. }
  destruct (quiet e) eqn:Hq.
  { apply Same. apply quiet_frame in H; [|exact Hq].
    unfold frame in H. injection H as -> _ _ _ _ _. reflexivity. }
  destruct e; try discriminate Hq; cbn [step] in H.
  - destruct (nth_error _ _); [|discriminate]. injection H as <-.
    apply Same. unfold handleItemClick. destruct (negb _); reflexivity.
  - destruct (is_idle _); [|discriminate].
    destruct (nth_error _ _); [|discriminate]. injection H as <-.
    apply delete_store. exact Ok.
  - destruct (Nat.ltb _ _); [|discriminate]. unfold handleDragOver in H.
    destruct (draggedItemIndex s) as [d|];
      [|injection H as <-; exact Ok].
    destruct (Nat.eqb _ _); [injection H as <-; exact Ok|].
    destruct (reorder (items s) d index) as [l'|] eqn:E; [|discriminate].
    injection H as <-. apply (perm_store s); [|exact Ok].
    cbn [items set_items set_draggedItemIndex].
    unfold reorder in E.
    destruct (nth_error (items s) d) as [x|] eqn:Ex.
    + rewrite (splice_remove1_spec _ _ _ Ex) in E. injection E as <-.
      etransitivity; [apply (remove_nth_perm _ _ _ Ex)|].
      apply splice_insert_perm.
    + apply nth_error_None in Ex. unfold Js.splice_remove1 in E.
      rewrite skipn_all2 in E by lia. discriminate.
  - destruct (is_fail _); [|discriminate]. injection H as <-.
    apply Same. unfold retry. destruct (targetItem s); reflexivity.
  - destruct (is_fail _); [|discriminate]. injection H as <-.
    apply Same. reflexivity.
  - destruct (_ && _); [|discriminate]. injection H as <-.
    unfold saveNewItem. destruct (newItemImage s); [|exact Ok].
    destruct (_ && _); [|exact Ok].
    destruct Ok as [Hne Hnd]. unfold store_ok.
    cbn [items set_items set_isAddModalOpen set_newItemName set_newItemImage].
    split; [intros E; apply app_eq_nil in E; destruct E; discriminate|].
    unfold ids. rewrite map_app. cbn [map id].
    apply NoDup_app; [exact Hnd | repeat constructor; simpl; tauto |].
    intros x Hin [<-|[]]. exact (Hfresh Hin).
  - destruct (interval s); [|discriminate].
    destruct (_ && _); [|discriminate]. injection H as <-.
    apply Same. apply tick_items.
  - destruct (nth_error _ _) as [t|]; [|discriminate]. injection H as <-.
    apply Same. destruct (callback t); reflexivity.
Qed.

Lemma run_store (events : list Event) :
  forall s s',
    store_ok s -> fresh_clock s events -> run s events = Some s' ->
    store_ok s'.
Proof.
  induction events as [|e events IH]; intros s s' Ok Hf H; simpl in H.
  - injection H as <-. exact Ok.
  - destruct Hf as [Hf1 Hf2].
    destruct (step s e) as [s1|] eqn:E; [|discriminate].
    apply (IH s1); [eapply step_store; eassumption | exact Hf2 | exact H].
Qed.

(** X19: on a list of at most one item a delete changes no item; in
    [idle] it sets the message and a timeout of 3000 ms that clears it,
    outside [idle] it does nothing at all.  With pairwise distinct ids no
    delete empties a list that holds an item, and no run of events does
    in which every added item gets an id not yet in the list. *)
Theorem delete_keeps_the_last_item :
  (forall (s : State) (itemId : string),
      length (items s) <= 1 ->
      items (handleDeleteItem itemId s) = items s
      /\ (gameState s = idle ->
          errorMsg (handleDeleteItem itemId s) = MSG_LAST_ITEM
          /\ timeouts (handleDeleteItem itemId s)
             = timeouts s ++ [mkTimeout 3000 ClearErrorMsg]
          /\ errorMsg (run_callback ClearErrorMsg (handleDeleteItem itemId s))
             = EmptyString)
      /\ (gameState s <> idle -> handleDeleteItem itemId s = s))
  /\ (forall (s : State) (itemId : string),
         items s <> [] -> NoDup (ids (items s)) ->
         items (handleDeleteItem itemId s) <> [])
  /\ (forall (s s' : State) (events : list Event),
         items s <> [] -> NoDup (ids (items s)) ->
         fresh_clock s events -> run s events = Some s' ->
         items s' <> [] /\ NoDup (ids (items s'))).
Proof.
  split; [|split].
  - intros s itemId Hlen. unfold handleDeleteItem.
    destruct (gameState s) eqn:Hg; cbn [is_idle negb];
      try (repeat split; intros; congruence).
    apply Nat.leb_le in Hlen. rewrite Hlen.
    repeat split; intros; congruence.
  - intros s itemId Hne Hnd.
    apply (delete_store s itemId (conj Hne Hnd)).
  - intros s s' events Hne Hnd Hf H.
    apply (run_store events s s' (conj Hne Hnd) Hf H).
Qed.


End Machine.

(* ================================================================= *)
(** ** Further properties of the game *)

Section Game.

Lemma step_frame_cases (s s' : State) (e : Event) :
  step s e = Some s' ->
  match e with
  | ItemClick i =>
      s' = s
      \/ (gameState s = idle
          /\ exists item,
               nth_error (items s) i = Some item
               /\ s' = startCatGuessing item (set_targetItem (Some item) s))
  | DeleteClick i =>
      gameState s = idle
      /\ exists item,
           nth_error (items s) i = Some item
           /\ s' = handleDeleteItem (id item) s
  | DragOver i =>
      s' = s
      \/ exists d l',
           draggedItemIndex s = Some d /\ d <> i
           /\ reorder (items s) d i = Some l'
           /\ s' = set_draggedItemIndex (Some i) (set_items l' s)
  | RetryClick => gameState s = fail /\ s' = retry s
  | ChooseAnotherClick => gameState s = fail /\ s' = chooseAnother s
  | SaveClick now =>
      s' = s
      \/ exists newImage,
           newItemImage s = Some newImage
           /\ newItemName s <> EmptyString /\ newImage <> EmptyString
           /\ s' = saveNewItem now s
           /\ items s'
              = items s
                ++ [mkItem (Js.number_toString now) (newItemName s) newImage]
           /\ frame s'
              = (items s', gameState s, targetItem s, interval s, timeouts s,
                 score s)
  | IntervalFires r rFinal =>
      Js.is_random r = true /\ Js.is_random rFinal = true
      /\ interval s <> None /\ s' = tick r rFinal s
  | TimeoutFires k =>
      exists t,
        nth_error (timeouts s) k = Some t
        /\ s' = run_callback (callback t)
                  (set_timeouts (remove_nth k (timeouts s)) s)
  | _ => frame s' = frame s
  end.
Proof.
  intros H.
  destruct (quiet e) eqn:Hq.
  { pose proof (quiet_frame s s' e Hq H) as F.
    destruct e; try discriminate Hq; exact F. }
  destruct e; try discriminate Hq; cbn [step] in H.
  - destruct (nth_error _ _) as [item|] eqn:E; [|discriminate].
    injection H as <-. unfold handleItemClick.
    destruct (gameState s) eqn:G; cbn [is_idle negb]; auto.
    right. split; [reflexivity|]. exists item. auto.
  - destruct (gameState s) eqn:G; try discriminate. cbn [is_idle] in H.
    destruct (nth_error _ _) as [item|] eqn:E; [|discriminate].
    injection H as <-. split; [reflexivity|]. exists item. auto.
  - destruct (Nat.ltb _ _); [|discriminate]. unfold handleDragOver in H.
    destruct (draggedItemIndex s) as [d|]; [|injection H as <-; auto].
    destruct (Nat.eqb d index) eqn:Ed; [injection H as <-; auto|].
    apply Nat.eqb_neq in Ed.
    destruct (reorder _ _ _) as [l'|] eqn:E; [|discriminate].
    injection H as <-. right. exists d, l'. auto.
  - destruct (gameState s); try discriminate. injection H as <-. auto.
  - destruct (gameState s); try discriminate. injection H as <-. auto.
  - destruct (_ && _); [|discriminate]. injection H as <-.
    destruct (newItemImage s) as [img|] eqn:Ei;
      [|left; unfold saveNewItem; rewrite Ei; reflexivity].
    destruct (newItemName s) as [|c n] eqn:En;
      [left; unfold saveNewItem; rewrite Ei, En; reflexivity|].
    destruct img as [|c' i];
      [left; unfold saveNewItem; rewrite Ei, En; reflexivity|].
    right. exists (String c' i).
    split; [reflexivity|]. split; [discriminate|]. split; [discriminate|].
    unfold saveNewItem. rewrite Ei, En. repeat split.
  - destruct (interval s) eqn:Ei; [|discriminate].
    destruct (Js.is_random r) eqn:Er; [|discriminate].
    destruct (Js.is_random rFinal) eqn:Ef; [|discriminate].
    injection H as <-. repeat split. discriminate.
  - destruct (nth_error _ _) as [t|] eqn:E; [|discriminate].
    injection H as <-. exists t. auto.
Qed.

Lemma finalizeGuess_cases (its : list Item) (t : Item) (r : Q) (s : State) :
  finalizeGuess its t r s = set_catChoice None s
  \/ exists pick,
       In pick its
       /\ ((id pick = id t
            /\ finalizeGuess its t r s
               = set_timeouts (timeouts s ++ [mkTimeout 3000 ReturnToIdle])
                   (set_catMessage MSG_SUCCESS
                      (set_score (score s + 1)%Z
                         (set_catEmotion happy
                            (set_gameState success
                               (set_catChoice (Some pick) s))))))
           \/ (id pick <> id t
               /\ finalizeGuess its t r s
                  = set_catMessage MSG_FAIL
                      (set_catEmotion sad
                         (set_gameState fail
                            (set_catChoice (Some pick) s))))).
Proof.
  unfold finalizeGuess. cbn zeta.
  destruct (Js.index its _) as [pick|] eqn:E; [|left; reflexivity].
  right. exists pick. split.
  - unfold Js.index in E. destruct (_ <? _)%Z; [discriminate|].
    eapply nth_error_In; eassumption.
  - destruct (String.eqb (id pick) (id t)) eqn:Eid.
    + left. apply String.eqb_eq in Eid. auto.
    + right. apply String.eqb_neq in Eid. auto.
Qed.

(** What one run of the interval callback does. *)
Lemma tick_cases (r rFinal : Q) (s : State) (iv : Interval) :
  interval s = Some iv ->
  tick r rFinal s = set_catChoice None s
  \/ (exists chosen,
         In chosen (iv_items iv) /\ S (iv_ticks iv) < 12
         /\ tick r rFinal s
            = set_interval
                (Some (mkInterval (iv_items iv) (iv_target iv)
                         (S (iv_ticks iv))))
                (set_catChoice (Some chosen) s))
  \/ (12 <= S (iv_ticks iv)
      /\ tick r rFinal s
         = finalizeGuess (iv_items iv) (iv_target iv) rFinal
             (set_interval None s)).
Proof.
  intros Hiv. unfold tick. rewrite Hiv. cbn zeta.
  destruct (Js.index (iv_items iv) _) as [chosen|] eqn:E; [|left; reflexivity].
  right. destruct (Nat.leb 12 (S (iv_ticks iv))) eqn:L.
  - right. apply Nat.leb_le in L. split; [exact L|].
    apply (finalizeGuess_overwrites _ _ _ s (Some chosen) (interval s)).
  - left. apply Nat.leb_gt in L. exists chosen. split; [|split; auto].
    unfold Js.index in E. destruct (_ <? _)%Z; [discriminate|].
    eapply nth_error_In; eassumption.
Qed.

(** X1: an event leaves the score as it is or, when it is the interval
    run that resolves a guess to [success], adds one; along a run the score
    never goes down and rises by at most one per event. *)
Theorem score_counts_successes :
  forall (events : list Event) (s s' : State),
    run s events = Some s' ->
    (score s <= score s' <= score s + Z.of_nat (length events))%Z
    /\ (forall (e : Event) (s1 s2 : State),
           step s1 e = Some s2 ->
           score s2 = score s1
           \/ (score s2 = (score s1 + 1)%Z /\ gameState s2 = success
               /\ exists r rFinal, e = IntervalFires r rFinal)).
Proof.
  assert (Step : forall (e : Event) (s1 s2 : State),
             step s1 e = Some s2 ->
             score s2 = score s1
             \/ (score s2 = (score s1 + 1)%Z /\ gameState s2 = success
                 /\ exists r rFinal, e = IntervalFires r rFinal)).
  { intros e s1 s2 H. pose proof (step_frame_cases s1 s2 e H) as C.
    destruct e;
      try (left; unfold frame in C; injection C as _ _ _ _ _ C; exact C).
    - destruct C as [->|(_ & item & _ & ->)]; left; reflexivity.
    - destruct C as (_ & item & _ & ->). left. unfold handleDeleteItem.
      destruct (negb _); [reflexivity|]. destruct (Nat.leb _ _); reflexivity.
    - destruct C as [->|(d & l' & _ & _ & _ & ->)]; left; reflexivity.
    - destruct C as (_ & ->). left. unfold retry.
      destruct (targetItem s1); reflexivity.
    - destruct C as (_ & ->). left. reflexivity.
    - destruct C as [->|(img & _ & _ & _ & _ & _ & F)]; left; [reflexivity|].
      unfold frame in F. injection F as _ _ _ _ F. exact F.
    - destruct C as (_ & _ & Hiv & ->).
      destruct (interval s1) as [iv|] eqn:Ei; [|congruence].
      destruct (tick_cases r rFinal s1 iv Ei)
        as [->|[(c & _ & _ & ->)|(_ & ->)]]; try (left; reflexivity).
      destruct (finalizeGuess_cases (iv_items iv) (iv_target iv) rFinal
                  (set_interval None s1))
        as [->|(pick & _ & [(_ & ->)|(_ & ->)])];
        try (left; reflexivity).
      right. split; [reflexivity|]. split; [reflexivity|]. eauto.
    - destruct C as (t & _ & ->). left. destruct (callback t); reflexivity. }
  intros events. induction events as [|e events IH]; intros s s' H.
  - injection H as <-. split; [simpl; lia | exact Step].
  - split; [|exact Step]. cbn [run] in H.
    destruct (step s e) as [s1|] eqn:E; [|discriminate].
    destruct (IH s1 s' H) as [B _].
    destruct (Step e s s1 E) as [Q|(Q & _)]; rewrite Q in B;
      cbn [length]; lia.
Qed.

Lemma interval_means_guessing (s : State) :
  game_invariant s -> gameState s <> guessing -> interval s = None.
Proof.
  intros (I1 & _) G. destruct (interval s); [|reflexivity].
  exfalso. apply G, I1. discriminate.
Qed.

Lemma return_means_success (s : State) (k : nat) (t : Timeout) :
  game_invariant s -> nth_error (timeouts s) k = Some t ->
  callback t = ReturnToIdle -> gameState s = success.
Proof.
  intros (_ & I2 & _) Ht Hc. pose proof (nth_pending _ _ _ Ht Hc) as P.
  destruct (gameState s); try reflexivity; lia.
Qed.

(** X2: every change of the game state in a reachable state is one of
    the six moves of the state machine, and each move has its one kind of
    event: a click on an item (idle to guessing), a run of the interval
    (guessing to success or fail), the timeout (success to idle), retry
    (fail to guessing), the other button (fail to idle). *)
Theorem game_state_moves :
  forall (s s' : State) (e : Event),
    reachable s -> step s e = Some s' ->
    gameState s' = gameState s
    \/ (transition (gameState s) (gameState s') = true
        /\ match e with
           | ItemClick _ => gameState s = idle /\ gameState s' = guessing
           | IntervalFires _ _ =>
               gameState s = guessing
               /\ (gameState s' = success \/ gameState s' = fail)
           | TimeoutFires _ => gameState s = success /\ gameState s' = idle
           | RetryClick => gameState s = fail /\ gameState s' = guessing
           | ChooseAnotherClick => gameState s = fail /\ gameState s' = idle
           | _ => False
           end).
Proof.
  intros s s' e Hr H.
  pose proof (reachable_invariant s Hr) as Inv.
  pose proof (step_frame_cases s s' e H) as C.
  destruct e;
    try (left; unfold frame in C; injection C as _ C _ _ _ _; exact C).
  - destruct C as [->|(G & item & _ & ->)]; [left; reflexivity|].
    right. rewrite G. repeat split.
  - destruct C as (_ & item & _ & ->). left. unfold handleDeleteItem.
    destruct (negb _); [reflexivity|]. destruct (Nat.leb _ _); reflexivity.
  - destruct C as [->|(d & l' & _ & _ & _ & ->)]; left; reflexivity.
  - destruct C as (G & ->). unfold retry.
    destruct (targetItem s); [|left; reflexivity].
    right. rewrite G. repeat split.
  - destruct C as (G & ->). right. rewrite G. repeat split.
  - destruct C as [->|(img & _ & _ & _ & _ & _ & F)]; left; [reflexivity|].
    unfold frame in F. injection F as F _ _ _ _. exact F.
  - destruct C as (_ & _ & Hiv & ->).
    destruct (interval s) as [iv|] eqn:Ei; [|congruence].
    assert (G : gameState s = guessing)
      by (apply (proj1 Inv); rewrite Ei; discriminate).
    destruct (tick_cases r rFinal s iv Ei)
      as [->|[(c & _ & _ & ->)|(_ & ->)]]; try (left; reflexivity).
    destruct (finalizeGuess_cases (iv_items iv) (iv_target iv) rFinal
                (set_interval None s))
      as [->|(pick & _ & [(_ & ->)|(_ & ->)])];
      try (left; reflexivity);
      right; rewrite G; repeat split; auto.
  - destruct C as (t & Ht & ->).
    destruct (callback t) eqn:Hc; [|left; reflexivity].
    pose proof (return_means_success s k t Inv Ht Hc) as G.
    right. rewrite G. repeat split.
Qed.

Lemma reorder_perm (l l' : list Item) (d i : nat) :
  reorder l d i = Some l' -> Permutation l l'.
Proof.
  unfold reorder. intros E.
  destruct (nth_error l d) as [x|] eqn:Ex.
  - rewrite (splice_remove1_spec _ _ _ Ex) in E. injection E as <-.
    etransitivity; [apply (remove_nth_perm _ _ _ Ex)|].
    apply splice_insert_perm.
  - apply nth_error_None in Ex. unfold Js.splice_remove1 in E.
    rewrite skipn_all2 in E by lia. discriminate.
Qed.

Lemma guess_invariant_items (s s' : State) :
  gameState s' = gameState s -> targetItem s' = targetItem s ->
  interval s' = interval s -> incl (items s) (items s') ->
  guess_invariant s -> guess_invariant s'.
Proof.
  intros Eg Et Ei Hincl (G1 & G2). unfold guess_invariant.
  rewrite Eg, Et, Ei. split.
  - intros Hg. destruct (G1 Hg) as (t & T1 & T2). exists t. auto.
  - intros iv Hiv. destruct (G2 iv Hiv) as (A & B & C & D).
    repeat split; auto. intros x Hx. auto.
Qed.

Lemma started_guess_invariant (s : State) (item : Item) :
  In item (items s) -> targetItem s = Some item ->
  guess_invariant (startCatGuessing item s).
Proof.
  intros Hin Ht. split; cbn.
  - intros _. exists item. auto.
  - intros iv E. injection E as <-. cbn.
    repeat split; first [assumption | apply incl_refl | lia].
Qed.

Lemma step_guess_invariant (s s' : State) (e : Event) :
  game_invariant s -> guess_invariant s -> step s e = Some s' ->
  guess_invariant s'.
Proof.
  intros Inv G H. pose proof (step_frame_cases s s' e H) as C.
  assert (Frame : frame s' = frame s -> guess_invariant s').
  { intros F. unfold frame in F. injection F as Fi Fg Ft Fv _ _.
    apply (guess_invariant_items s); auto. rewrite Fi. apply incl_refl. }
  destruct e; try (apply Frame; exact C).
  - destruct C as [->|(Hg & item & Hi & ->)]; [exact G|].
    apply (started_guess_invariant (set_targetItem (Some item) s));
      [|reflexivity].
    cbn. eapply nth_error_In; eassumption.
  - destruct C as (Hg & item & _ & ->).
    assert (Hiv : interval s = None)
      by (apply interval_means_guessing; [exact Inv | congruence]).
    unfold handleDeleteItem. rewrite Hg. cbn [is_idle negb].
    destruct (Nat.leb _ _); (split; cbn;
      [intros N; congruence | intros iv E; congruence]).
  - destruct C as [->|(d & l' & _ & _ & E & ->)]; [exact G|].
    apply (guess_invariant_items s); try reflexivity; [|exact G].
    cbn. intros x Hx. apply (Permutation_in x (reorder_perm _ _ _ _ E) Hx).
  - destruct C as (Hg & ->). unfold retry.
    destruct (targetItem s) as [t|] eqn:Et; [|exact G].
    destruct (proj1 G) as (t' & T1 & T2); [congruence|].
    assert (t' = t) by congruence. subst t'.
    apply started_guess_invariant; assumption.
  - destruct C as (Hg & ->).
    assert (Hiv : interval s = None)
      by (apply interval_means_guessing; [exact Inv | congruence]).
    split; cbn; [intros N; congruence | intros iv E; congruence].
  - destruct C as [->|(img & _ & _ & _ & _ & Hi & F)]; [exact G|].
    unfold frame in F. injection F as Fg Ft Fv _ _.
    apply (guess_invariant_items s); auto.
    rewrite Hi. apply incl_appl, incl_refl.
  - destruct C as (_ & _ & Hne & ->).
    destruct (interval s) as [iv|] eqn:Ei; [|congruence].
    assert (Hg : gameState s = guessing)
      by (apply (proj1 Inv); rewrite Ei; discriminate).
    destruct (proj1 G) as (t & T1 & T2); [congruence|].
    destruct (proj2 G iv Ei) as (A & B & Cc & D).
    destruct (tick_cases r rFinal s iv Ei)
      as [->|[(c & _ & L & ->)|(_ & ->)]].
    + apply (guess_invariant_items s); try reflexivity; [|exact G].
      apply incl_refl.
    + split; cbn.
      * intros _. exists t. auto.
      * intros iv' E. injection E as <-. cbn. auto.
    + destruct (finalizeGuess_cases (iv_items iv) (iv_target iv) rFinal
                  (set_interval None s))
        as [->|(pick & _ & [(_ & ->)|(_ & ->)])];
        (split; cbn; [intros _; exists t; auto | intros iv' E; discriminate]).
  - destruct C as (t & Ht & ->).
    destruct (callback t) eqn:Hc.
    + assert (Hiv : interval s = None).
      { apply interval_means_guessing; [exact Inv|].
        rewrite (return_means_success s k t Inv Ht Hc). discriminate. }
      split; cbn; [intros N; congruence | intros iv E; congruence].
    + apply (guess_invariant_items s); try reflexivity; [|exact G].
      apply incl_refl.
Qed.

Lemma reachable_guess_invariant (s : State) :
  reachable s -> guess_invariant s.
Proof.
  intros (its & key & events & H).
  assert (Both : forall evs a b,
             game_invariant a -> guess_invariant a -> run a evs = Some b ->
             guess_invariant b).
  { induction evs as [|e evs IH]; intros a b Ia Ga R; cbn [run] in R.
    - injection R as <-. exact Ga.
    - destruct (step a e) as [a1|] eqn:E; [|discriminate].
      apply (IH a1 b); [| |exact R].
      + eapply step_invariant; eassumption.
      + eapply step_guess_invariant; eassumption. }
  apply (Both events (initialState its key)); [| |exact H].
  - unfold game_invariant. cbn. repeat split; intros; congruence.
  - split; cbn; [intros N; congruence | intros iv E; discriminate].
Qed.

Lemma running_interval_invariant (s : State) :
  reachable s ->
  forall iv,
    interval s = Some iv ->
    gameState s = guessing
    /\ targetItem s = Some (iv_target iv)
    /\ In (iv_target iv) (iv_items iv)
    /\ incl (iv_items iv) (items s)
    /\ iv_ticks iv < 12.
Proof.
  intros Hr iv Hiv. destruct (reachable_guess_invariant s Hr) as (_ & G2).
  split; [|apply G2; exact Hiv].
  apply (proj1 (reachable_invariant s Hr)). rewrite Hiv. discriminate.
Qed.

(** X3: in every reachable state outside [idle] the selected target is
    an item of the repository, and a running interval guesses for that
    target over a list that holds it and whose items are all in the
    repository, having run fewer than twelve times. *)
Theorem guess_is_for_the_selected_target :
  forall s : State,
    reachable s ->
    (gameState s <> idle ->
     exists target, targetItem s = Some target /\ In target (items s))
    /\ (forall iv,
           interval s = Some iv ->
           gameState s = guessing
           /\ targetItem s = Some (iv_target iv)
           /\ In (iv_target iv) (iv_items iv)
           /\ incl (iv_items iv) (items s)
           /\ iv_ticks iv < 12).
Proof.
  intros s Hr. split.
  - apply (reachable_guess_invariant s Hr).
  - apply running_interval_invariant. exact Hr.
Qed.

Lemma in_nonempty {A : Type} (x : A) (l : list A) : In x l -> l <> [].
Proof. intros H E. rewrite E in H. exact H. Qed.

(** X4: in a reachable state a run of the interval never throws: it
    shows an item of the repository and changes no item; before the
    twelfth run nothing else but the counter moves, and the twelfth run
    stops the interval and resolves the guess, to [success] exactly when
    the item shown has the target's id. *)
Theorem interval_run_shows_an_item :
  forall (s : State) (iv : Interval) (r rFinal : Q),
    reachable s -> interval s = Some iv ->
    Js.is_random r = true -> Js.is_random rFinal = true ->
    exists s' shown,
      step s (IntervalFires r rFinal) = Some s'
      /\ catChoice s' = Some shown /\ In shown (items s)
      /\ items s' = items s /\ targetItem s' = targetItem s
      /\ (S (iv_ticks iv) < 12 ->
          gameState s' = guessing /\ score s' = score s
          /\ interval s'
             = Some (mkInterval (iv_items iv) (iv_target iv)
                       (S (iv_ticks iv))))
      /\ (S (iv_ticks iv) = 12 ->
          interval s' = None
          /\ (gameState s' = success \/ gameState s' = fail)
          /\ (gameState s' = success <-> id shown = id (iv_target iv))).
Proof.
  intros s iv r rFinal Hr Hiv Rr Rf.
  destruct (running_interval_invariant s Hr iv Hiv)
    as (Hg & Ht & Hin & Hincl & Hlt).
  pose proof (in_nonempty _ _ Hin) as Hne.
  exists (tick r rFinal s). cbn [step]. rewrite Hiv, Rr, Rf. cbn [andb].
  destruct (Nat.eq_dec (S (iv_ticks iv)) 12) as [E12|N12].
  - rewrite (tick_twelfth r rFinal s iv Hiv Hne Rr E12).
    destruct (finalizeGuess_spec (iv_items iv) (iv_target iv) rFinal
                (set_interval None s) Rf Hne)
      as (k & pick & _ & Hp & _ & ->).
    exists pick. split; [reflexivity|].
    assert (Hpick : In pick (items s))
      by (apply Hincl; eapply nth_error_In; eassumption).
    destruct (String.eqb (id pick) (id (iv_target iv))) eqn:Eid.
    + apply String.eqb_eq in Eid.
      repeat split; auto; intros; lia.
    + apply String.eqb_neq in Eid.
      repeat split; auto; intros; try lia; try discriminate; congruence.
  - destruct (tick_early r rFinal s iv Hiv Hne Rr) as (c & Hc & ->); [lia|].
    exists c. repeat split; auto; intros; try lia; try congruence.
Qed.

Lemma frac_is_random (k n : nat) : k < n -> Js.is_random (frac k n) = true.
Proof.
  intros H. apply is_random_spec. unfold frac, Qle, Qlt. cbn [Qnum Qden].
  rewrite (Zpos_of_nat n) by lia. lia.
Qed.

Lemma frac_draws_index (k n : nat) :
  k < n -> Js.floor_times (frac k n) n = Z.of_nat k.
Proof.
  intros H. apply floor_times_spec; [lia|]. split; [apply Qle_refl|].
  unfold frac, Qlt. cbn [Qnum Qden]. rewrite (Zpos_of_nat n) by lia. lia.
Qed.

(** The interval runs that are left, as events. *)
Lemma run_interval_resolves (m : nat) (r rFinal : Q) :
  Js.is_random r = true -> Js.is_random rFinal = true ->
  forall (s : State) (iv : Interval),
    interval s = Some iv -> iv_items iv <> [] ->
    iv_ticks iv + S m = 12 ->
    run s (repeat (IntervalFires r rFinal) (S m))
    = Some (finalizeGuess (iv_items iv) (iv_target iv) rFinal
              (set_interval None s)).
Proof.
  intros Rr Rf. induction m as [|m IH]; intros s iv Hiv Hne Hlen.
  - cbn [repeat run step]. rewrite Hiv, Rr, Rf. cbn [andb].
    rewrite (tick_twelfth r rFinal s iv Hiv Hne Rr) by lia. reflexivity.
  - change (repeat (IntervalFires r rFinal) (S (S m)))
      with (IntervalFires r rFinal :: repeat (IntervalFires r rFinal) (S m)).
    cbn [run step]. rewrite Hiv, Rr, Rf. cbn [andb].
    destruct (tick_early r rFinal s iv Hiv Hne Rr) as (c & _ & ->); [lia|].
    rewrite (IH (set_interval
                   (Some (mkInterval (iv_items iv) (iv_target iv)
                            (S (iv_ticks iv))))
                   (set_catChoice (Some c) s))
               (mkInterval (iv_items iv) (iv_target iv) (S (iv_ticks iv)))
               eq_refl Hne ltac:(cbn; lia)).
    cbn [iv_items iv_target]. f_equal.
Qed.

(** X5: a guess that runs in a reachable state can always be won: some
    draws of the interval runs that are left end it in [success] with one
    more point. *)
Theorem running_guess_can_succeed :
  forall (s : State) (iv : Interval),
    reachable s -> interval s = Some iv ->
    exists (events : list Event) (s' : State),
      length events = 12 - iv_ticks iv
      /\ run s events = Some s'
      /\ gameState s' = success
      /\ score s' = (score s + 1)%Z
      /\ catChoice s' = targetItem s.
Proof.
  intros s iv Hr Hiv.
  destruct (running_interval_invariant s Hr iv Hiv)
    as (Hg & Ht & Hin & Hincl & Hlt).
  pose proof (in_nonempty _ _ Hin) as Hne.
  destruct (In_nth_error _ _ Hin) as (k & Hk).
  assert (Hkn : k < length (iv_items iv))
    by (apply nth_error_Some; congruence).
  set (rFinal := frac k (length (iv_items iv))).
  assert (R0 : Js.is_random 0%Q = true) by reflexivity.
  assert (Rf : Js.is_random rFinal = true) by (apply frac_is_random; exact Hkn).
  destruct (12 - iv_ticks iv) as [|m] eqn:Em; [lia|].
  exists (repeat (IntervalFires 0%Q rFinal) (S m)). eexists.
  split; [apply repeat_length|].
  split; [apply (run_interval_resolves m 0%Q rFinal R0 Rf s iv Hiv Hne); lia|].
  unfold finalizeGuess. cbn zeta. unfold rFinal.
  rewrite (frac_draws_index k _ Hkn). unfold Js.index.
  destruct (Z.of_nat k <? 0)%Z eqn:Ez; [lia|].
  rewrite Nat2Z.id, Hk, String.eqb_refl. cbn.
  repeat split. symmetry. exact Ht.
Qed.

Lemma pending_return_exists (l : list Timeout) :
  0 < pending_returns l ->
  exists k t, nth_error l k = Some t /\ callback t = ReturnToIdle.
Proof.
  induction l as [|t l IH]; unfold pending_returns; cbn; [lia|].
  destruct (callback t) eqn:Hc; cbn.
  - intros _. exists 0, t. auto.
  - intros H. destruct (IH H) as (k & t' & A & B). exists (S k), t'. auto.
Qed.

Lemma remove_nth_incl {A : Type} (k : nat) (l : list A) :
  incl (remove_nth k l) l.
Proof.
  intros x Hx. unfold remove_nth in Hx. apply in_app_or in Hx.
  destruct Hx as [Hx|Hx].
  - rewrite <- (firstn_skipn k l). apply in_or_app. left. exact Hx.
  - rewrite <- (firstn_skipn (S k) l). apply in_or_app. right. exact Hx.
Qed.

(** Every timeout the component sets has a delay of 3000 ms. *)
Lemma step_delays (s s' : State) (e : Event) :
  Forall (fun t => delay t = 3000%Z) (timeouts s) ->
  step s e = Some s' ->
  Forall (fun t => delay t = 3000%Z) (timeouts s').
Proof.
  intros D H. pose proof (step_frame_cases s s' e H) as C.
  destruct e;
    try (unfold frame in C; injection C as _ _ _ _ C _; rewrite C; exact D).
  - destruct C as [->|(_ & item & _ & ->)]; exact D.
  - destruct C as (_ & item & _ & ->). unfold handleDeleteItem.
    destruct (negb _); [exact D|]. destruct (Nat.leb _ _); [|exact D].
    cbn. apply Forall_app. split; [exact D|]. repeat constructor.
  - destruct C as [->|(d & l' & _ & _ & _ & ->)]; exact D.
  - destruct C as (_ & ->). unfold retry.
    destruct (targetItem s); exact D.
  - destruct C as (_ & ->). exact D.
  - destruct C as [->|(img & _ & _ & _ & _ & _ & F)]; [exact D|].
    unfold frame in F. injection F as _ _ _ F _. rewrite F. exact D.
  - destruct C as (_ & _ & Hiv & ->).
    destruct (interval s) as [iv|] eqn:Ei; [|congruence].
    destruct (tick_cases r rFinal s iv Ei)
      as [->|[(c & _ & _ & ->)|(_ & ->)]]; try exact D.
    destruct (finalizeGuess_cases (iv_items iv) (iv_target iv) rFinal
                (set_interval None s))
      as [->|(pick & _ & [(_ & ->)|(_ & ->)])]; try exact D.
    cbn. apply Forall_app. split; [exact D|]. repeat constructor.
  - destruct C as (t & Ht & ->).
    assert (D' : Forall (fun t => delay t = 3000%Z)
                   (remove_nth k (timeouts s))).
    { apply Forall_forall. intros x Hx.
      apply (proj1 (Forall_forall _ _) D). eapply remove_nth_incl.
      exact Hx. }
    destruct (callback t); exact D'.
Qed.

Lemma reachable_delays (s : State) :
  reachable s -> Forall (fun t => delay t = 3000%Z) (timeouts s).
Proof.
  intros (its & key & events & H).
  assert (All : forall evs a b,
             Forall (fun t => delay t = 3000%Z) (timeouts a) ->
             run a evs = Some b ->
             Forall (fun t => delay t = 3000%Z) (timeouts b)).
  { induction evs as [|e evs IH]; intros a b D R; cbn [run] in R.
    - injection R as <-. exact D.
    - destruct (step a e) as [a1|] eqn:E; [|discriminate].
      apply (IH a1 b); [eapply step_delays; eassumption | exact R]. }
  apply (All events (initialState its key)); [constructor | exact H].
Qed.

(** X6: in a reachable [success] state exactly one timeout that returns
    to [idle] is pending, with a delay of 3000 ms; when it fires the game
    is [idle] again with the neutral face, the idle message and the bubble
    hidden, and items, target and score are as they were. *)
Theorem success_returns_to_idle :
  forall s : State,
    reachable s -> gameState s = success ->
    pending_returns (timeouts s) = 1
    /\ exists k s',
         nth_error (timeouts s) k = Some (mkTimeout 3000 ReturnToIdle)
         /\ step s (TimeoutFires k) = Some s'
         /\ gameState s' = idle /\ catEmotion s' = neutral
         /\ catMessage s' = MSG_IDLE /\ isAiTalking s' = false
         /\ pending_returns (timeouts s') = 0
         /\ items s' = items s /\ targetItem s' = targetItem s
         /\ score s' = score s.
Proof.
  intros s Hr Hs.
  destruct (reachable_invariant s Hr) as (_ & I2 & _). rewrite Hs in I2.
  split; [exact I2|].
  destruct (pending_return_exists (timeouts s)) as (k & t & Hk & Hc); [lia|].
  pose proof (reachable_delays s Hr) as D.
  assert (Hd : delay t = 3000%Z).
  { apply (proj1 (Forall_forall _ _) D). eapply nth_error_In; eassumption. }
  assert (Et : t = mkTimeout 3000 ReturnToIdle)
    by (destruct t; cbn in *; congruence).
  subst t.
  assert (Z0 : pending_returns (remove_nth k (timeouts s)) = 0).
  { pose proof (pending_returns_remove _ _ _ Hk) as P.
    cbn [callback] in P. lia. }
  exists k. eexists. split; [exact Hk|].
  cbn [step]. rewrite Hk. split; [reflexivity|].
  repeat split; try reflexivity. exact Z0.
Qed.

End Game.

(* ================================================================= *)
(** ** The resolution of a guess *)

Section Resolution.









End Resolution.

(* ================================================================= *)
(** ** Further properties of the repository *)

Section Repository.

Lemma to_int_not_nil (n : Z) :
  Z.to_int n <> Decimal.Pos Decimal.Nil
  /\ Z.to_int n <> Decimal.Neg Decimal.Nil.
Proof.
  destruct n as [|p|p]; cbn; split; try discriminate;
    intros E; injection E as E;
    exact (DecimalPos.Unsigned.to_uint_nonnil p E).
Qed.

(** The decimal form of a number names the number. *)
Lemma number_toString_parses (n : Z) :
  NilZero.int_of_string (Js.number_toString n) = Some (Z.to_int n).
Proof.
  unfold Js.number_toString. destruct (to_int_not_nil n) as [A B].
  apply NilZero.isi; assumption.
Qed.

Lemma number_toString_inj (a b : Z) :
  Js.number_toString a = Js.number_toString b -> a = b.
Proof.
  intros E. apply DecimalZ.to_int_inj.
  pose proof (number_toString_parses a) as Pa.
  rewrite E, number_toString_parses in Pa. congruence.
Qed.

Lemma Subsequence_refl {A : Type} (l : list A) : Subsequence l l.
Proof. induction l; constructor; assumption. Qed.

Lemma step_items_cases (s s' : State) (e : Event) :
  step s e = Some s' ->
  match e with
  | DeleteClick _ =>
      gameState s = idle /\ Subsequence (items s') (items s)
  | DragOver _ => Permutation (items s) (items s')
  | SaveClick now =>
      items s' = items s
      \/ exists newName newImage,
           items s'
           = items s ++ [mkItem (Js.number_toString now) newName newImage]
  | _ => items s' = items s
  end.
Proof.
  intros H. pose proof (step_frame_cases s s' e H) as C.
  destruct e;
    try (unfold frame in C; injection C as C _ _ _ _ _; exact C).
  - destruct C as [->|(_ & item & _ & ->)]; reflexivity.
  - destruct C as (G & item & _ & ->). split; [exact G|].
    unfold handleDeleteItem. destruct (negb _); [apply Subsequence_refl|].
    destruct (Nat.leb _ _); [apply Subsequence_refl|].
    apply filter_subsequence.
  - destruct C as [->|(d & l' & _ & _ & E & ->)]; [auto|].
    apply (reorder_perm _ _ _ _ E).
  - destruct C as (_ & ->). unfold retry.
    destruct (targetItem s); reflexivity.
  - destruct C as (_ & ->). reflexivity.
  - destruct C as [->|(img & _ & _ & _ & _ & Hi & _)]; [auto|].
    right. eauto.
  - destruct C as (_ & _ & _ & ->). apply tick_items.
  - destruct C as (t & _ & ->). destruct (callback t); reflexivity.
Qed.

Lemma Subsequence_length {A : Type} (l1 l2 : list A) :
  Subsequence l1 l2 -> length l1 <= length l2.
Proof. induction 1; cbn; lia. Qed.

(** X7: the item list changes by three kinds of event only: a delete
    in [idle] leaves a subsequence, a drag-over a permutation, a save the
    list as it is or with one item more at its end, whose id is the
    decimal form of the clock value; every other event, a guess from its
    start to its end among them, leaves the list as it is. *)
Theorem repository_changes_by_three_events :
  forall (s s' : State) (e : Event),
    step s e = Some s' ->
    match e with
    | DeleteClick _ =>
        gameState s = idle /\ Subsequence (items s') (items s)
        /\ length (items s') <= length (items s)
    | DragOver _ =>
        Permutation (items s) (items s')
        /\ length (items s') = length (items s)
    | SaveClick now =>
        items s' = items s
        \/ exists newName newImage,
             items s'
             = items s ++ [mkItem (Js.number_toString now) newName newImage]
    | _ => items s' = items s
    end.
Proof.
  intros s s' e H. pose proof (step_items_cases s s' e H) as C.
  destruct e; try exact C.
  - destruct C as (G & S). split; [exact G|]. split; [exact S|].
    apply Subsequence_length. exact S.
  - split; [exact C | symmetry; apply Permutation_length; exact C].
Qed.

(** X8: in [idle], on a list that holds an item, adding an item under
    an id that no item has and then deleting that id gives the list back. *)
Theorem add_then_delete_restores :
  forall (s : State) (now : Z) (newImage : string),
    gameState s = idle -> items s <> [] ->
    newItemName s <> EmptyString ->
    newItemImage s = Some newImage -> newImage <> EmptyString ->
    ~ In (Js.number_toString now) (ids (items s)) ->
    items (handleDeleteItem (Js.number_toString now) (saveNewItem now s))
    = items s
    /\ length (items (saveNewItem now s)) = S (length (items s)).
Proof.
  intros s now img Hidle Hne Hname Himg Hne' Hfresh.
  assert (E : saveNewItem now s
              = set_newItemImage None
                  (set_newItemName EmptyString
                     (set_isAddModalOpen false
                        (set_items
                           (items s ++
                            [mkItem (Js.number_toString now) (newItemName s)
                               img]) s)))).
  { unfold saveNewItem. rewrite Himg.
    destruct (newItemName s); [congruence|].
    destruct img; [congruence|]. reflexivity. }
  rewrite E. unfold handleDeleteItem. cbn [gameState items
    set_newItemImage set_newItemName set_isAddModalOpen set_items].
  rewrite Hidle. cbn [is_idle negb].
  rewrite length_app. cbn [length].
  split; [|lia].
  destruct (Nat.leb (length (items s) + 1) 1) eqn:L.
  - apply Nat.leb_le in L. destruct (items s); [congruence|cbn in L; lia].
  - cbn [items set_items]. rewrite filter_app.
    rewrite (filter_other_ids _ _ Hfresh). cbn [filter id].
    rewrite String.eqb_refl. cbn. apply app_nil_r.
Qed.

Lemma step_new_ids (s s' : State) (e : Event) :
  step s e = Some s' ->
  forall x,
    In x (ids (items s')) ->
    In x (ids (items s))
    \/ exists now, e = SaveClick now /\ x = Js.number_toString now.
Proof.
  intros H x Hx. unfold ids in *.
  pose proof (step_items_cases s s' e H) as C.
  destruct e; try (rewrite C in Hx; left; exact Hx).
  - destruct C as (_ & S). left.
    apply in_map_iff in Hx. destruct Hx as (a & <- & Ha).
    apply in_map. clear - S Ha.
    induction S; [contradiction | right; auto |].
    destruct Ha as [->|Ha]; [left; reflexivity | right; auto].
  - left.
    apply (Permutation_in x (Permutation_sym (Permutation_map id C)) Hx).
  - destruct C as [C|(n & i & C)]; rewrite C in Hx; [left; exact Hx|].
    rewrite map_app in Hx. apply in_app_or in Hx.
    destruct Hx as [Hx|[<-|[]]]; [left; exact Hx|]. right. eauto.
Qed.

Lemma distinct_clock_is_fresh (events : list Event) :
  forall s,
    NoDup (clock_values events) ->
    (forall n, In n (clock_values events) ->
               ~ In (Js.number_toString n) (ids (items s))) ->
    fresh_clock s events.
Proof.
  induction events as [|e events IH]; intros s Hnd Hnew; cbn [fresh_clock];
    [exact I|].
  split.
  - destruct e; try exact I. apply Hnew. cbn. auto.
  - destruct (step s e) as [s1|] eqn:E; [|exact I].
    apply IH.
    + destruct e; try exact Hnd. cbn in Hnd. inversion Hnd; assumption.
    + intros n Hn Hin.
      destruct (step_new_ids s s1 e E _ Hin) as [Old|(now & -> & Eq)].
      * apply (Hnew n); [|exact Old]. destruct e; try exact Hn.
        cbn. right. exact Hn.
      * apply number_toString_inj in Eq. subst now.
        cbn in Hnd. inversion Hnd; contradiction.
Qed.

(** X9: two clock values have two decimal forms, so when the adds of a
    run read pairwise different clock values, none of them the id of an
    item of the start, the ids stay pairwise distinct and the repository
    keeps an item; this holds of every such run from the built-in items. *)
Theorem distinct_clock_values_keep_the_repository :
  forall (s s' : State) (events : list Event),
    items s <> [] -> NoDup (ids (items s)) ->
    NoDup (clock_values events) ->
    (forall n, In n (clock_values events) ->
               ~ In (Js.number_toString n) (ids (items s))) ->
    run s events = Some s' ->
    items s' <> [] /\ NoDup (ids (items s'))
    /\ (forall a b, Js.number_toString a = Js.number_toString b -> a = b)
    /\ (forall n, ~ In (Js.number_toString n) (ids DEFAULT_ITEMS)).
Proof.
  intros s s' events Hne Hnd Hclock Hnew H.
  pose proof (distinct_clock_is_fresh events s Hclock Hnew) as F.
  destruct (run_store events s s' (conj Hne Hnd) F H) as [A B].
  split; [exact A|]. split; [exact B|].
  split; [exact number_toString_inj|].
  intros n Hin. pose proof (number_toString_parses n) as P.
  cbn in Hin. destruct Hin as [E|[E|[]]]; rewrite <- E in P; discriminate P.
Qed.

Lemma splice_insert_cut {A : Type} (l : list A) (d : nat) (x : A) :
  nth_error l d = Some x -> Js.splice_insert (remove_nth d l) d x = l.
Proof.
  intros H. destruct (nth_error_cut l d x H) as [E _].
  assert (Hd : d < length l) by (apply nth_error_Some; congruence).
  unfold Js.splice_insert, remove_nth.
  assert (L : length (firstn d l) = d) by (apply firstn_length_le; lia).
  rewrite firstn_app, L, Nat.sub_diag, firstn_O, app_nil_r.
  rewrite firstn_firstn, Nat.min_id.
  rewrite skipn_app, L, Nat.sub_diag. cbn [skipn].
  rewrite skipn_all2 by lia. cbn [app]. exact E.
Qed.

Lemma last_cons {A : Type} (i : A) (l : list A) (d : A) :
  last (i :: l) d = last l i.
Proof.
  revert i d. induction l as [|j l IH]; intros i d; [reflexivity|].
  change (last (i :: j :: l) d) with (last (j :: l) d).
  rewrite (IH j d), (IH j i). reflexivity.
Qed.

(** A drag-over in the middle of a drag: the dragged item [x] moves to the
    position passed over, the list of the other items stays. *)
Lemma drag_over_carries (s : State) (d i : nat) (x : Item) :
  draggedItemIndex s = Some d -> nth_error (items s) d = Some x ->
  i < length (items s) ->
  exists s',
    step s (DragOver i) = Some s'
    /\ draggedItemIndex s' = Some i
    /\ nth_error (items s') i = Some x
    /\ remove_nth i (items s') = remove_nth d (items s)
    /\ length (items s') = length (items s).
Proof.
  intros Hd Hx Hi. cbn [step].
  apply Nat.ltb_lt in Hi. rewrite Hi. apply Nat.ltb_lt in Hi.
  unfold handleDragOver. rewrite Hd.
  destruct (Nat.eqb d i) eqn:E.
  - apply Nat.eqb_eq in E. subst d. exists s. auto.
  - assert (Hdl : d < length (items s)) by (apply nth_error_Some; congruence).
    destruct (reorder_spec (items s) d i Hdl Hi) as (l' & -> & P & N & R).
    eexists. split; [reflexivity|]. cbn.
    repeat split; try congruence.
    symmetry. apply Permutation_length. exact P.
Qed.

Lemma drag_overs_carry (overs : list nat) :
  forall (s : State) (d : nat) (x : Item),
    draggedItemIndex s = Some d -> nth_error (items s) d = Some x ->
    Forall (fun i => i < length (items s)) overs ->
    exists s',
      run s (map DragOver overs) = Some s'
      /\ draggedItemIndex s' = Some (last overs d)
      /\ nth_error (items s') (last overs d) = Some x
      /\ remove_nth (last overs d) (items s') = remove_nth d (items s).
Proof.
  induction overs as [|i overs IH]; intros s d x Hd Hx Hall.
  - exists s. cbn. auto.
  - inversion Hall as [|? ? Hi Hall']; subst.
    destruct (drag_over_carries s d i x Hd Hx Hi)
      as (s1 & E1 & Hd1 & Hx1 & Ho1 & Hl1).
    destruct (IH s1 i x Hd1 Hx1) as (s' & R & A & B & C).
    { rewrite Hl1. exact Hall'. }
    exists s'. cbn [map run]. rewrite E1, last_cons.
    repeat split; auto. congruence.
Qed.

(** X10: through a drag gesture the dragged item follows the pointer:
    after the drag has passed over any positions of the list, the item
    stands at the last of them and the other items are in the order they
    had, whatever the way there was. *)
Theorem dragged_item_follows_the_pointer :
  forall (s : State) (from : nat) (overs : list nat) (x : Item),
    gameState s = idle -> nth_error (items s) from = Some x ->
    Forall (fun i => i < length (items s)) overs ->
    exists s',
      run s (DragStart from :: map DragOver overs) = Some s'
      /\ draggedItemIndex s' = Some (last overs from)
      /\ items s'
         = Js.splice_insert (remove_nth from (items s)) (last overs from) x
      /\ nth_error (items s') (last overs from) = Some x
      /\ remove_nth (last overs from) (items s') = remove_nth from (items s).
Proof.
  intros s from overs x Hidle Hx Hall.
  assert (Hf : from < length (items s)) by (apply nth_error_Some; congruence).
  cbn [run step]. rewrite Hidle. cbn [is_idle andb].
  apply Nat.ltb_lt in Hf. rewrite Hf.
  unfold handleDragStart. rewrite Hidle. cbn [is_idle negb].
  destruct (drag_overs_carry overs (set_draggedItemIndex (Some from) s)
              from x eq_refl Hx Hall) as (s' & R & A & B & C).
  exists s'. cbn [items set_draggedItemIndex] in C.
  repeat split; auto.
  rewrite <- C. symmetry. apply splice_insert_cut. exact B.
Qed.

End Repository.

(* ================================================================= *)
(** ** Further properties of the add dialog *)

Section Dialog.

Import Js Recognition.

(** X11: the submit button and [saveNewItem] agree: with no analysis
    under way the button is disabled exactly when a save would change
    nothing; a save that goes through adds one item; and after any save
    the button is disabled, so that one form is stored once. *)
Theorem save_button_agrees_with_save :
  forall (s : State) (now : Z),
    save_disabled (saveNewItem now s) = true
    /\ (isAiAnalyzing s = false ->
        (save_disabled s = true <-> saveNewItem now s = s))
    /\ (save_disabled s = false ->
        length (items (saveNewItem now s)) = S (length (items s))
        /\ isAddModalOpen (saveNewItem now s) = false).
Proof.
  intros s now. unfold save_disabled, saveNewItem.
  destruct (newItemImage s) as [img|] eqn:Ei.
  2:{ rewrite Ei. cbn. rewrite orb_true_r. cbn.
      repeat split; auto; discriminate. }
  destruct (newItemName s) as [|c n] eqn:En; cbn [truthy negb andb orb].
  { rewrite Ei, En. cbn. repeat split; auto; discriminate. }
  destruct img as [|c' i]; cbn [truthy negb andb orb].
  { rewrite Ei, En. cbn. repeat split; auto; discriminate. }
  cbn. split; [reflexivity|]. split.
  - intros ->. split; [discriminate|]. intros E.
    apply (f_equal (fun x => length (items x))) in E. cbn in E.
    rewrite length_app in E. cbn in E. lia.
  - intros _. rewrite length_app. cbn. split; [lia | reflexivity].
Qed.

Lemma after_analyze_keeps (result : Outcome) (s : State) :
  isAiAnalyzing (after_analyze result s) = false
  /\ newItemImage (after_analyze result s) = newItemImage s
  /\ isAddModalOpen (after_analyze result s) = isAddModalOpen s.
Proof.
  unfold after_analyze. destruct result as [label|[message| |]];
    try (repeat split; reflexivity).
  destruct (_ || _); repeat split; reflexivity.
Qed.

(** The one error the walk through the body throws. *)
Lemma label_text_error (body : Json) (e : Exception) :
  label_text body = inl e -> e = TypeError.
Proof.
  unfold label_text. destruct body; try (intros [= <-]; reflexivity);
    match goal with
    | |- context [match ?x with _ => _ end] => destruct x as [[]|]
    end; intros [= E]; auto.
Qed.

(** X12: what the add dialog shows after a recognition.  In every case
    the analysing flag is off and the image is kept.  With no key, or a
    response that is not ok, the name is the placeholder and the settings
    dialog opens with the message that points to the key; with no
    response or a body that is not JSON, the name is the placeholder under
    the message of an unknown error and the settings dialog stays as it
    is; a returned label becomes the name and no message is set. *)
Theorem recognition_result_in_the_dialog :
  forall (compressed key : string) (fetch : Request -> FetchResult)
         (s : State),
    let result := snd (analyzeImage compressed key fetch) in
    let s' := after_analyze result s in
    isAiAnalyzing s' = false
    /\ newItemImage s' = newItemImage s
    /\ frame s' = frame s
    /\ (key = EmptyString -> points_to_settings s s')
    /\ (key <> EmptyString ->
        match fetch (request_for compressed key) with
        | Resolved false _ => points_to_settings s s'
        | Rejected | Resolved true None => reports_unknown_error s s'
        | Resolved true (Some _) =>
            match result with
            | Returns label =>
                label <> EmptyString
                /\ newItemName s' = label /\ errorMsg s' = errorMsg s
                /\ isSettingsOpen s' = isSettingsOpen s
            | Throws _ => reports_unknown_error s s'
            end
        end).
Proof.
  intros compressed key fetch s. cbn zeta.
  destruct (after_analyze_keeps (snd (analyzeImage compressed key fetch)) s)
    as (A & B & _).
  split; [exact A|]. split; [exact B|].
  split; [apply after_analyze_frame|].
  unfold analyzeImage, request_for.
  destruct key as [|c key]; cbn [truthy negb snd].
  - split; [|congruence]. intros _. repeat split.
  - split; [discriminate|]. intros _.
    destruct (fetch _) as [|[|] [body|]]; cbn [negb];
      try (repeat split; reflexivity).
    destruct (label_text body) as [e|[t|]] eqn:El.
    + rewrite (label_text_error body e El). repeat split; reflexivity.
    + destruct t as [|c0 t]; cbn [truthy]; repeat split; try reflexivity.
      discriminate.
    + repeat split; reflexivity.
Qed.

End Dialog.

(* ================================================================= *)
(** ** Uploads (lines 217-247, 457) *)

Section Upload.

Import Js Recognition.

(** What an event does to the analysing flag and the pending uploads. *)
Lemma step_upload_cases (s s' : State) (e : Event) :
  step s e = Some s' ->
  match e with
  | FileChange _ =>
      isAiAnalyzing s' = isAiAnalyzing s
      /\ exists more, uploads s' = uploads s ++ more
  | ReaderLoaded k =>
      isAiAnalyzing s' = true
      /\ exists key,
           nth_error (uploads s) k = Some (Reading key)
           /\ uploads s' = replace_nth k (Compressing key) (uploads s)
  | ImageCompressed k compressed =>
      isAiAnalyzing s' = isAiAnalyzing s
      /\ exists key,
           nth_error (uploads s) k = Some (Compressing key)
           /\ uploads s' = replace_nth k (Analyzing key compressed) (uploads s)
  | AnalysisSettled k _ =>
      isAiAnalyzing s' = false /\ uploads s' = remove_nth k (uploads s)
  | _ => isAiAnalyzing s' = isAiAnalyzing s /\ uploads s' = uploads s
  end.
Proof.
  intros H. destruct e; cbn [step] in H;
    try unfold handleDragOver in H;
    repeat match type of H with
           | (if ?c then _ else _) = _ => destruct c eqn:?
           | match ?x with _ => _ end = _ => destruct x eqn:?
           | None = Some _ => discriminate H
           | Some _ = Some _ => injection H as <-
           end;
    try (split; reflexivity);
    try (split; [reflexivity|]; eexists; split; [first [eassumption|reflexivity]|reflexivity]).
  - unfold handleItemClick. destruct (negb _); split; reflexivity.
  - unfold handleDeleteItem. destruct (negb _); [split; reflexivity|].
    destruct (Nat.leb _ _); split; reflexivity.
  - unfold handleDragStart. destruct (negb _); split; reflexivity.
  - unfold retry. destruct (targetItem s); split; reflexivity.
  - unfold handleFileChange. destruct file as [size|].
    + destruct (_ >? _)%Z; (split; [reflexivity|]).
      * exists []. symmetry; apply app_nil_r.
      * eexists. reflexivity.
    + split; [reflexivity|]. exists []. symmetry; apply app_nil_r.
  - unfold saveNewItem. destruct (newItemImage s); [|split; reflexivity].
    destruct (truthy (newItemName s) && truthy _); split; reflexivity.
  - unfold tick. rewrite Heqo. cbn zeta.
    destruct (Js.index _ _); [|split; reflexivity].
    destruct (Nat.leb _ _); [|split; reflexivity].
    unfold finalizeGuess. cbn zeta.
    destruct (Js.index _ _); [|split; reflexivity].
    destruct (String.eqb _ _); split; reflexivity.
  - destruct (callback t); split; reflexivity.
  - unfold after_analyze.
    destruct (snd _) as [label|[message| |]]; try (split; reflexivity).
    destruct (_ || _); split; reflexivity.
Qed.

Lemma nth_error_replace_nth {A : Type} (k : nat) (x : A) (l : list A) :
  k < length l -> nth_error (replace_nth k x l) k = Some x.
Proof.
  intros H. unfold replace_nth.
  rewrite nth_error_app2; rewrite length_firstn, Nat.min_l by lia; [|lia].
  rewrite Nat.sub_diag. reflexivity.
Qed.

Lemma replace_nth_length {A : Type} (k : nat) (x : A) (l : list A) :
  k < length l -> length (replace_nth k x l) = length l.
Proof.
  intros H. unfold replace_nth.
  rewrite length_app, length_firstn. cbn [length]. rewrite length_skipn. lia.
Qed.

Lemma nth_error_app_end {A : Type} (l : list A) (x : A) :
  nth_error (l ++ [x]) (length l) = Some x.
Proof.
  rewrite nth_error_app2 by lia. rewrite Nat.sub_diag. reflexivity.
Qed.

Lemma replace_nth_end {A : Type} (l : list A) (x y : A) :
  replace_nth (length l) y (l ++ [x]) = l ++ [y].
Proof.
  unfold replace_nth.
  rewrite firstn_app, Nat.sub_diag, firstn_all, app_nil_r.
  rewrite skipn_all2 by (rewrite length_app; cbn; lia). reflexivity.
Qed.

Lemma remove_nth_end {A : Type} (l : list A) (x : A) :
  remove_nth (length l) (l ++ [x]) = l.
Proof.
  unfold remove_nth.
  rewrite firstn_app, Nat.sub_diag, firstn_all, app_nil_r.
  rewrite skipn_all2 by (rewrite length_app; cbn; lia). apply app_nil_r.
Qed.

Lemma past_reading_replaced (k : nat) (u : Upload) (l : list Upload) :
  past_reading u = true -> existsb past_reading (replace_nth k u l) = true.
Proof.
  intros H. unfold replace_nth. rewrite existsb_app. cbn [existsb].
  rewrite H. rewrite orb_true_r. reflexivity.
Qed.

Lemma after_analyze_uploads (result : Outcome) (s : State) :
  uploads (after_analyze result s) = uploads s
  /\ geminiKey (after_analyze result s) = geminiKey s.
Proof.
  unfold after_analyze. destruct result as [label|[message| |]];
    try (split; reflexivity).
  destruct (_ || _); split; reflexivity.
Qed.

(** While the flag is set, an upload is past the reading of its file. *)
Lemma step_analysing (s s' : State) (e : Event) :
  (isAiAnalyzing s = true -> existsb past_reading (uploads s) = true) ->
  step s e = Some s' ->
  isAiAnalyzing s' = true -> existsb past_reading (uploads s') = true.
Proof.
  intros I H. apply step_upload_cases in H.
  destruct e;
    try (destruct H as [F U]; rewrite F, U; exact I).
  - destruct H as (F & more & U). rewrite F, U. intros A.
    rewrite existsb_app, (I A). reflexivity.
  - destruct H as (_ & key & _ & U). rewrite U. intros _.
    apply past_reading_replaced. reflexivity.
  - destruct H as (_ & key & _ & U). rewrite U. intros _.
    apply past_reading_replaced. reflexivity.
  - destruct H as [F _]. rewrite F. discriminate.
Qed.

Lemma run_analysing (events : list Event) (s s' : State) :
  (isAiAnalyzing s = true -> existsb past_reading (uploads s) = true) ->
  run s events = Some s' ->
  isAiAnalyzing s' = true -> existsb past_reading (uploads s') = true.
Proof.
  revert s. induction events as [|e events IH]; intros s I H.
  - injection H as <-. exact I.
  - cbn [run] in H. destruct (step s e) as [s1|] eqn:E; [|discriminate].
    apply (IH s1); [|exact H]. exact (step_analysing s s1 e I E).
Qed.

(** X13: in every state the component reaches with the analysing flag
    set, an upload is being compressed or recognised.  Only a recognition
    that settles clears the flag: when the compression of a pending upload
    is done and its recognition has settled, however it settles, the flag
    is off and that upload is gone; no other event clears the flag, so as
    long as no recognition settles it stays set. *)
Theorem analysing_flag_is_cleared :
  forall s,
    reachable s ->
    isAiAnalyzing s = true ->
    (exists k key,
        (nth_error (uploads s) k = Some (Compressing key)
         /\ forall compressed fetch,
              exists s',
                run s [ImageCompressed k compressed; AnalysisSettled k fetch]
                = Some s'
                /\ isAiAnalyzing s' = false
                /\ newItemImage s' = Some compressed
                /\ length (uploads s') < length (uploads s))
        \/ (exists compressed,
               nth_error (uploads s) k = Some (Analyzing key compressed)
               /\ forall fetch,
                    exists s',
                      step s (AnalysisSettled k fetch) = Some s'
                      /\ isAiAnalyzing s' = false
                      /\ newItemImage s' = newItemImage s
                      /\ length (uploads s') < length (uploads s)))
    /\ (forall e s',
           step s e = Some s' -> isAiAnalyzing s' = false ->
           exists k fetch, e = AnalysisSettled k fetch).
Proof.
  intros s (its & key0 & events & R) A. split.
  - assert (P : existsb past_reading (uploads s) = true).
    { apply (run_analysing events (initialState its key0) s);
        [discriminate | exact R | exact A]. }
    apply existsb_exists in P. destruct P as (u & Hin & Hu).
    apply In_nth_error in Hin. destruct Hin as (k & Hk).
    assert (Lk : k < length (uploads s)).
    { apply nth_error_Some. rewrite Hk. discriminate. }
    destruct u as [key|key|key compressed]; [discriminate| |].
    + exists k, key. left. split; [exact Hk|]. intros compressed fetch.
      cbn [run step]. rewrite Hk.
      cbn [after_compress uploads set_newItemImage set_uploads].
      rewrite (nth_error_replace_nth k _ _ Lk).
      eexists. split; [reflexivity|].
      destruct (after_analyze_keeps
                  (snd (analyzeImage compressed key fetch))
                  (set_uploads
                     (remove_nth k
                        (replace_nth k (Analyzing key compressed)
                           (uploads s)))
                     (set_newItemImage (Some compressed)
                        (set_uploads
                           (replace_nth k (Analyzing key compressed)
                              (uploads s)) s)))) as (F & I & _).
      split; [exact F|]. split; [exact I|].
      rewrite (proj1 (after_analyze_uploads _ _)). cbn [uploads set_uploads].
      pose proof (replace_nth_length k (Analyzing key compressed) _ Lk) as L.
      pose proof (remove_nth_length
                    (replace_nth k (Analyzing key compressed) (uploads s)) k
                    ltac:(lia)).
      lia.
    + exists k, key. right. exists compressed. split; [exact Hk|].
      intros fetch. cbn [step]. rewrite Hk.
      eexists. split; [reflexivity|].
      destruct (after_analyze_keeps
                  (snd (analyzeImage compressed key fetch))
                  (set_uploads (remove_nth k (uploads s)) s)) as (F & I & _).
      split; [exact F|]. split; [exact I|].
      rewrite (proj1 (after_analyze_uploads _ _)). cbn [uploads set_uploads].
      pose proof (remove_nth_length (uploads s) k Lk). lia.
  - intros e s' H Off. pose proof (step_upload_cases s s' e H) as C.
    destruct e;
      try (destruct C as [F _]; rewrite F, A in Off; discriminate).
    + destruct C as [F _]. rewrite F in Off. discriminate.
    + eauto.
Qed.

End Upload.

Section UploadFlow.

Import Js Recognition.

(** X14: the recognition of an upload uses the key the component held
    when the file was selected.  A file within the size limit is selected
    in the add dialog, the key is then changed in the settings dialog, and
    the upload runs through: the request is decided by the old key, so
    with no key at the selection the recognition fails for the missing
    key, the name falls back and the settings dialog is pointed to,
    whatever key has been entered since.  The compressed image is in the
    dialog and the flag is off at the end. *)
Theorem recognition_uses_the_key_of_the_selection :
  forall s size newKey compressed fetch,
    isAddModalOpen s = true ->
    isAiAnalyzing s = false ->
    isSettingsOpen s = true ->
    (size <= MAX_UPLOAD_SIZE)%Z ->
    let n := length (uploads s) in
    let result := snd (analyzeImage compressed (geminiKey s) fetch) in
    exists s',
      run s [FileChange (Some size); KeyInput newKey; ReaderLoaded n;
             ImageCompressed n compressed; AnalysisSettled n fetch]
      = Some s'
      /\ geminiKey s' = newKey
      /\ uploads s' = uploads s
      /\ newItemImage s' = Some compressed
      /\ isAiAnalyzing s' = false
      /\ frame s' = frame s
      /\ newItemName s'
         = match result with
           | Returns label => label
           | Throws _ => UNKNOWN_ITEM
           end
      /\ (geminiKey s = EmptyString ->
          fst (analyzeImage compressed (geminiKey s) fetch) = []
          /\ newItemName s' = UNKNOWN_ITEM
          /\ errorMsg s' = MSG_AI_FAILED
          /\ isSettingsOpen s' = true).
Proof.
  intros s size newKey compressed fetch Ho Ha Hs Hsize n result.
  cbn [run step]. rewrite Ho, Ha. cbn [andb negb].
  unfold handleFileChange.
  replace (size >? MAX_UPLOAD_SIZE)%Z with false
    by (symmetry; rewrite Z.gtb_ltb; apply Z.ltb_ge; exact Hsize).
  cbn [isSettingsOpen set_uploads set_errorMsg set_geminiKey uploads].
  rewrite Hs. subst n.
  repeat first
    [ rewrite replace_nth_end | rewrite nth_error_app_end
    | rewrite remove_nth_end
    | progress cbn [after_compress reader_onloadend uploads set_geminiKey
                    set_uploads set_errorMsg set_isAiAnalyzing
                    set_newItemImage geminiKey] ].
  fold result.
  eexists. split; [reflexivity|].
  match goal with
  | |- context [after_analyze result ?t] => set (s0 := t)
  end.
  destruct (after_analyze_keeps result s0) as (F & I & _).
  destruct (after_analyze_uploads result s0) as (U & K).
  split; [rewrite K; reflexivity|].
  split; [rewrite U; reflexivity|].
  split; [rewrite I; reflexivity|].
  split; [exact F|].
  split; [rewrite after_analyze_frame; reflexivity|].
  split.
  - unfold after_analyze. destruct result as [label|[message| |]];
      try reflexivity.
  - intros E. subst result. unfold analyzeImage. rewrite E.
    cbn. repeat split; reflexivity.
Qed.

(** X15: the size limit of an upload.  A selected file of more than
    1048576 bytes is turned down with the message for it: no upload is
    started (with none pending, no reading, compression or recognition can
    come back), and repository, game, timeouts, name, image and the open
    dialog are as before; the message is not cleared by a timeout.  A file
    of exactly 1048576 bytes or less clears the message and starts one
    upload, which holds the key of that moment. *)
Theorem upload_size_limit :
  forall s size,
    isAddModalOpen s = true ->
    isAiAnalyzing s = false ->
    exists s',
      step s (FileChange (Some size)) = Some s'
      /\ frame s' = frame s
      /\ newItemName s' = newItemName s
      /\ newItemImage s' = newItemImage s
      /\ isAddModalOpen s' = true
      /\ isAiAnalyzing s' = false
      /\ ((1048576 < size)%Z ->
          errorMsg s' = MSG_TOO_BIG
          /\ uploads s' = uploads s
          /\ (uploads s = [] ->
              forall k compressed fetch,
                step s' (ReaderLoaded k) = None
                /\ step s' (ImageCompressed k compressed) = None
                /\ step s' (AnalysisSettled k fetch) = None))
      /\ ((size <= 1048576)%Z ->
          errorMsg s' = EmptyString
          /\ uploads s' = uploads s ++ [Reading (geminiKey s)]
          /\ exists s'',
               step s' (ReaderLoaded (length (uploads s))) = Some s''
               /\ isAiAnalyzing s'' = true).
Proof.
  intros s size Ho Ha. cbn [step]. rewrite Ho, Ha. cbn [andb negb].
  eexists. split; [reflexivity|].
  unfold handleFileChange. change MAX_UPLOAD_SIZE with 1048576%Z.
  destruct (size >? 1048576)%Z eqn:E.
  - apply Z.gtb_lt in E.
    repeat split; try assumption; try lia;
      match goal with
      | U : uploads s = [] |- _ =>
          cbn [step uploads set_errorMsg]; rewrite U; destruct k; reflexivity
      end.
  - rewrite Z.gtb_ltb in E. apply Z.ltb_ge in E.
    repeat split; try assumption; try lia.
    cbn [step uploads set_errorMsg set_uploads].
    rewrite nth_error_app_end. eexists. split; reflexivity.
Qed.

End UploadFlow.

(* ================================================================= *)
(** ** The request of [analyzeImage] (lines 60-83) *)

Section Payload.

Import Js Recognition.

Lemma split_comma_no_comma (s : string) :
  no_comma s = true -> split_comma s = [s].
Proof.
  induction s as [|c s IH]; [reflexivity|]. cbn [no_comma split_comma].
  destruct (Ascii.eqb c ","%char); [discriminate|]. cbn [negb andb].
  intros H. rewrite (IH H). reflexivity.
Qed.

Lemma split_comma_prefix (p r : string) :
  no_comma p = true ->
  split_comma (p ++ String ","%char r) = p :: split_comma r.
Proof.
  induction p as [|c p IH]; [reflexivity|].
  cbn [no_comma split_comma String.append].
  destruct (Ascii.eqb c ","%char); [discriminate|]. cbn [negb andb].
  intros H. rewrite (IH H). reflexivity.
Qed.

(** X18: what the request carries.  With a key, [analyzeImage] issues
    exactly one request, to the endpoint followed by the key, with the
    fixed instruction and the type [image/jpeg].  For a data URL, a prefix
    and a payload without commas joined by a comma, the request carries the
    payload alone; for an image string without a comma it carries no image
    data at all, and the request is sent all the same. *)
Theorem request_carries_the_payload :
  forall key fetch,
    key <> EmptyString ->
    (forall image,
        fst (analyzeImage image key fetch) = [request_for image key]
        /\ url (request_for image key) = (ENDPOINT ++ key)%string
        /\ text (request_for image key) = INSTRUCTION
        /\ mimeType (request_for image key) = "image/jpeg")
    /\ (forall prefix payload,
           no_comma prefix = true -> no_comma payload = true ->
           data (request_for (prefix ++ "," ++ payload) key) = Some payload)
    /\ (forall image,
           no_comma image = true ->
           data (request_for image key) = None).
Proof.
  intros key fetch Hk. split; [|split].
  - intros image. unfold analyzeImage, request_for.
    destruct key as [|c key]; [congruence|]. repeat split.
  - intros prefix payload Hp Hq. unfold request_for. cbn [data].
    change (prefix ++ "," ++ payload)%string
      with (prefix ++ String ","%char payload)%string.
    rewrite (split_comma_prefix prefix payload Hp).
    rewrite (split_comma_no_comma payload Hq). reflexivity.
  - intros image Hi. unfold request_for. cbn [data].
    rewrite (split_comma_no_comma image Hi). reflexivity.
Qed.

End Payload.

(* ================================================================= *)
(** ** Concrete runs *)

(** C1: the run that empties the repository.  Two items added at one
    clock value share an id; with these two left in [idle] the list has more than one item, so
    the guard lets the delete through, and the filter takes both: the
    repository is empty and no message is shown. *)
Lemma delete_can_empty_the_repository :
  exists s s',
    run fresh_install (colliding_saves ++ [DeleteClick 0; DeleteClick 0])
    = Some s
    /\ gameState s = idle
    /\ ids (items s) = ["1700000000000"; "1700000000000"]
    /\ step s (DeleteClick 0) = Some s'
    /\ items s' = []
    /\ errorMsg s' = errorMsg s
    /\ run fresh_install colliding_adds = Some s'.
Proof.
  eexists. eexists. split; [vm_compute; reflexivity|].
  split; [reflexivity|]. split; [reflexivity|].
  split; [vm_compute; reflexivity|]. repeat split.
Qed.





(** Against C8 as stated: a 500 by 400 image under the bounds 1000 by
    100 keeps its height of 400; a 530 by 530 image under 400 by 400 is
    drawn more than 400 wide, at other proportions than its own; and a
    1000 by 333 image gets a canvas of 400 by 133. *)
Lemma scaled_exceeds_an_unequal_bound :
  Compressor.scaled 500 400 1000 100 = (500%Q, 400%Q)
  /\ Compressor.canvas_size 500 400 1000 100 = (500%Z, 400%Z)
  /\ (100 < snd (Compressor.scaled 500 400 1000 100))%Q
  /\ (400 < fst (Compressor.scaled 530 530 400 400))%Q
  /\ ~ (fst (Compressor.scaled 530 530 400 400) * 530
        == 530 * snd (Compressor.scaled 530 530 400 400))%Q
  /\ Compressor.canvas_size 1000 333 400 400 = (400%Z, 133%Z)
  /\ (1000 * 133 < 400 * 333)%Z.
Proof.
  vm_compute. repeat split; discriminate.
Qed.

(** C8 on a 1000 by 333, a 530 by 530 and a 300 by 200 image, bounds
    400. *)
Lemma scaled_keeps_ratio_within_equal_bounds_witness :
  let max := Compressor.DEFAULT_MAX in
  within_two_roundings
    (fst (Compressor.scaled 1000 333 max max) * 333)
    (1000 * snd (Compressor.scaled 1000 333 max max))
  /\ (fst (Compressor.canvas_size 530 530 max max) <= 400)%Z
  /\ (snd (Compressor.canvas_size 530 530 max max) <= 400)%Z
  /\ Compressor.scaled 300 200 max max = (300%Q, 200%Q).
Proof.
  cbn zeta.
  destruct (scaled_keeps_ratio_within_equal_bounds 1000 333
              Compressor.DEFAULT_MAX Compressor.DEFAULT_MAX)
    as (R & _); try lia; try (apply Qle_bool_iff; reflexivity).
  destruct (scaled_keeps_ratio_within_equal_bounds 530 530
              Compressor.DEFAULT_MAX Compressor.DEFAULT_MAX)
    as (_ & _ & _ & _ & _ & _ & B); try lia; try (apply Qle_bool_iff; reflexivity).
  destruct (B 400%Z eq_refl eq_refl eq_refl) as (_ & _ & B1 & B2).
  destruct (scaled_keeps_ratio_within_equal_bounds 300 200
              Compressor.DEFAULT_MAX Compressor.DEFAULT_MAX)
    as (_ & _ & _ & Same & _); try lia; try (apply Qle_bool_iff; reflexivity).
  split; [exact R|]. split; [exact B1|]. split; [exact B2|].
  apply Same; discriminate.
Defined.


(** X19 on a list of one item, and on a run with two clock values. *)
Lemma delete_keeps_the_last_item_witness :
  (let s := initialState [item_a] EmptyString in
   items (handleDeleteItem "a" s) = items s
   /\ errorMsg (handleDeleteItem "a" s) = MSG_LAST_ITEM)
  /\ (exists s',
         run fresh_install distinct_adds = Some s' /\ items s' <> []).
Proof.
  destruct delete_keeps_the_last_item as (One & _ & Run).
  split.
  - destruct (One (initialState [item_a] EmptyString) "a") as (I & M & _).
    { simpl. lia. }
    destruct (M eq_refl) as (M1 & _). split; assumption.
  - destruct (run fresh_install distinct_adds) as [s'|] eqn:R;
      [|vm_compute in R; discriminate].
    exists s'. split; [reflexivity|].
    apply (Run fresh_install s' distinct_adds); try exact R.
    + discriminate.
    + repeat constructor; simpl; intuition discriminate.
    + vm_compute. intuition discriminate.
Defined.

(** Against C4 as stated: after the other button the target is still
    selected. *)
Lemma choose_another_keeps_the_target :
  exists s,
    run two_items (guess_events 0 half) = Some s
    /\ gameState s = fail
    /\ step s ChooseAnotherClick = Some (chooseAnother s)
    /\ gameState (chooseAnother s) = idle
    /\ targetItem (chooseAnother s) = Some item_a.
Proof.
  eexists. split; [vm_compute; reflexivity|]. repeat split.
Qed.

(** C4 on the state a failed guess on two items leads to. *)
Lemma fail_exits_by_user_only_witness :
  exists s,
    run two_items (guess_events 0 half) = Some s
    /\ gameState s = fail
    /\ (exists target,
           targetItem s = Some target
           /\ step s RetryClick = Some (startCatGuessing target s)
           /\ gameState (startCatGuessing target s) = guessing)
    /\ targetItem (chooseAnother s) = targetItem s.
Proof.
  destruct (run two_items (guess_events 0 half)) as [s|] eqn:R;
    [|vm_compute in R; discriminate].
  assert (F : gameState s = fail).
  { vm_compute in R. injection R as <-. reflexivity. }
  exists s. split; [reflexivity|]. split; [exact F|].
  destruct (fail_exits_by_user_only s) as (_ & (t & T1 & T2 & T3 & _) & C);
    [| exact F |].
  - exists [item_a; item_b], EmptyString, (guess_events 0 half). exact R.
  - split; [exists t; auto|]. apply C.
Defined.



(** Against C6 as stated: with a key, a success response whose body is
    not JSON, is [null] or holds a number for the text, and a request with
    no response, end in a platform error, neither [EMPTY_RESPONSE] nor a
    label. *)
Lemma success_body_without_label_is_no_empty_response :
  snd (Recognition.analyzeImage jpeg "key"
         (fun _ => Recognition.Resolved true None))
  = Recognition.Throws Recognition.SyntaxError
  /\ snd (Recognition.analyzeImage jpeg "key"
            (fun _ => Recognition.Resolved true (Some Js.JNull)))
     = Recognition.Throws Recognition.TypeError
  /\ snd (Recognition.analyzeImage jpeg "key"
            (fun _ =>
               Recognition.Resolved true
                 (Some (body_with_text (Js.JNumber 7)))))
     = Recognition.Throws Recognition.TypeError
  /\ snd (Recognition.analyzeImage jpeg "key" (fun _ => Recognition.Rejected))
     = Recognition.Throws Recognition.TypeError.
Proof. repeat split. Qed.

(** C6 on a body with a label, one with blanks only, a refusal and no
    key. *)
Lemma analyzeImage_outcomes_witness :
  snd (Recognition.analyzeImage jpeg "key"
         (fun _ =>
            Recognition.Resolved true
              (Some (body_with_text (Js.JString "  cat ")))))
  = Recognition.Returns "cat"
  /\ snd (Recognition.analyzeImage jpeg "key"
            (fun _ =>
               Recognition.Resolved true
                 (Some (body_with_text (Js.JString "   ")))))
     = Recognition.Throws (Recognition.Error "EMPTY_RESPONSE")
  /\ snd (Recognition.analyzeImage jpeg "key"
            (fun _ => Recognition.Resolved false None))
     = Recognition.Throws (Recognition.Error "API_ERROR")
  /\ Recognition.analyzeImage jpeg EmptyString
       (fun _ => Recognition.Resolved true None)
     = ([], Recognition.Throws (Recognition.Error "MISSING_KEY")).
Proof.
  split; [|split; [|split]].
  - destruct (analyzeImage_outcomes jpeg "key"
                (fun _ =>
                   Recognition.Resolved true
                     (Some (body_with_text (Js.JString "  cat ")))))
      as (_ & _ & K).
    destruct K as (request & _ & _ & _ & -> & _); [discriminate|]. reflexivity.
  - destruct (analyzeImage_outcomes jpeg "key"
                (fun _ =>
                   Recognition.Resolved true
                     (Some (body_with_text (Js.JString "   ")))))
      as (_ & _ & K).
    destruct K as (request & _ & _ & _ & -> & _); [discriminate|]. reflexivity.
  - destruct (analyzeImage_outcomes jpeg "key"
                (fun _ => Recognition.Resolved false None))
      as (_ & _ & K).
    destruct K as (request & _ & _ & _ & -> & _); [discriminate|]. reflexivity.
  - destruct (analyzeImage_outcomes jpeg EmptyString
                (fun _ => Recognition.Resolved true None))
      as (M & N & _).
    rewrite (surjective_pairing (Recognition.analyzeImage _ _ _)).
    rewrite (N eq_refl), (proj2 M eq_refl). reflexivity.
Defined.

(** C7 on two items and on two gestures. *)
Lemma reorder_is_permutation_witness :
  (exists l',
      reorder [item_a; item_b] 0 1 = Some l'
      /\ Permutation (ids [item_a; item_b]) (ids l')
      /\ nth_error l' 1 = Some item_a)
  /\ (exists s',
         run two_items (flat_map gesture [(0, [1; 0; 1]); (1, [0])]) = Some s'
         /\ Permutation (ids (items two_items)) (ids (items s'))).
Proof.
  destruct reorder_is_permutation as (One & _ & Many).
  split.
  - destruct (One [item_a; item_b] 0 1) as (l' & E & _ & P & N & _);
      [simpl; lia | simpl; lia |].
    exists l'. auto.
  - destruct (Many two_items [(0, [1; 0; 1]); (1, [0])]) as (s' & E & _ & P).
    + reflexivity.
    + repeat constructor; simpl; lia.
    + exists s'. auto.
Defined.

(** C9 with a parser that reads one text. *)
Lemma items_initializer_fallback_witness :
  items_initializer parse_only_empty_array (GetItem None)
  = BuiltIn DEFAULT_ITEMS
  /\ items_initializer parse_only_empty_array (GetItem (Some "{oops"))
     = BuiltIn DEFAULT_ITEMS
  /\ items_initializer parse_only_empty_array (GetItem (Some "[]"))
     = FromStorage (Js.JArray []).
Proof.
  assert (E : parse_only_empty_array EmptyString = None) by reflexivity.
  split; [|split].
  - exact (proj1 (items_initializer_fallback _ E (GetItem None))).
  - exact (proj1 (items_initializer_fallback _ E (GetItem (Some "{oops")))).
  - exact (proj1 (items_initializer_fallback _ E (GetItem (Some "[]")))).
Defined.

(** C10 on two items. *)
Lemma delete_removes_only_that_id_witness :
  items (handleDeleteItem "a" two_items) = [item_b]
  /\ Subsequence (items (handleDeleteItem "a" two_items)) (items two_items)
  /\ score (handleDeleteItem "a" two_items) = score two_items.
Proof.
  destruct (delete_removes_only_that_id two_items "a")
    as (_ & S & _ & _ & Sc & _); [reflexivity | simpl; lia |].
  split; [reflexivity|]. split; assumption.
Defined.

(* ================================================================= *)
(** ** Further concrete runs *)

(** X1 on a guess on two items that succeeds. *)
Lemma score_counts_successes_witness :
  exists s,
    run two_items (guess_events 0 quarter) = Some s
    /\ (score two_items <= score s <= score two_items + 13)%Z.
Proof.
  destruct (run two_items (guess_events 0 quarter)) as [s|] eqn:R;
    [|vm_compute in R; discriminate].
  exists s. split; [reflexivity|].
  exact (proj1 (score_counts_successes _ _ _ R)).
Defined.

(** X2 on the click that starts a guess. *)
Lemma game_state_moves_witness :
  exists s',
    step two_items (ItemClick 0) = Some s'
    /\ (gameState s' = gameState two_items
        \/ (transition (gameState two_items) (gameState s') = true
            /\ gameState two_items = idle /\ gameState s' = guessing)).
Proof.
  destruct (step two_items (ItemClick 0)) as [s'|] eqn:E;
    [|vm_compute in E; discriminate].
  exists s'. split; [reflexivity|].
  apply (game_state_moves two_items s' (ItemClick 0)); [|exact E].
  exists [item_a; item_b], EmptyString, []. reflexivity.
Defined.

(** X3 on a guess that has started. *)
Lemma guess_is_for_the_selected_target_witness :
  exists s,
    run two_items [ItemClick 0] = Some s
    /\ exists target, targetItem s = Some target /\ In target (items s).
Proof.
  destruct (run two_items [ItemClick 0]) as [s|] eqn:R;
    [|vm_compute in R; discriminate].
  exists s. split; [reflexivity|].
  destruct (guess_is_for_the_selected_target s) as [T _].
  - exists [item_a; item_b], EmptyString, [ItemClick 0]. exact R.
  - apply T. vm_compute in R. injection R as <-. discriminate.
Defined.

(** X4 on the first firing of the interval. *)
Lemma interval_run_shows_an_item_witness :
  exists s s' shown,
    run two_items [ItemClick 0] = Some s
    /\ step s (IntervalFires half half) = Some s'
    /\ catChoice s' = Some shown /\ In shown (items s).
Proof.
  destruct (run two_items [ItemClick 0]) as [s|] eqn:R;
    [|vm_compute in R; discriminate].
  destruct (interval s) as [iv|] eqn:I;
    [|vm_compute in R; injection R as <-; discriminate].
  destruct (interval_run_shows_an_item s iv half half)
    as (s' & shown & E & C & M & _); try reflexivity.
  - exists [item_a; item_b], EmptyString, [ItemClick 0]. exact R.
  - exact I.
  - exists s, s', shown. auto.
Defined.

(** X5 on a guess that has just started: twelve firings can win it. *)
Lemma running_guess_can_succeed_witness :
  exists s events s',
    run two_items [ItemClick 0] = Some s
    /\ length events = 12
    /\ run s events = Some s'
    /\ gameState s' = success.
Proof.
  destruct (run two_items [ItemClick 0]) as [s|] eqn:R;
    [|vm_compute in R; discriminate].
  destruct (interval s) as [iv|] eqn:I;
    [|vm_compute in R; injection R as <-; discriminate].
  destruct (running_guess_can_succeed s iv) as (events & s' & L & E & G & _).
  - exists [item_a; item_b], EmptyString, [ItemClick 0]. exact R.
  - exact I.
  - exists s, events, s'. split; [reflexivity|]. split; [|auto].
    rewrite L. vm_compute in R. injection R as <-.
    injection I as <-. reflexivity.
Defined.

(** X6 on the state a successful guess leads to. *)
Lemma success_returns_to_idle_witness :
  exists s k s',
    run two_items (guess_events 0 quarter) = Some s
    /\ gameState s = success
    /\ step s (TimeoutFires k) = Some s'
    /\ gameState s' = idle.
Proof.
  destruct (run two_items (guess_events 0 quarter)) as [s|] eqn:R;
    [|vm_compute in R; discriminate].
  assert (G : gameState s = success).
  { vm_compute in R. injection R as <-. reflexivity. }
  destruct (success_returns_to_idle s) as (_ & k & s' & _ & E & I & _).
  - exists [item_a; item_b], EmptyString, (guess_events 0 quarter). exact R.
  - exact G.
  - exists s, k, s'. auto.
Defined.

(** X7 on a delete on two items. *)
Lemma repository_changes_by_three_events_witness :
  exists s',
    step two_items (DeleteClick 0) = Some s'
    /\ Subsequence (items s') (items two_items)
    /\ length (items s') <= length (items two_items).
Proof.
  destruct (step two_items (DeleteClick 0)) as [s'|] eqn:E;
    [|vm_compute in E; discriminate].
  exists s'. split; [reflexivity|].
  exact (proj2 (repository_changes_by_three_events two_items s'
                  (DeleteClick 0) E)).
Defined.

(** X8 on the add dialog after an upload. *)
Lemma add_then_delete_restores_witness :
  exists s,
    run two_items upload_events = Some s
    /\ items (handleDeleteItem (Js.number_toString 7) (saveNewItem 7 s))
       = items s
    /\ length (items (saveNewItem 7 s)) = 3.
Proof.
  destruct (run two_items upload_events) as [s|] eqn:R;
    [|vm_compute in R; discriminate].
  exists s. split; [reflexivity|].
  vm_compute in R. injection R as <-.
  match goal with
  | |- context [saveNewItem 7 ?t] =>
      destruct (add_then_delete_restores t 7%Z jpeg) as [A B]
  end; try reflexivity; try discriminate.
  - vm_compute. intros [H|[H|[]]]; discriminate.
  - split; [exact A | exact B].
Defined.

(** X9 on two adds at two clock values and three deletes. *)
Lemma distinct_clock_values_keep_the_repository_witness :
  exists s',
    run two_items distinct_adds = Some s'
    /\ items s' <> []
    /\ NoDup (ids (items s')).
Proof.
  destruct (run two_items distinct_adds) as [s'|] eqn:R;
    [|vm_compute in R; discriminate].
  exists s'. split; [reflexivity|].
  destruct (distinct_clock_values_keep_the_repository two_items s'
              distinct_adds) as (N & D & _).
  - discriminate.
  - repeat constructor; simpl; intuition discriminate.
  - repeat constructor; simpl; intuition discriminate.
  - intros n [<-|[<-|[]]]; vm_compute; intros [H|[H|[]]]; discriminate.
  - exact R.
  - split; assumption.
Defined.

(** X10 on two items: the first is dragged over the second, back and
    over it again. *)
Lemma dragged_item_follows_the_pointer_witness :
  exists s',
    run two_items (DragStart 0 :: map DragOver [1; 0; 1]) = Some s'
    /\ draggedItemIndex s' = Some 1
    /\ items s' = [item_b; item_a].
Proof.
  destruct (dragged_item_follows_the_pointer two_items 0 [1; 0; 1] item_a)
    as (s' & R & D & I & _).
  - reflexivity.
  - reflexivity.
  - repeat constructor; simpl; lia.
  - exists s'. split; [exact R|]. split; [exact D|]. exact I.
Defined.

(** X14 with no key at the selection and a key entered before the
    recognition. *)
Lemma recognition_uses_the_key_of_the_selection_witness :
  let s := set_isSettingsOpen true (set_isAddModalOpen true two_items) in
  exists s',
    run s [FileChange (Some 2048%Z); KeyInput "k"; ReaderLoaded 0;
           ImageCompressed 0 jpeg;
           AnalysisSettled 0 (fun _ => Recognition.Resolved true None)]
    = Some s'
    /\ geminiKey s' = "k"
    /\ newItemName s' = UNKNOWN_ITEM
    /\ errorMsg s' = MSG_AI_FAILED.
Proof.
  cbn zeta.
  destruct (recognition_uses_the_key_of_the_selection
              (set_isSettingsOpen true (set_isAddModalOpen true two_items))
              2048%Z "k" jpeg (fun _ => Recognition.Resolved true None))
    as (s' & R & K & _ & _ & _ & _ & _ & M); try reflexivity.
  - discriminate.
  - destruct (M eq_refl) as (_ & N & E & _).
    exists s'. split; [exact R|]. split; [exact K|]. split; assumption.
Defined.

(** X15 on a file of 2 MiB. *)
Lemma upload_size_limit_witness :
  exists s',
    step (set_isAddModalOpen true two_items) (FileChange (Some 2097152%Z))
    = Some s'
    /\ errorMsg s' = MSG_TOO_BIG
    /\ uploads s' = []
    /\ items s' = items two_items.
Proof.
  destruct (upload_size_limit (set_isAddModalOpen true two_items) 2097152%Z)
    as (s' & E & F & _ & _ & _ & _ & Big & _); try reflexivity.
  destruct (Big ltac:(reflexivity)) as (M & U & _).
  exists s'. split; [exact E|]. split; [exact M|]. split; [exact U|].
  exact (f_equal (fun f => fst (fst (fst (fst (fst f))))) F).
Defined.

(** X18 on a JPEG data URL. *)
Lemma request_carries_the_payload_witness :
  Recognition.data (request_for jpeg "k") = Some "AAAA".
Proof.
  destruct (request_carries_the_payload "k"
              (fun _ => Recognition.Rejected)) as (_ & P & _).
  - discriminate.
  - apply (P "data:image/jpeg;base64" "AAAA"); reflexivity.
Defined.

(** X13 on an upload that is being compressed. *)
Lemma analysing_flag_is_cleared_witness :
  exists s k s',
    run two_items [OpenAddModal; FileChange (Some 2048%Z); ReaderLoaded 0]
    = Some s
    /\ isAiAnalyzing s = true
    /\ run s [ImageCompressed k jpeg;
              AnalysisSettled k (fun _ => Recognition.Rejected)]
       = Some s'
    /\ isAiAnalyzing s' = false
    /\ step s CloseAddModal <> Some s'.
Proof.
  destruct (run two_items
              [OpenAddModal; FileChange (Some 2048%Z); ReaderLoaded 0])
    as [s|] eqn:R; [|vm_compute in R; discriminate].
  assert (A : isAiAnalyzing s = true).
  { vm_compute in R. injection R as <-. reflexivity. }
  destruct (analysing_flag_is_cleared s)
    as ((k & key & [[_ F]|(c & Hk & _)]) & Only).
  - exists [item_a; item_b], EmptyString,
      [OpenAddModal; FileChange (Some 2048%Z); ReaderLoaded 0]. exact R.
  - exact A.
  - destruct (F jpeg (fun _ => Recognition.Rejected)) as (s' & E & C & _).
    exists s, k, s'. repeat split; try assumption.
    intros Close. destruct (Only _ _ Close C) as (? & ? & ?). discriminate.
  - exfalso. vm_compute in R. injection R as <-.
    destruct k as [|[|k]]; discriminate.
Defined.

(** X16 on a 1000 by 2 and a 1000 by 3 image, bounds 400; on the
    boundary a 19600 by 49 image loses its row and an 800 by 2 image
    keeps it. *)
Lemma thin_image_gets_an_empty_canvas_witness :
  snd (Compressor.canvas_size 1000 2 400 400) = 0%Z
  /\ (1 <= snd (Compressor.canvas_size 1000 3 400 400))%Z
  /\ snd (Compressor.canvas_size 19600 49 400 400) = 0%Z
  /\ snd (Compressor.canvas_size 800 2 400 400) = 1%Z.
Proof.
  destruct (thin_image_gets_an_empty_canvas 1000 2 400 400%Q)
    as (_ & Thin & _); try lia.
  destruct (thin_image_gets_an_empty_canvas 1000 3 400 400%Q)
    as (_ & _ & Row); try lia.
  destruct (Thin eq_refl) as [T _]. destruct (Row eq_refl) as [R _].
  split; [exact T|]. split; [exact R|]. split; reflexivity.
Defined.

(** X17 on a 539 by 539 image, bounds 400: its canvas of 399 by 400. *)
Lemma compressing_again_keeps_the_size_witness :
  Compressor.canvas_size 539 539 400 400 = (399%Z, 400%Z)
  /\ Compressor.canvas_size 399 400 400 400 = (399%Z, 400%Z).
Proof.
  pose proof (compressing_again_keeps_the_size 539 539 400
                ltac:(lia) ltac:(lia) ltac:(lia)) as K.
  cbn zeta in K.
  assert (E : Compressor.canvas_size 539 539 400 400 = (399%Z, 400%Z))
    by reflexivity.
  change (inject_Z 539) with 539%Q in K. change (inject_Z 400) with 400%Q in K.
  rewrite E in K. cbn [fst snd] in K. split; [exact E | exact K].
Defined.
